(** * UColor: a verification development for [src/index.js]

    The JavaScript class [UColor] stores four numeric channels and offers a
    random constructor ([random]), parsers ([fromHEX], [fromRGBA]),
    formatters ([toHEX], [toRGBA]) and three derivations ([etGrayScale],
    [getContrastColor], [getPalette]) built on [rgbToHsl] and [hslToRgb].

    JavaScript numbers are IEEE 754 binary64 values; they are modelled by
    Rocq's primitive [float]s, whose operations are the binary64 ones
    (round to nearest, ties to even).  The library functions the class calls
    ([Math.round], [%], [Number], [parseInt], ...) are defined from the
    ECMAScript specification on the exact value of a float, obtained through
    [Prim2SF].  The colour-space conversions are written over an interface of
    numeric operations, whose instance is binary64 arithmetic. *)

From Stdlib Require Import ZArith QArith Bool List Lia Lqa.
From Stdlib Require Import Ascii String.
From Stdlib Require Import Floats Uint63.
Import ListNotations.

Set Implicit Arguments.
Close Scope Q_scope.

(** ** The numeric operations the class uses *)

Class Arith (num : Type) := {
  lit : Q -> num;                       (* a numeric literal of the source *)
  NaN : num;                            (* [undefined] used as a number *)
  add : num -> num -> num;
  sub : num -> num -> num;
  mul : num -> num -> num;
  div : num -> num -> num;
  rem : num -> num -> num;              (* the [%] operator *)
  lt : num -> num -> bool;              (* [<] *)
  seq : num -> num -> bool;             (* [===] on numbers *)
  Math_round : num -> num;
  Math_max2 : num -> num -> num;
  Math_min2 : num -> num -> num
}.

Arguments lit {num _} q%_Q.

Declare Scope num_scope.
Delimit Scope num_scope with num.
Notation "x + y" := (add x y) : num_scope.
Notation "x - y" := (sub x y) : num_scope.
Notation "x * y" := (mul x y) : num_scope.
Notation "x / y" := (div x y) : num_scope.
Notation "x % y" := (rem x y) (at level 40, left associativity) : num_scope.
Notation "x < y" := (lt x y) : num_scope.
Notation "x > y" := (lt y x) : num_scope.
Notation "x === y" := (seq x y) (at level 70, no associativity) : num_scope.
Notation "' q" := (lit q) (at level 1, q at level 0, format "' q") : num_scope.

(** ** Binary64 *)

Module F64.

(** Rounding of the rational [n/d] (with sign [s]) to the nearest binary64
    value, ties to even: the division of IEEE 754 applied to the two integers
    taken as unbounded mantissas. *)
Definition of_ratio (s : bool) (n d : positive) : float :=
  SF2Prim (SFdiv prec emax (S754_finite s n 0) (S754_finite false d 0)).

Definition of_Q (q : Q) : float :=
  match Qnum q with
  | Z0 => zero
  | Zpos n => of_ratio false n (Qden q)
  | Zneg n => of_ratio true n (Qden q)
  end.

(** The integer [n] as a binary64 value (rounded when it has more than 53
    bits). *)
Definition of_Z (n : Z) : float := of_Q (inject_Z n).

Definition is_NaN (x : float) : bool := negb (PrimFloat.eqb x x).

Definition is_neg_zero (x : float) : bool :=
  match Prim2SF x with S754_zero true => true | _ => false end.

(** [Math.max] and [Math.min] on two arguments: NaN if either is NaN, and
    [+0] is larger than [-0]. *)
Definition max2 (x y : float) : float :=
  if is_NaN x then x else if is_NaN y then y
  else if PrimFloat.ltb x y then y
  else if PrimFloat.ltb y x then x
  else if is_neg_zero x then y else x.

Definition min2 (x y : float) : float :=
  if is_NaN x then x else if is_NaN y then y
  else if PrimFloat.ltb x y then x
  else if PrimFloat.ltb y x then y
  else if is_neg_zero x then x else y.

(** [Math.round]: the integer closest to [x], ties towards [+inf], that is
    [floor (x + 1/2)] computed exactly; a zero result keeps the sign of [x].
    A finite float is [+-m * 2^e]; for [e >= 0] it is an integer already. *)
Definition SFround (x : spec_float) : spec_float :=
  match x with
  | S754_finite s m e =>
      if (0 <=? e)%Z then x
      else
        let n := ((2 * cond_Zopp s (Zpos m) + 2 ^ (- e)) / 2 ^ (1 - e))%Z in
        if (n =? 0)%Z then S754_zero s else binary_normalize prec emax n 0 false
  | _ => x
  end.

Definition round (x : float) : float := SF2Prim (SFround (Prim2SF x)).

(** The [%] operator: the exact remainder of the truncated division, with the
    sign of the dividend.  The two mantissas are aligned on the smaller
    exponent and the remainder is taken on integers. *)
Definition SFrem (x y : spec_float) : spec_float :=
  match x, y with
  | S754_nan, _ | _, S754_nan => S754_nan
  | S754_infinity _, _ => S754_nan
  | _, S754_zero _ => S754_nan
  | _, S754_infinity _ => x
  | S754_zero _, _ => x
  | S754_finite sx mx ex, S754_finite sy my ey =>
      if SFltb (SFabs x) (SFabs y) then x
      else
        let ez := Z.min ex ey in
        let ax := Zpos (fst (shl_align mx ex ez)) in
        let ay := Zpos (fst (shl_align my ey ez)) in
        let k := Z.rem ax ay in
        if (k =? 0)%Z then S754_zero sx
        else binary_normalize prec emax (cond_Zopp sx k) ez false
  end.

Definition frem (x y : float) : float := SF2Prim (SFrem (Prim2SF x) (Prim2SF y)).

(** [Math.floor]: the largest integer not above [x], computed exactly; a
    zero result keeps the sign of [x] (a negative [x] never gives zero). *)
Definition SFfloor (x : spec_float) : spec_float :=
  match x with
  | S754_finite s m e =>
      if (0 <=? e)%Z then x
      else
        let n := (cond_Zopp s (Zpos m) / 2 ^ (- e))%Z in
        if (n =? 0)%Z then S754_zero s else binary_normalize prec emax n 0 false
  | _ => x
  end.

Definition floor (x : float) : float := SF2Prim (SFfloor (Prim2SF x)).

#[global] Instance arith : Arith float := {|
  lit := of_Q;
  NaN := nan;
  add := PrimFloat.add;
  sub := PrimFloat.sub;
  mul := PrimFloat.mul;
  div := PrimFloat.div;
  rem := frem;
  lt := PrimFloat.ltb;
  seq := PrimFloat.eqb;
  Math_round := round;
  Math_max2 := max2;
  Math_min2 := min2
|}.

End F64.

(** ** The class [UColor]: colour-space conversions and derivations *)

Section Color.

Context {num : Type} `{Arith num}.
Local Open Scope num_scope.

(** An instance holds the four channels the constructor stores. *)
Record UColor := mkUColor { r : num; g : num; b : num; a : num }.

(** [constructor(r, g, b, a = 1)]: a missing alpha defaults to 1. *)
Definition new_UColor (r0 g0 b0 : num) (a0 : option num) : UColor :=
  mkUColor r0 g0 b0 (match a0 with Some v => v | None => '1 end).

Record HSL := mkHSL { h : num; s : num; l : num }.
Record RGB := mkRGB { R : num; G : num; B : num }.

(** [rgbToHsl()] *)
Definition rgbToHsl (this : UColor) : HSL :=
  let r := this.(r) / '255 in
  let g := this.(g) / '255 in
  let b := this.(b) / '255 in
  let max := Math_max2 (Math_max2 r g) b in
  let min := Math_min2 (Math_min2 r g) b in
  let l := (max + min) / '2 in
  if max === min then mkHSL '0 '0 l
  else
    let d := max - min in
    let s := if l > '(1#2) then d / ('2 - max - min) else d / (max + min) in
    let h :=
      if max === r then (g - b) / d + (if g < b then '6 else '0)
      else if max === g then (b - r) / d + '2
      else if max === b then (r - g) / d + '4
      else NaN in
    mkHSL (h * '60) s l.

(** The helper [hueToRgb(p, q, t)] local to [hslToRgb]. *)
Definition hueToRgb (p q t : num) : num :=
  let t := if t < '0 then t + '1 else t in
  let t := if t > '1 then t - '1 else t in
  if t < '1 / '6 then p + (q - p) * '6 * t
  else if t < '1 / '2 then q
  else if t < '2 / '3 then p + (q - p) * ('2 / '3 - t) * '6
  else p.

(** [hslToRgb(h, s, l)] *)
Definition hslToRgb (h s l : num) : RGB :=
  if s === '0 then
    mkRGB (Math_round (l * '255)) (Math_round (l * '255)) (Math_round (l * '255))
  else
    let q := if l < '(1#2) then l * ('1 + s) else l + s - l * s in
    let p := '2 * l - q in
    let r := hueToRgb p q (h / '360 + '1 / '3) in
    let g := hueToRgb p q (h / '360) in
    let b := hueToRgb p q (h / '360 - '1 / '3) in
    mkRGB (Math_round (r * '255)) (Math_round (g * '255)) (Math_round (b * '255)).

(** [etGrayScale()]: in the source the name [getGrayScale] is split by a
    comment, which leaves a method called [etGrayScale]. *)
Definition etGrayScale (this : UColor) : UColor :=
  let gray :=
    Math_round ((this.(r) * '(299#1000)) + (this.(g) * '(587#1000))
                + (this.(b) * '(114#1000))) in
  new_UColor gray gray gray (Some this.(a)).

(** [getContrastColor()] *)
Definition getContrastColor (this : UColor) : UColor :=
  let hsl := rgbToHsl this in
  let h := (hsl.(h) + '180) % '360 in
  let rgb := hslToRgb h hsl.(s) hsl.(l) in
  new_UColor rgb.(R) rgb.(G) rgb.(B) (Some this.(a)).

(** [getPalette()], on values: the three colours of the returned array. *)
Definition getPalette (this : UColor) : list UColor :=
  let hsl := rgbToHsl this in
  let h2 := (hsl.(h) + '120) % '360 in
  let h3 := (hsl.(h) + '240) % '360 in
  let c2 := hslToRgb h2 hsl.(s) hsl.(l) in
  let c3 := hslToRgb h3 hsl.(s) hsl.(l) in
  [ this;
    new_UColor c2.(R) c2.(G) c2.(B) (Some this.(a));
    new_UColor c3.(R) c3.(G) c3.(B) (Some this.(a)) ].

End Color.

Arguments UColor num : clear implicits.
Arguments HSL num : clear implicits.
Arguments RGB num : clear implicits.

(** ** Strings

    A JavaScript string is a sequence of code units; the strings this class
    handles are modelled by [string], one character per code unit (code units
    below 256). *)

Module JSString.

Local Open Scope string_scope.
Local Open Scope Z_scope.

(** White space and line terminators removed by [trim] and skipped by the
    numeric conversions: TAB, LF, VT, FF, CR, SP and NBSP. *)
Definition is_white (c : ascii) : bool :=
  match N_of_ascii c with
  | 9%N | 10%N | 11%N | 12%N | 13%N | 32%N | 160%N => true
  | _ => false
  end.

Fixpoint trimStart (s : string) : string :=
  match s with
  | String c s' => if is_white c then trimStart s' else s
  | EmptyString => EmptyString
  end.

Fixpoint trimEnd (s : string) : string :=
  match s with
  | EmptyString => EmptyString
  | String c s' =>
      match trimEnd s' with
      | EmptyString => if is_white c then EmptyString else String c EmptyString
      | t => String c t
      end
  end.

Definition trim (s : string) : string := trimEnd (trimStart s).

Definition len (s : string) : Z := Z.of_nat (String.length s).

(** [s.indexOf(pat)]: the first position at which [pat] occurs, or [-1]. *)
Fixpoint indexOf_from (pat s : string) (i : Z) : Z :=
  if String.prefix pat s then i
  else match s with
       | EmptyString => -1
       | String _ s' => indexOf_from pat s' (i + 1)
       end.

Definition indexOf (s pat : string) : Z := indexOf_from pat s 0.

(** [s.slice(start, end)]: a negative index counts from the end, and both are
    clamped to the string. *)
Definition clamp (n i : Z) : Z := if i <? 0 then Z.max (n + i) 0 else Z.min i n.

Definition slice (s : string) (start stop : Z) : string :=
  let from := clamp (len s) start in
  let to := clamp (len s) stop in
  String.substring (Z.to_nat from) (Z.to_nat (Z.max (to - from) 0)) s.

(** [s.split(sep)] for a separator of one character. *)
Fixpoint split (sep : ascii) (s : string) : list string :=
  match s with
  | EmptyString => [EmptyString]
  | String c s' =>
      if Ascii.eqb c sep then EmptyString :: split sep s'
      else match split sep s' with
           | x :: xs => String c x :: xs
           | [] => [String c EmptyString]
           end
  end.

Fixpoint repeat_char (c : ascii) (n : nat) : string :=
  match n with O => EmptyString | S k => String c (repeat_char c k) end.

(** [s.padStart(target, fill)] for a filler of one character. *)
Definition padStart (s : string) (target : Z) (fill : ascii) : string :=
  repeat_char fill (Z.to_nat (target - len s)) ++ s.

(** Digits: the value of a character in a radix up to 36, and back. *)
Definition digit_val (c : ascii) : option Z :=
  let n := Z.of_N (N_of_ascii c) in
  if (48 <=? n) && (n <=? 57) then Some (n - 48)
  else if (97 <=? n) && (n <=? 122) then Some (n - 87)
  else if (65 <=? n) && (n <=? 90) then Some (n - 55)
  else None.

Definition digit_char (d : Z) : ascii :=
  ascii_of_N (Z.to_N (if d <? 10 then d + 48 else d + 87)).

(** The longest prefix of [s] made of digits of [radix]: its value (on top
    of [acc]), the number of digits read, and the rest of the string. *)
Fixpoint read_digits (radix : Z) (s : string) (acc : Z) (count : Z)
  : Z * Z * string :=
  match s with
  | EmptyString => (acc, count, s)
  | String c s' =>
      match digit_val c with
      | Some d =>
          if d <? radix then read_digits radix s' (acc * radix + d) (count + 1)
          else (acc, count, s)
      | None => (acc, count, s)
      end
  end.

(** The digits of [n >= 0] in [radix], most significant first. *)
Fixpoint digits_fuel (fuel : nat) (radix n : Z) (acc : string) : string :=
  match fuel with
  | O => acc
  | S f =>
      let acc' := String (digit_char (n mod radix)) acc in
      if n / radix =? 0 then acc' else digits_fuel f radix (n / radix) acc'
  end.

Definition digits (radix n : Z) : string :=
  digits_fuel (S (Z.to_nat (Z.log2 n))) radix n EmptyString.

End JSString.

(** ** Conversions between numbers and strings *)

Module JSNumber.

Import JSString.
Local Open Scope string_scope.
Local Open Scope Z_scope.

(** The Number value of [+-N * 10^e10]. *)
Definition of_decimal (neg : bool) (N e10 : Z) : float :=
  match N with
  | Zpos n =>
      if 0 <=? e10 then F64.of_ratio neg (n * Z.to_pos (10 ^ e10)) 1
      else F64.of_ratio neg n (Z.to_pos (10 ^ (- e10)))
  | _ => if neg then neg_zero else zero
  end.

(** *** Reading a decimal literal (the grammar [StrDecimalLiteral]) *)

Inductive literal :=
  | LitInfinity (neg : bool)
  | LitDecimal (neg : bool) (N e10 : Z).

Definition literal_value (v : literal) : float :=
  match v with
  | LitInfinity neg => if neg then neg_infinity else infinity
  | LitDecimal neg N e10 => of_decimal neg N e10
  end.

Definition read_sign (s : string) : bool * string :=
  match s with
  | String "-" s' => (true, s')
  | String "+" s' => (false, s')
  | _ => (false, s)
  end.

(** An exponent part [e], [e+] or [e-] followed by at least one digit;
    nothing is consumed otherwise. *)
Definition read_exponent (s : string) : Z * string :=
  match s with
  | String c s1 =>
      if Ascii.eqb c "e" || Ascii.eqb c "E" then
        let '(neg, s2) := read_sign s1 in
        let '(v, cnt, rest) := read_digits 10 s2 0 0 in
        if cnt =? 0 then (0, s) else (if neg then - v else v, rest)
      else (0, s)
  | EmptyString => (0, s)
  end.

(** The longest prefix of [s] that is a decimal literal, with what follows. *)
Definition read_decimal (s : string) : option (literal * string) :=
  let '(neg, s1) := read_sign s in
  if String.prefix "Infinity" s1 then
    Some (LitInfinity neg, String.substring 8 (String.length s1 - 8) s1)
  else
    let '(v1, c1, s2) := read_digits 10 s1 0 0 in
    let '(v2, c2, s3) :=
      match s2 with
      | String "." t => read_digits 10 t v1 0
      | _ => (v1, 0, s2)
      end in
    let dot := match s2 with String "." _ => true | _ => false end in
    if (c1 =? 0) && (c2 =? 0) then None
    else
      let '(e, s4) := read_exponent s3 in
      Some (LitDecimal neg v2 (e - c2), s4).

(** [Number(s)] on a string: [StringToNumber]. *)
Definition StringToNumber (s : string) : float :=
  let t := trim s in
  match t with
  | EmptyString => zero
  | String c0 t0 =>
      match read_decimal t with
      | Some (v, EmptyString) => literal_value v
      | _ =>
          match t0 with
          | String x t1 =>
              let radix :=
                if Ascii.eqb x "x" || Ascii.eqb x "X" then 16
                else if Ascii.eqb x "o" || Ascii.eqb x "O" then 8
                else if Ascii.eqb x "b" || Ascii.eqb x "B" then 2
                else 0 in
              if Ascii.eqb c0 "0" && (0 <? radix) then
                match read_digits radix t1 0 0 with
                | (v, cnt, EmptyString) => if 0 <? cnt then F64.of_Z v else nan
                | _ => nan
                end
              else nan
          | EmptyString => nan
          end
      end
  end.

(** [Number(v)] where [v] is a string or [undefined] (an array read out of
    range). *)
Definition Number (v : option string) : float :=
  match v with
  | Some s => StringToNumber s
  | None => nan
  end.

(** [parseFloat(s)] *)
Definition parseFloat (s : string) : float :=
  match read_decimal (trimStart s) with
  | Some (v, _) => literal_value v
  | None => nan
  end.

(** [parseInt(s, radix)] for a radix given between 2 and 36. *)
Definition parseInt (s : string) (radix : Z) : float :=
  let '(neg, s1) := read_sign (trimStart s) in
  let s2 :=
    if radix =? 16 then
      match s1 with
      | String "0" (String x t) =>
          if Ascii.eqb x "x" || Ascii.eqb x "X" then t else s1
      | _ => s1
      end
    else s1 in
  if (radix <? 2) || (36 <? radix) then nan
  else
    let '(v, cnt, _) := read_digits radix s2 0 0 in
    if cnt =? 0 then nan
    else if v =? 0 then (if neg then neg_zero else zero)
    else F64.of_Z (if neg then - v else v).

(** *** Writing a number *)

(** The fraction [k/den] (with [0 <= k < den]) written in [radix], digit by
    digit, until it is exhausted. *)
Fixpoint frac_digits (fuel : nat) (radix k den : Z) : string :=
  match fuel with
  | O => EmptyString
  | S f =>
      if k =? 0 then EmptyString
      else String (digit_char (k * radix / den))
                  (frac_digits f radix ((k * radix) mod den) den)
  end.

(** [x.toString(radix)] for a radix other than 10: exact digits of an
    integral [x]; for a fractional [x] the standard leaves the number of
    digits to the engine, and the exact expansion is written. *)
Definition toString_radix (x : float) (radix : Z) : string :=
  match Prim2SF x with
  | S754_nan => "NaN"
  | S754_zero _ => "0"
  | S754_infinity s => if s then "-Infinity" else "Infinity"
  | S754_finite s m e =>
      (if s then "-" else "") ++
      (if 0 <=? e then digits radix (Zpos m * 2 ^ e)
       else
         let den := 2 ^ (- e) in
         let k := Zpos m mod den in
         digits radix (Zpos m / den) ++
         (if k =? 0 then "" else "." ++ frac_digits (Z.to_nat (- e)) radix k den))
  end.

(** The decimal exponent [n] of a positive rational [vn/vd]:
    [10^(n-1) <= vn/vd < 10^n]. *)
Definition below_pow10 (vn vd n : Z) : bool :=
  if 0 <=? n then vn <? 10 ^ n * vd else vn * 10 ^ (- n) <? vd.

Fixpoint find_exp10 (fuel : nat) (vn vd n : Z) : Z :=
  match fuel with
  | O => n
  | S f => if below_pow10 vn vd n then n else find_exp10 f vn vd (n + 1)
  end.

Definition exp10 (vn vd : Z) : Z :=
  let est := (Z.log2 vn - Z.log2 vd) * 30103 / 100000 in
  find_exp10 8 vn vd (est - 1).

(** The digits [s] (an integer of [k] decimal digits) and exponent [n] of the
    shortest decimal [s * 10^(n-k)] whose Number value is [x]; when two
    decimals of that length qualify, the one closer to [x]. *)
Definition candidate (x : float) (vn vd n0 k : Z) : option (Z * Z) :=
  let '(num, den) :=
    if 0 <=? k - n0 then (vn * 10 ^ (k - n0), vd) else (vn, vd * 10 ^ (n0 - k)) in
  let lo := num / den in
  let hi := lo + 1 in
  let up := if hi =? 10 ^ k then (10 ^ (k - 1), n0 + 1) else (hi, n0) in
  let ok_lo := PrimFloat.eqb (of_decimal false lo (n0 - k)) x in
  let ok_hi := PrimFloat.eqb (of_decimal false (fst up) (snd up - k)) x in
  let twice := 2 * (num mod den) in
  if ok_lo && ok_hi then
    if twice <? den then Some (lo, n0)
    else if den <? twice then Some up
    else if Z.even lo then Some (lo, n0) else Some up
  else if ok_lo then Some (lo, n0)
  else if ok_hi then Some up
  else None.

Fixpoint shortest_from (fuel : nat) (x : float) (vn vd n0 k : Z)
  : option (Z * Z * Z) :=
  match fuel with
  | O => None
  | S f =>
      match candidate x vn vd n0 k with
      | Some (s, n) => Some (s, k, n)
      | None => shortest_from f x vn vd n0 (k + 1)
      end
  end.

(** Seventeen significant digits always identify a binary64 value; should the
    search end without a result, the exact decimal expansion is taken. *)
Definition shortest (x : float) (m : positive) (e : Z) : Z * Z * Z :=
  let '(vn, vd) := if 0 <=? e then (Zpos m * 2 ^ e, 1) else (Zpos m, 2 ^ (- e)) in
  match shortest_from 17 x vn vd (exp10 vn vd) 1 with
  | Some skn => skn
  | None =>
      let s := if 0 <=? e then vn else Zpos m * 5 ^ (- e) in
      let k := len (digits 10 s) in
      (s, k, if 0 <=? e then k else k + e)
  end.

(** The layout of [Number::toString] for digits [s], their count [k] and the
    exponent [n]. *)
Definition layout (s k n : Z) : string :=
  let d := digits 10 s in
  if (k <=? n) && (n <=? 21) then d ++ repeat_char "0" (Z.to_nat (n - k))
  else if (0 <? n) && (n <=? 21) then
    String.substring 0 (Z.to_nat n) d ++ "." ++
    String.substring (Z.to_nat n) (Z.to_nat (k - n)) d
  else if (-6 <? n) && (n <=? 0) then
    "0." ++ repeat_char "0" (Z.to_nat (- n)) ++ d
  else
    let e := n - 1 in
    let ex := (if e <? 0 then "e-" else "e+") ++ digits 10 (Z.abs e) in
    if k =? 1 then d ++ ex
    else String.substring 0 1 d ++ "." ++
         String.substring 1 (Z.to_nat (k - 1)) d ++ ex.

(** [String(x)], the conversion a template literal applies to a number. *)
Definition ToString (x : float) : string :=
  match Prim2SF x with
  | S754_nan => "NaN"
  | S754_zero _ => "0"
  | S754_infinity s => if s then "-Infinity" else "Infinity"
  | S754_finite s m e =>
      let '(d, k, n) := shortest (abs x) m e in
      (if s then "-" else "") ++ layout d k n
  end.

(** [x.toFixed(f)]: [n / 10^f] closest to [x] (the larger [n] on a tie),
    written with [f] digits after the point. *)
Definition toFixed (x : float) (f : Z) : string :=
  match Prim2SF x with
  | S754_finite s m e =>
      if PrimFloat.leb (F64.of_Z (10 ^ 21)) (abs x) then ToString x
      else
        let n :=
          if 0 <=? e then Zpos m * 2 ^ e * 10 ^ f
          else (2 * Zpos m * 10 ^ f + 2 ^ (- e)) / 2 ^ (1 - e) in
        let d := digits 10 n in
        let d := repeat_char "0" (Z.to_nat (f + 1 - len d)) ++ d in
        let k := len d in
        (if s then "-" else "") ++
        (if f =? 0 then d
         else String.substring 0 (Z.to_nat (k - f)) d ++ "." ++
              String.substring (Z.to_nat (k - f)) (Z.to_nat f) d)
  | S754_zero _ =>
      if f =? 0 then "0" else "0." ++ repeat_char "0" (Z.to_nat f)
  | _ => ToString x
  end.

End JSNumber.

(** ** The class [UColor]: parsers and formatters *)

Import JSString JSNumber.
Local Open Scope string_scope.

(** A colour of the program: four binary64 channels. *)
Abbreviation Color := (UColor float).

(** A number used as a condition is true unless it is [0], [-0] or [NaN]. *)
Definition truthy (x : float) : bool :=
  negb (PrimFloat.eqb x 0 || F64.is_NaN x).

(** [static random(a = Math.round(Math.random() * 1000) / 1000)].
    [Math.random] is a source of numbers: [rnd i] is what its call number [i]
    returns.  The default value of [a] is computed first, and only when [a]
    is missing. *)
Definition random (a : option float) (rnd : nat -> float) : Color :=
  let '(a, k) :=
    match a with
    | Some v => (v, 0%nat)
    | None => ((F64.round (rnd 0%nat * 1000) / 1000)%float, 1%nat)
    end in
  let r := F64.floor (rnd k * 256)%float in
  let g := F64.floor (rnd (S k) * 256)%float in
  let b := F64.floor (rnd (S (S k)) * 256)%float in
  new_UColor r g b (Some a).

(** [static fromHEX(hexString)] *)
Definition fromHEX (hexString : string) : Color :=
  let r := parseInt (slice hexString 1 3) 16 in
  let g := parseInt (slice hexString 3 5) 16 in
  let b := parseInt (slice hexString 5 7) 16 in
  let a :=
    if (len hexString =? 9)%Z then
      parseFloat (toFixed (parseInt (slice hexString 7 9) 16 / 255)%float 3)
    else 1%float in
  new_UColor r g b (Some a).

(** [static fromRGBA(rgbaString)]: the position of the parenthesis is taken in
    [rgbaString] itself, the slice in the trimmed string. *)
Definition rgbParts (rgbaString : string) : list string :=
  let rgbContent :=
    slice (trim rgbaString) (indexOf rgbaString "(" + 1) (-1) in
  split "," rgbContent.

Definition fromRGBA (rgbaString : string) : Color :=
  let rgbParts := rgbParts rgbaString in
  let r := Number (nth_error rgbParts 0) in
  let g := Number (nth_error rgbParts 1) in
  let b := Number (nth_error rgbParts 2) in
  let a :=
    if truthy (Number (nth_error rgbParts 3))
    then Number (nth_error rgbParts 3) else 1%float in
  new_UColor r g b (Some a).

(** [toHEX()] *)
Definition decToHex (dec : float) : string :=
  padStart (toString_radix dec 16) 2 "0".

Definition toHEX (this : Color) : string :=
  let rHex := decToHex this.(r) in
  let gHex := decToHex this.(g) in
  let bHex := decToHex this.(b) in
  if PrimFloat.eqb this.(a) 1 then "#" ++ rHex ++ gHex ++ bHex
  else
    let aHex := decToHex (F64.round (this.(a) * 255)%float) in
    "#" ++ rHex ++ gHex ++ bHex ++ aHex.

(** [toRGBA()] *)
Definition toRGBA (this : Color) : string :=
  "rgba(" ++ ToString this.(r) ++ ", " ++ ToString this.(g) ++ ", "
          ++ ToString this.(b) ++ ", " ++ ToString this.(a) ++ ")".

(** A colour with integer channels. *)
Definition rgb (x y z : Z) (alpha : float) : Color :=
  mkUColor (F64.of_Z x) (F64.of_Z y) (F64.of_Z z) alpha.

(** [getPalette()] as the method runs on a store of instances: [this] is a
    reference, the returned array holds [this] itself and references to the
    two instances the method creates. *)
Module Store.

Definition ref := nat.
Definition store := list Color.

Definition read (st : store) (p : ref) : option Color := nth_error st p.

(** [new UColor(...)]: the instance is placed at the next free address. *)
Definition alloc (st : store) (c : Color) : store * ref :=
  ((st ++ [c])%list, List.length st).

Definition getPalette (st : store) (this : ref) : option (store * list ref) :=
  match read st this with
  | None => None
  | Some c =>
      match getPalette c with
      | [_; c2; c3] =>
          let '(st1, p2) := alloc st c2 in
          let '(st2, p3) := alloc st1 c3 in
          Some (st2, [this; p2; p3])
      | _ => None
      end
  end.

End Store.

(** * Properties *)

Unset Implicit Arguments.

(** ** Checking a property on every integer below a bound *)

Fixpoint all_below (n : nat) (P : Z -> bool) : bool :=
  match n with
  | O => true
  | S k => P (Z.of_nat k) && all_below k P
  end.

Lemma all_below_spec (n : nat) (P : Z -> bool) :
  all_below n P = true ->
  forall z, (0 <= z < Z.of_nat n)%Z -> P z = true.
Proof.
  induction n as [|k IH]; simpl; intros Hall z Hz.
  - lia.
  - apply andb_prop in Hall. destruct Hall as [Hk Hrest].
    destruct (Z.eq_dec z (Z.of_nat k)) as [->|Hne]; [exact Hk|].
    apply IH; [exact Hrest | lia].
Qed.

(** Equality of two floats, decided. *)
Lemma feq_true (x y : float) : PrimFloat.Leibniz.eqb x y = true -> x = y.
Proof. apply FloatAxioms.Leibniz.eqb_spec. Qed.

(** ** Parsing an [rgb(...)] string *)

(** C1, at the input that separates the program from the claim: one leading
    space moves the slice by one character, so [" rgb(1,2,3)"] is read as
    the fields ["", "2", "3"], giving r = 0, g = 2, b = 3, whereas the same
    body without the space gives r = 1, g = 2, b = 3. *)
Theorem fromRGBA_leading_space :
  rgbParts " rgb(1,2,3)" = [""; "2"; "3"] /\
  fromRGBA " rgb(1,2,3)" = rgb 0 2 3 1 /\
  fromRGBA "rgb(1,2,3)" = rgb 1 2 3 1.
Proof. repeat split; vm_compute; reflexivity. Qed.

(** C2: when the comma-separated body has a fourth field, the alpha of the
    result is the number that field converts to if that number is neither
    zero nor NaN, and 1 otherwise; ['rgba(0,0,0,0)'] gets alpha 1 and
    ['rgb(255,161,12,0.8)'] is the colour (255, 161, 12, 0.8). *)
Theorem fromRGBA_alpha (rgbaString field : string) :
  nth_error (rgbParts rgbaString) 3 = Some field ->
  (let n := StringToNumber field in
   (fromRGBA rgbaString).(a) =
     if negb (PrimFloat.eqb n 0) && negb (F64.is_NaN n) then n else 1%float) /\
  (fromRGBA "rgba(0,0,0,0)").(a) = 1%float /\
  fromRGBA "rgb(255,161,12,0.8)" = rgb 255 161 12 (F64.of_Q (8 # 10)).
Proof.
  intros Hfield. split; [|split; vm_compute; reflexivity].
  unfold fromRGBA, new_UColor, truthy; cbn [a]. rewrite Hfield. cbn [Number].
  destruct (PrimFloat.eqb (StringToNumber field) 0); cbn;
    destruct (F64.is_NaN (StringToNumber field)); reflexivity.
Qed.

Lemma fromRGBA_alpha_witness :
  nth_error (rgbParts "rgba(0,0,0,0)") 3 = Some "0" /\
  (fromRGBA "rgba(0,0,0,0)").(a) = 1%float.
Proof.
  split; [vm_compute; reflexivity|].
  exact (proj1 (proj2 (fromRGBA_alpha "rgba(0,0,0,0)" "0" eq_refl))).
Defined.

(** ** Hexadecimal strings *)

(** C4: [fromHEX('#ff340031')] is the colour (255, 52, 0, 0.192), and
    [toHEX] of that colour is ['#ff340031'] again. *)
Theorem fromHEX_toHEX_ff340031 :
  fromHEX "#ff340031" = rgb 255 52 0 (F64.of_Q (192 # 1000)) /\
  toHEX (fromHEX "#ff340031") = "#ff340031".
Proof. split; vm_compute; reflexivity. Qed.

(** Each integer channel is written on two hexadecimal digits that
    [parseInt] reads back. *)
Definition hex_channel_ok (v : Z) : bool :=
  match decToHex (F64.of_Z v) with
  | String c1 (String c2 EmptyString) =>
      PrimFloat.Leibniz.eqb
        (parseInt (String c1 (String c2 EmptyString)) 16) (F64.of_Z v)
  | _ => false
  end.

Lemma hex_channels_checked : all_below 256 hex_channel_ok = true.
Proof. vm_compute. reflexivity. Qed.

Lemma hex_channel (v : Z) :
  (0 <= v <= 255)%Z ->
  exists c1 c2,
    decToHex (F64.of_Z v) = String c1 (String c2 EmptyString) /\
    parseInt (String c1 (String c2 EmptyString)) 16 = F64.of_Z v.
Proof.
  intros Hv.
  assert (Hok : hex_channel_ok v = true)
    by (apply (all_below_spec 256 _ hex_channels_checked); simpl; lia).
  unfold hex_channel_ok in Hok.
  destruct (decToHex (F64.of_Z v)) as [|c1 [|c2 [|c3 rest]]]; try discriminate.
  exists c1, c2. split; [reflexivity | apply feq_true, Hok].
Qed.

Lemma slices_of_hex6 (c1 c2 c3 c4 c5 c6 : ascii) :
  let s6 := String c1 (String c2 (String c3 (String c4 (String c5
              (String c6 EmptyString))))) in
  slice (String "#" s6) 1 3 = String c1 (String c2 EmptyString) /\
  slice (String "#" s6) 3 5 = String c3 (String c4 EmptyString) /\
  slice (String "#" s6) 5 7 = String c5 (String c6 EmptyString) /\
  len (String "#" s6) = 7%Z.
Proof. repeat split. Qed.

(** C3: for integer channels between 0 and 255 and the default alpha 1,
    [fromHEX (toHEX (Color (r, g, b)))] is [Color (r, g, b)] again, channel
    by channel, alpha included. *)
Theorem fromHEX_toHEX (x y z : Z) :
  (0 <= x <= 255)%Z -> (0 <= y <= 255)%Z -> (0 <= z <= 255)%Z ->
  fromHEX (toHEX (new_UColor (F64.of_Z x) (F64.of_Z y) (F64.of_Z z) None))
  = new_UColor (F64.of_Z x) (F64.of_Z y) (F64.of_Z z) None.
Proof.
  intros Hx Hy Hz.
  destruct (hex_channel x Hx) as (c1 & c2 & Sx & Px).
  destruct (hex_channel y Hy) as (c3 & c4 & Sy & Py).
  destruct (hex_channel z Hz) as (c5 & c6 & Sz & Pz).
  unfold toHEX, new_UColor; cbn [r g b a].
  change (PrimFloat.eqb (lit 1) 1) with true; cbv iota.
  rewrite Sx, Sy, Sz. cbn [String.append].
  destruct (slices_of_hex6 c1 c2 c3 c4 c5 c6) as (S1 & S2 & S3 & L).
  unfold fromHEX. rewrite S1, S2, S3, L, Px, Py, Pz. reflexivity.
Qed.

Lemma fromHEX_toHEX_witness :
  fromHEX (toHEX (new_UColor (F64.of_Z 12) (F64.of_Z 34) (F64.of_Z 27) None))
  = new_UColor (F64.of_Z 12) (F64.of_Z 34) (F64.of_Z 27) None.
Proof. apply (fromHEX_toHEX 12 34 27); lia. Defined.

(** ** The triadic palette *)

(** C6: the array [getPalette()] returns holds the instance [this] itself,
    then two new instances obtained from the HSL form of [this] by hue
    rotations of 120 and 240 degrees ([%] 360) at the same saturation and
    lightness, converted back by [hslToRgb]; the three have the alpha of
    [this]. *)
Theorem getPalette_structure (st : Store.store) (this : Store.ref) (c : Color) :
  Store.read st this = Some c ->
  let hsl := rgbToHsl c in
  let c2 := hslToRgb (F64.frem (hsl.(h) + 120) 360) hsl.(s) hsl.(l) in
  let c3 := hslToRgb (F64.frem (hsl.(h) + 240) 360) hsl.(s) hsl.(l) in
  let second := mkUColor c2.(R) c2.(G) c2.(B) c.(a) in
  let third := mkUColor c3.(R) c3.(G) c3.(B) c.(a) in
  getPalette c = [c; second; third] /\
  exists st' p2 p3,
    Store.getPalette st this = Some (st', [this; p2; p3]) /\
    Store.read st' this = Some c /\
    Store.read st' p2 = Some second /\
    Store.read st' p3 = Some third /\
    this <> p2 /\ this <> p3 /\ p2 <> p3 /\
    (forall p, (p < List.length st)%nat -> Store.read st' p = Store.read st p).
Proof.
  intros Hread hsl c2 c3 second third.
  split; [reflexivity|].
  assert (Hlt : (this < List.length st)%nat)
    by (apply nth_error_Some; unfold Store.read in Hread; congruence).
  exists ((st ++ [second]) ++ [third])%list, (List.length st),
         (List.length (st ++ [second])%list).
  unfold Store.getPalette. rewrite Hread.
  change (getPalette c) with [c; second; third]. cbn [Store.alloc].
  rewrite length_app; cbn [List.length].
  unfold Store.read in *.
  repeat split; try lia.
  - rewrite !nth_error_app1; [exact Hread | lia | rewrite length_app; lia].
  - rewrite nth_error_app1 by (rewrite length_app; cbn; lia).
    rewrite nth_error_app2 by lia. rewrite Nat.sub_diag. reflexivity.
  - rewrite nth_error_app2 by (rewrite length_app; cbn; lia).
    rewrite length_app; cbn [List.length].
    rewrite Nat.sub_diag. reflexivity.
  - intros p Hp.
    rewrite !nth_error_app1; [reflexivity | lia | rewrite length_app; lia].
Qed.

Lemma getPalette_structure_witness :
  getPalette (rgb 12 34 27 1) =
    [rgb 12 34 27 1; rgb 27 12 34 1; rgb 34 27 12 1].
Proof.
  destruct (getPalette_structure [rgb 12 34 27 1] 0 (rgb 12 34 27 1) eq_refl)
    as [Hval _].
  rewrite Hval. vm_compute. reflexivity.
Defined.

(** ** Grey colours *)

Definition gray_ok (v : Z) : bool :=
  let hsl := rgbToHsl (rgb v v v 1) in
  let out := hslToRgb hsl.(h) hsl.(s) hsl.(l) in
  let k := F64.round (hsl.(l) * 255)%float in
  PrimFloat.Leibniz.eqb hsl.(h) 0 && PrimFloat.Leibniz.eqb hsl.(s) 0 &&
  PrimFloat.Leibniz.eqb out.(R) k && PrimFloat.Leibniz.eqb out.(G) k &&
  PrimFloat.Leibniz.eqb out.(B) k && PrimFloat.Leibniz.eqb k (F64.of_Z v).

Lemma grays_checked : all_below 256 gray_ok = true.
Proof. vm_compute. reflexivity. Qed.

(** C8: for a grey colour with integer channels r = g = b = v between 0 and
    255, [rgbToHsl] gives h = 0 and s = 0, and [hslToRgb] applied to that
    result gives r = g = b = round (l * 255), which is v. *)
Theorem gray_fixed_point (v : Z) (alpha : float) :
  (0 <= v <= 255)%Z ->
  let hsl := rgbToHsl (rgb v v v alpha) in
  let out := hslToRgb hsl.(h) hsl.(s) hsl.(l) in
  hsl.(h) = 0%float /\ hsl.(s) = 0%float /\
  out.(R) = F64.round (hsl.(l) * 255)%float /\
  out.(G) = F64.round (hsl.(l) * 255)%float /\
  out.(B) = F64.round (hsl.(l) * 255)%float /\
  F64.round (hsl.(l) * 255)%float = F64.of_Z v.
Proof.
  intros Hv hsl out.
  assert (Hok : gray_ok v = true)
    by (apply (all_below_spec 256 _ grays_checked); simpl; lia).
  change (rgbToHsl (rgb v v v 1)) with hsl in Hok.
  unfold gray_ok in Hok. fold hsl in Hok. fold out in Hok.
  repeat (apply andb_prop in Hok; destruct Hok as [Hok ?]).
  repeat split; apply feq_true; assumption.
Qed.

Lemma gray_fixed_point_witness :
  (rgbToHsl (rgb 128 128 128 1)).(s) = 0%float.
Proof.
  refine (proj1 (proj2 (gray_fixed_point 128 1 _))). lia.
Defined.

(** ** Binary64 facts

    The comparisons, [Math.round] and [%] of the program, related to the
    exact value of a float through the specification of the primitive
    operations. *)

Local Open Scope Z_scope.

(** The exact value of a finite float, in units of [2^-1074]. *)
Definition scaled (x : spec_float) : Z :=
  match x with
  | S754_finite s m e => cond_Zopp s (Zpos m * 2 ^ (e + 1074))
  | _ => 0
  end.

Definition finite (x : spec_float) : bool :=
  match x with
  | S754_finite _ _ _ | S754_zero _ => true
  | _ => false
  end.

Lemma digits2_pos_bounds (m : positive) :
  2 ^ (Zpos (digits2_pos m) - 1) <= Zpos m < 2 ^ Zpos (digits2_pos m).
Proof.
  induction m as [m IH|m IH|]; cbn [digits2_pos].
  - rewrite Pos2Z.inj_succ.
    replace (Z.succ (Zpos (digits2_pos m)) - 1)
      with (Z.succ (Zpos (digits2_pos m) - 1)) by lia.
    rewrite !Z.pow_succ_r by lia. lia.
  - rewrite Pos2Z.inj_succ.
    replace (Z.succ (Zpos (digits2_pos m)) - 1)
      with (Z.succ (Zpos (digits2_pos m) - 1)) by lia.
    rewrite !Z.pow_succ_r by lia. lia.
  - cbn. lia.
Qed.

(** What validity says of a finite float: the exponent range, and a
    mantissa of 53 bits unless the exponent is the smallest one. *)
Lemma valid_finite (s : bool) (m : positive) (e : Z) :
  valid_binary (S754_finite s m e) = true ->
  -1074 <= e <= 971 /\ Zpos m < 2 ^ 53 /\ (-1074 < e -> 2 ^ 52 <= Zpos m).
Proof.
  cbn [SpecFloat.valid_binary].
  unfold bounded, canonical_mantissa, fexp, SpecFloat.emin, emax, prec.
  intros H. apply andb_prop in H. destruct H as [Hc He].
  apply Z.eqb_eq in Hc. apply Z.leb_le in He.
  pose proof (digits2_pos_bounds m) as [Hlo Hhi].
  set (d := Zpos (digits2_pos m)) in *.
  assert (Hd : d <= 53) by lia.
  split; [lia|]. split.
  - apply Z.lt_le_trans with (1 := Hhi). apply Z.pow_le_mono_r; lia.
  - intros Hn. assert (Hd53 : d = 53) by lia. rewrite Hd53 in Hlo. exact Hlo.
Qed.

Lemma pow2_pos (k : Z) : 0 <= k -> 0 < 2 ^ k.
Proof. intros. apply Z.pow_pos_nonneg; lia. Qed.

Lemma scaled_pos (m : positive) (e : Z) :
  -1074 <= e -> 0 < Zpos m * 2 ^ (e + 1074).
Proof. intros. apply Z.mul_pos_pos; [lia | apply pow2_pos; lia]. Qed.

(** Mantissas of valid floats with increasing exponents are ordered. *)
Lemma scaled_lt_exp (m1 m2 : positive) (e1 e2 : Z) :
  valid_binary (S754_finite false m1 e1) = true ->
  valid_binary (S754_finite false m2 e2) = true ->
  e1 < e2 ->
  Zpos m1 * 2 ^ (e1 + 1074) < Zpos m2 * 2 ^ (e2 + 1074).
Proof.
  intros V1 V2 He.
  apply valid_finite in V1. destruct V1 as (E1 & M1 & _).
  apply valid_finite in V2. destruct V2 as (E2 & _ & M2).
  specialize (M2 ltac:(lia)).
  replace (e2 + 1074) with ((e1 + 1074) + 1 + (e2 - e1 - 1)) by lia.
  rewrite (Z.pow_add_r 2 ((e1 + 1074) + 1) (e2 - e1 - 1)) by lia.
  rewrite (Z.pow_add_r 2 (e1 + 1074) 1) by lia.
  pose proof (pow2_pos (e1 + 1074) ltac:(lia)) as P1.
  pose proof (pow2_pos (e2 - e1 - 1) ltac:(lia)) as P2.
  change (2 ^ 1) with 2. change (2 ^ 53) with (2 * 2 ^ 52) in M1.
  set (A := 2 ^ (e1 + 1074)) in *. set (C := 2 ^ (e2 - e1 - 1)) in *.
  set (H52 := 2 ^ 52) in *. assert (0 < H52) by (apply pow2_pos; lia).
  clearbody A C H52.
  assert (S1 : Zpos m1 * A < 2 * H52 * A) by nia.
  assert (S2 : 2 * H52 * A <= Zpos m2 * (A * 2)) by nia.
  assert (S3 : Zpos m2 * (A * 2) <= Zpos m2 * (A * 2 * C)) by nia.
  lia.
Qed.

Lemma Zcompare_mul_r (a b p : Z) : 0 < p -> (a * p ?= b * p) = (a ?= b).
Proof.
  intros Hp. destruct (Z.compare_spec a b) as [->|Hlt|Hgt].
  - apply Z.compare_refl.
  - apply Z.compare_lt_iff. nia.
  - apply Z.compare_gt_iff. nia.
Qed.

Lemma valid_sign (s s' : bool) (m : positive) (e : Z) :
  valid_binary (S754_finite s m e) = valid_binary (S754_finite s' m e).
Proof. reflexivity. Qed.

(** Comparison of two finite floats is comparison of their values. *)
Lemma SFcompare_scaled (x y : spec_float) :
  valid_binary x = true -> valid_binary y = true ->
  finite x = true -> finite y = true ->
  SFcompare x y = Some (scaled x ?= scaled y).
Proof.
  intros Vx Vy Fx Fy.
  destruct x as [sx| |  |sx mx ex]; try discriminate;
  destruct y as [sy| |  |sy my ey]; try discriminate; cbn [SFcompare scaled].
  - reflexivity.
  - pose proof (valid_finite _ _ _ Vy) as (E & _).
    pose proof (scaled_pos my ey ltac:(lia)).
    destruct sy; cbn [cond_Zopp]; f_equal; symmetry.
    + apply Z.compare_gt_iff. lia.
    + apply Z.compare_lt_iff. lia.
  - pose proof (valid_finite _ _ _ Vx) as (E & _).
    pose proof (scaled_pos mx ex ltac:(lia)).
    destruct sx; cbn [cond_Zopp]; f_equal; symmetry.
    + apply Z.compare_lt_iff. lia.
    + apply Z.compare_gt_iff. lia.
  - pose proof (valid_finite _ _ _ Vx) as (Ex & _).
    pose proof (valid_finite _ _ _ Vy) as (Ey & _).
    pose proof (scaled_pos mx ex ltac:(lia)) as Px.
    pose proof (scaled_pos my ey ltac:(lia)) as Py.
    rewrite (valid_sign sx false) in Vx. rewrite (valid_sign sy false) in Vy.
    destruct sx, sy; cbn [cond_Zopp]; f_equal.
    + destruct (Z.compare_spec ex ey) as [He|He|He].
      * subst ey. change (Pos.compare_cont Eq mx my) with (Pos.compare mx my).
        rewrite <- Pos.compare_antisym. rewrite Z.compare_opp.
        rewrite Pos2Z.inj_compare. symmetry.
        apply Zcompare_mul_r. apply pow2_pos; lia.
      * symmetry. apply Z.compare_gt_iff.
        pose proof (scaled_lt_exp _ _ _ _ Vx Vy He). lia.
      * symmetry. apply Z.compare_lt_iff.
        pose proof (scaled_lt_exp _ _ _ _ Vy Vx He). lia.
    + symmetry. apply Z.compare_lt_iff. lia.
    + symmetry. apply Z.compare_gt_iff. lia.
    + destruct (Z.compare_spec ex ey) as [He|He|He].
      * subst ey. change (Pos.compare_cont Eq mx my) with (Pos.compare mx my).
        rewrite Pos2Z.inj_compare. symmetry.
        apply Zcompare_mul_r. apply pow2_pos; lia.
      * symmetry. apply Z.compare_lt_iff.
        exact (scaled_lt_exp _ _ _ _ Vx Vy He).
      * symmetry. apply Z.compare_gt_iff.
        pose proof (scaled_lt_exp _ _ _ _ Vy Vx He). lia.
Qed.

(** *** From the primitive comparisons to values *)

Definition fscaled (x : float) : Z := scaled (Prim2SF x).
Definition ffinite (x : float) : bool := finite (Prim2SF x).

Lemma ltb_scaled (x y : float) :
  ffinite x = true -> ffinite y = true ->
  PrimFloat.ltb x y = (fscaled x <? fscaled y).
Proof.
  intros Fx Fy. rewrite FloatAxioms.ltb_spec. unfold SFltb.
  rewrite (SFcompare_scaled _ _ (Prim2SF_valid x) (Prim2SF_valid y) Fx Fy).
  unfold fscaled, Z.ltb.
  destruct (scaled (Prim2SF x) ?= scaled (Prim2SF y)); reflexivity.
Qed.

Lemma leb_scaled (x y : float) :
  ffinite x = true -> ffinite y = true ->
  PrimFloat.leb x y = (fscaled x <=? fscaled y).
Proof.
  intros Fx Fy. rewrite FloatAxioms.leb_spec. unfold SFleb.
  rewrite (SFcompare_scaled _ _ (Prim2SF_valid x) (Prim2SF_valid y) Fx Fy).
  unfold fscaled, Z.leb.
  destruct (scaled (Prim2SF x) ?= scaled (Prim2SF y)); reflexivity.
Qed.

Lemma eqb_scaled (x y : float) :
  ffinite x = true -> ffinite y = true ->
  PrimFloat.eqb x y = (fscaled x =? fscaled y).
Proof.
  intros Fx Fy. rewrite FloatAxioms.eqb_spec. unfold SFeqb.
  rewrite (SFcompare_scaled _ _ (Prim2SF_valid x) (Prim2SF_valid y) Fx Fy).
  unfold fscaled.
  destruct (Z.compare_spec (scaled (Prim2SF x)) (scaled (Prim2SF y)));
    symmetry; [apply Z.eqb_eq; assumption | apply Z.eqb_neq; lia ..].
Qed.

(** A float between two finite floats is finite. *)
Lemma between_finite (lo hi x : float) :
  ffinite lo = true -> ffinite hi = true ->
  PrimFloat.leb lo x = true -> PrimFloat.ltb x hi = true ->
  ffinite x = true /\ fscaled lo <= fscaled x < fscaled hi.
Proof.
  intros Flo Fhi Hlo Hhi.
  assert (Fx : ffinite x = true).
  { rewrite FloatAxioms.leb_spec in Hlo. rewrite FloatAxioms.ltb_spec in Hhi.
    unfold ffinite in *. unfold SFleb in Hlo. unfold SFltb in Hhi.
    destruct (Prim2SF x) as [sx|[|]| |sx mx ex]; try reflexivity.
    - destruct (Prim2SF lo); try discriminate; cbn in Hlo; discriminate.
    - destruct (Prim2SF hi); try discriminate; cbn in Hhi; discriminate.
    - destruct (Prim2SF lo); try discriminate; cbn in Hlo; discriminate. }
  split; [exact Fx|].
  rewrite (leb_scaled _ _ Flo Fx) in Hlo. rewrite (ltb_scaled _ _ Fx Fhi) in Hhi.
  apply Z.leb_le in Hlo. apply Z.ltb_lt in Hhi. lia.
Qed.

Lemma ltb_leb (x y : float) :
  PrimFloat.ltb x y = true -> PrimFloat.leb x y = true.
Proof.
  rewrite FloatAxioms.leb_spec, FloatAxioms.ltb_spec. unfold SFleb, SFltb.
  destruct (SFcompare (Prim2SF x) (Prim2SF y)) as [[| |]|];
    try discriminate; reflexivity.
Qed.

(** A float that is a small multiple of [2^-53], as that multiple. *)
Definition small (x : float) : option Z :=
  match Prim2SF x with
  | S754_zero _ => Some 0
  | S754_finite s m e =>
      if (-53 <=? e) && (e <=? 0) then Some (cond_Zopp s (Zpos m * 2 ^ (e + 53)))
      else None
  | _ => None
  end.

Lemma small_scaled (x : float) (a : Z) :
  small x = Some a -> ffinite x = true /\ fscaled x = a * 2 ^ 1021.
Proof.
  unfold small, ffinite, fscaled.
  destruct (Prim2SF x) as [s| | |s m e]; try discriminate.
  - intros [= <-]. split; reflexivity.
  - destruct ((-53 <=? e) && (e <=? 0)) eqn:Hb; [|discriminate].
    apply andb_prop in Hb. destruct Hb as [H1 H2].
    apply Z.leb_le in H1. apply Z.leb_le in H2.
    intros Ha.
    assert (Ea : a = cond_Zopp s (Z.mul (Zpos m) (2 ^ (e + 53))))
      by congruence.
    clear Ha. subst a.
    split; [reflexivity|]. unfold scaled.
    replace (e + 1074) with ((e + 53) + 1021) by lia.
    rewrite Z.pow_add_r by lia.
    generalize (2 ^ (e + 53)) (2 ^ 1021). intros A C.
    destruct s; unfold cond_Zopp; ring.
Qed.

(** Sixteen [2^-53]-units of [small] make one unit of [2^-49], and so on:
    the unit of the ranges below is a half, [2^52] small units. *)
Lemma small_halves (x : float) (a : Z) :
  small x = Some (a * 2 ^ 52) ->
  ffinite x = true /\ fscaled x = a * 2 ^ 1073.
Proof.
  intros H. destruct (small_scaled _ _ H) as [F S]. split; [exact F|].
  rewrite S. change 1073 with (52 + 1021). rewrite Z.pow_add_r by lia.
  generalize (2 ^ 52) (2 ^ 1021). intros A C. ring.
Qed.

(** *** [Math.round] from a range *)

Lemma round_quotient (m B n : Z) :
  0 < B -> (2 * n - 1) * B <= m < (2 * n + 1) * B ->
  (2 * m + 2 * B) / (4 * B) = n.
Proof.
  intros HB Hm. symmetry.
  apply Z.div_unique with (2 * m + 2 * B - n * (4 * B)); nia.
Qed.

(** A positive float whose value lies in [n - 1/2, n + 1/2) rounds to the
    integer [n]. *)
Lemma SFround_value (m : positive) (e n : Z) :
  valid_binary (S754_finite false m e) = true ->
  0 <= n < 2 ^ 52 ->
  (2 * n - 1) * 2 ^ 1073 <= Zpos m * 2 ^ (e + 1074) < (2 * n + 1) * 2 ^ 1073 ->
  F64.SFround (S754_finite false m e)
  = if n =? 0 then S754_zero false else binary_normalize prec emax n 0 false.
Proof.
  intros V Hn Hr.
  pose proof (valid_finite _ _ _ V) as (He & Hm & Hnorm).
  pose proof (pow2_pos 1073 ltac:(lia)) as HW.
  pose proof (pow2_pos (e + 1074) ltac:(lia)) as HP.
  assert (Hneg : e < 0).
  { destruct (Z.ltb_spec e 0) as [|Hge]; [assumption|exfalso].
    specialize (Hnorm ltac:(lia)).
    assert (HA : 2 ^ 1074 <= 2 ^ (e + 1074)) by (apply Z.pow_le_mono_r; lia).
    change 1074 with (Z.succ 1073) in HA at 1.
    rewrite Z.pow_succ_r in HA by lia.
    set (W := 2 ^ 1073) in *. set (A := 2 ^ (e + 1074)) in *.
    set (H52 := 2 ^ 52) in *. clearbody W A H52.
    assert (S1 : H52 * (2 * W) <= Zpos m * A) by nia.
    assert (S2 : (2 * n + 1) * W <= (2 * H52) * W) by nia.
    nia. }
  unfold F64.SFround.
  destruct (Z.leb_spec 0 e) as [|_]; [lia|].
  cbn [cond_Zopp].
  set (k := - e) in *.
  assert (Hk : 1 <= k <= 1074) by lia.
  pose proof (pow2_pos (k - 1) ltac:(lia)) as HB.
  assert (E1 : 2 ^ k = 2 * 2 ^ (k - 1)).
  { replace k with (Z.succ (k - 1)) at 1 by lia. apply Z.pow_succ_r. lia. }
  assert (E2 : 2 ^ (1 - e) = 4 * 2 ^ (k - 1)).
  { replace (1 - e) with (Z.succ (Z.succ (k - 1))) by lia.
    rewrite !Z.pow_succ_r by lia. ring. }
  assert (E3 : 2 ^ 1073 = 2 ^ (k - 1) * 2 ^ (e + 1074)).
  { rewrite <- Z.pow_add_r by lia. f_equal. lia. }
  rewrite E3 in Hr. rewrite E1, E2.
  set (Bk := 2 ^ (k - 1)) in *. set (A := 2 ^ (e + 1074)) in *.
  clearbody Bk A.
  assert (Hm1 : (2 * n - 1) * Bk <= Zpos m < (2 * n + 1) * Bk) by nia.
  rewrite (round_quotient _ _ n HB Hm1). reflexivity.
Qed.

(** A positive float below 255.5 rounds to an integer from 0 to 255. *)
Lemma SFround_byte (m : positive) (e : Z) :
  valid_binary (S754_finite false m e) = true ->
  Zpos m * 2 ^ (e + 1074) < 511 * 2 ^ 1073 ->
  exists n, 0 <= n <= 255 /\
    F64.SFround (S754_finite false m e)
    = if n =? 0 then S754_zero false else binary_normalize prec emax n 0 false.
Proof.
  intros V Hr.
  pose proof (valid_finite _ _ _ V) as (He & _).
  pose proof (pow2_pos 1073 ltac:(lia)) as HW.
  pose proof (scaled_pos m e ltac:(lia)) as Hpos.
  set (W := 2 ^ 1073) in *. set (v := Zpos m * 2 ^ (e + 1074)) in *.
  set (n := (v + W) / (2 * W)).
  assert (Hdiv : 2 * W * n <= v + W < 2 * W * (n + 1)).
  { unfold n. pose proof (Z.mul_div_le (v + W) (2 * W) ltac:(lia)).
    pose proof (Z.mul_succ_div_gt (v + W) (2 * W) ltac:(lia)). lia. }
  assert (Hn : 0 <= n <= 255).
  { unfold n. split; [apply Z.div_pos; lia|].
    assert ((v + W) / (2 * W) < 256); [|lia].
    apply Z.div_lt_upper_bound; lia. }
  exists n. split; [exact Hn|].
  apply SFround_value; [exact V | change (2 ^ 52) with 4503599627370496; lia|].
  fold W. fold v. clearbody W v n. nia.
Qed.

Lemma SFround_is_zero (x : spec_float) :
  match x with S754_zero true => False | _ => True end ->
  valid_binary x = true -> finite x = true ->
  0 <= scaled x < 2 ^ 1073 ->
  F64.SFround x = S754_zero false.
Proof.
  intros Hs V F Hr.
  destruct x as [[|]| | |s m e]; try discriminate; try contradiction;
    [reflexivity|].
  pose proof (valid_finite _ _ _ V) as (He & _).
  pose proof (scaled_pos m e ltac:(lia)) as Hpos.
  pose proof (pow2_pos 1073 ltac:(lia)) as HW.
  unfold scaled in Hr.
  destruct s; unfold cond_Zopp in Hr; [lia|].
  apply (SFround_value m e 0 V); [change (2 ^ 52) with 4503599627370496; lia|].
  set (W := 2 ^ 1073) in *. clearbody W. lia.
Qed.

(** *** The remainder of a hue rotation *)

Lemma iter_xO (d m : positive) : Zpos (Pos.iter xO m d) = Zpos m * 2 ^ Zpos d.
Proof.
  induction d as [|d IH] using Pos.peano_ind.
  - cbn. rewrite Pos2Z.inj_xO. lia.
  - rewrite Pos.iter_succ, Pos2Z.inj_succ, Z.pow_succ_r by lia.
    rewrite Pos2Z.inj_xO, IH. lia.
Qed.

Lemma shl_align_fst (m : positive) (e e' : Z) :
  e' <= e -> Zpos (fst (shl_align m e e')) = Zpos m * 2 ^ (e - e').
Proof.
  intros He. unfold shl_align.
  destruct (e' - e) as [|d|d] eqn:E; cbn [fst].
  - replace (e - e') with 0 by lia. lia.
  - lia.
  - rewrite iter_xO. f_equal. f_equal. lia.
Qed.

(** The remainder of [x] by [y] when [y <= x < 2 y] is the difference, and
    the subtraction of the two floats computes it. *)
Lemma SFrem_sub (mx my : positive) (ex ey : Z) :
  valid_binary (S754_finite false mx ex) = true ->
  valid_binary (S754_finite false my ey) = true ->
  scaled (S754_finite false my ey) <= scaled (S754_finite false mx ex)
    < 2 * scaled (S754_finite false my ey) ->
  F64.SFrem (S754_finite false mx ex) (S754_finite false my ey)
  = SFsub prec emax (S754_finite false mx ex) (S754_finite false my ey).
Proof.
  intros Vx Vy Hr.
  unfold F64.SFrem, SFsub. cbn [SFabs].
  unfold SFltb. rewrite (SFcompare_scaled _ _ Vx Vy eq_refl eq_refl).
  cbn [cond_Zopp scaled] in *.
  pose proof (valid_finite _ _ _ Vx) as (Ex & _).
  pose proof (valid_finite _ _ _ Vy) as (Ey & _).
  set (ez := Z.min ex ey).
  rewrite (shl_align_fst mx ex ez), (shl_align_fst my ey ez) by (unfold ez; lia).
  set (ax := Zpos mx * 2 ^ (ex - ez)). set (ay := Zpos my * 2 ^ (ey - ez)).
  assert (P : 0 < 2 ^ (ez + 1074)) by (apply pow2_pos; unfold ez; lia).
  assert (Sx : Zpos mx * 2 ^ (ex + 1074) = ax * 2 ^ (ez + 1074)).
  { unfold ax. rewrite <- Z.mul_assoc, <- Z.pow_add_r by (unfold ez; lia).
    do 2 f_equal. lia. }
  assert (Sy : Zpos my * 2 ^ (ey + 1074) = ay * 2 ^ (ez + 1074)).
  { unfold ay. rewrite <- Z.mul_assoc, <- Z.pow_add_r by (unfold ez; lia).
    do 2 f_equal. lia. }
  rewrite Sx, Sy in *.
  assert (Hay : 0 < ay).
  { unfold ay. apply Z.mul_pos_pos; [lia | apply pow2_pos; unfold ez; lia]. }
  set (A := 2 ^ (ez + 1074)) in *. clearbody A ax ay.
  assert (Ha : ay <= ax < 2 * ay) by nia.
  assert (Hk : Z.rem ax ay = ax - ay).
  { rewrite Z.rem_mod_nonneg by lia. symmetry. apply Z.mod_unique with 1; lia. }
  rewrite Hk.
  destruct (Z.compare_spec (ax * A) (ay * A)) as [Heq|Hlt|Hgt]; [|lia|].
  - assert (ax = ay) by nia. replace (ax - ay) with 0 by lia. reflexivity.
  - destruct (Z.eqb_spec (ax - ay) 0); [nia|]. reflexivity.
Qed.

Local Open Scope float_scope.

Lemma Prim2SF_360 : Prim2SF 360 = S754_finite false 6333186975989760 (-44).
Proof. reflexivity. Qed.

(** The hue rotations of the class stay below two turns, where [%] is one
    comparison and at most one subtraction. *)
Lemma frem_360 (x : float) :
  (0 <=? x) = true -> (x <? 720) = true ->
  F64.frem x 360 = if x <? 360 then x else x - 360.
Proof.
  intros H0 H720.
  destruct (small_scaled 0 0 eq_refl) as [F0 S0].
  destruct (small_scaled 360 (360 * 2 ^ 53) eq_refl) as [F360 S360].
  destruct (small_scaled 720 (2 * (360 * 2 ^ 53)) eq_refl) as [F720 S720].
  destruct (between_finite 0 720 x F0 F720 H0 H720) as [Fx Hs].
  pose proof (Prim2SF_valid x) as Vx.
  pose proof (pow2_pos 1021 ltac:(lia)) as HU.
  set (U := (2 ^ 1021)%Z) in *. clearbody U.
  rewrite S0 in Hs.
  destruct (x <? 360) eqn:H360.
  - unfold F64.frem. rewrite FloatAxioms.ltb_spec in H360.
    rewrite Prim2SF_360 in *.
    unfold ffinite, fscaled in Fx, Hs.
    destruct (Prim2SF x) as [sx| | |sx mx ex] eqn:Ex; try discriminate.
    + cbn [F64.SFrem]. rewrite <- Ex. apply SF2Prim_Prim2SF.
    + pose proof (valid_finite _ _ _ Vx) as (Ee & _).
      pose proof (scaled_pos mx ex ltac:(lia)).
      destruct sx; [unfold scaled, cond_Zopp in Hs; lia|].
      cbn [F64.SFrem SFabs]. rewrite H360. rewrite <- Ex.
      apply SF2Prim_Prim2SF.
  - assert (H360' : (360 <=? x) = true).
    { rewrite (leb_scaled 360 x F360 Fx).
      rewrite (ltb_scaled x 360 Fx F360) in H360.
      apply Z.leb_le. apply Z.ltb_ge in H360. exact H360. }
    destruct (between_finite 360 720 x F360 F720 H360' H720) as [_ Hs'].
    assert (Hr : (fscaled 360 <= fscaled x < 2 * fscaled 360)%Z)
      by (rewrite S720, S360 in *; lia).
    assert (P360 : (0 < fscaled 360)%Z) by (rewrite S360; lia).
    unfold F64.frem.
    rewrite <- (SF2Prim_Prim2SF (x - 360)), FloatAxioms.sub_spec.
    f_equal.
    unfold fscaled in Hr, P360. unfold ffinite in Fx.
    rewrite Prim2SF_360 in *.
    destruct (Prim2SF x) as [sx| | |sx mx ex] eqn:Ex; try discriminate.
    + unfold scaled at 2 3 in Hr. lia.
    + pose proof (valid_finite _ _ _ Vx) as (Ee & _).
      pose proof (scaled_pos mx ex ltac:(lia)).
      destruct sx.
      * unfold scaled at 2 3 in Hr. unfold cond_Zopp in Hr. lia.
      * apply SFrem_sub; [exact Vx | reflexivity | exact Hr].
Qed.

(** *** A channel value recognised by its range *)

Definition nonneg (w : float) : bool :=
  (0 <? w) || PrimFloat.Leibniz.eqb w 0.

Lemma nonneg_cases (w hi : float) :
  ffinite hi = true -> nonneg w = true -> (w <? hi) = true ->
  w = 0 \/ ffinite w = true /\ (0 < fscaled w < fscaled hi)%Z.
Proof.
  intros Fhi. unfold nonneg.
  destruct (PrimFloat.Leibniz.eqb w 0) eqn:Ez.
  - intros _ _. left. apply feq_true. exact Ez.
  - rewrite orb_false_r. intros Hpos Hhi. right.
    destruct (small_scaled 0 0 eq_refl) as [F0 S0].
    destruct (between_finite 0 hi w F0 Fhi (ltb_leb _ _ Hpos) Hhi)
      as [Fw [_ Hs]].
    split; [exact Fw|]. split; [|exact Hs].
    rewrite (ltb_scaled 0 w F0 Fw), S0 in Hpos.
    apply Z.ltb_lt in Hpos. exact Hpos.
Qed.

(** The integers from 0 to 255 as floats, with the two bounds of the range
    that rounds to each. *)
Definition byte_ok (n : Z) : bool :=
  let E := F64.of_Z n in
  match small (E - 0.5), small (E + 0.5) with
  | Some lo, Some hi =>
      (lo =? (2 * n - 1) * 2 ^ 52)%Z && (hi =? (2 * n + 1) * 2 ^ 52)%Z &&
      PrimFloat.Leibniz.eqb
        (SF2Prim (if (n =? 0)%Z then S754_zero false
                  else binary_normalize prec emax n 0 false)) E &&
      Bool.eqb (E =? 0) (n =? 0)%Z
  | _, _ => false
  end.

Lemma bytes_checked : all_below 256 byte_ok = true.
Proof. vm_compute. reflexivity. Qed.

Lemma byte_facts (n : Z) :
  (0 <= n <= 255)%Z ->
  let E := F64.of_Z n in
  small (E - 0.5) = Some ((2 * n - 1) * 2 ^ 52)%Z /\
  small (E + 0.5) = Some ((2 * n + 1) * 2 ^ 52)%Z /\
  SF2Prim (if (n =? 0)%Z then S754_zero false
           else binary_normalize prec emax n 0 false) = E /\
  (E =? 0) = (n =? 0)%Z.
Proof.
  intros Hn E.
  assert (Hok : byte_ok n = true)
    by (apply (all_below_spec 256 _ bytes_checked); simpl; lia).
  unfold byte_ok in Hok. fold E in Hok.
  destruct (small (E - 0.5)) as [lo|]; [|discriminate].
  destruct (small (E + 0.5)) as [hi|]; [|discriminate].
  repeat (apply andb_prop in Hok; destruct Hok as [Hok ?]).
  apply Z.eqb_eq in Hok. apply Z.eqb_eq in H1. subst lo hi.
  repeat split.
  - apply feq_true; assumption.
  - apply Bool.eqb_prop; assumption.
Qed.

(** [Math.round] of a value in [0, 255.5) is an integer from 0 to 255. *)
Lemma round_byte (w : float) :
  nonneg w = true -> (w <? 255.5) = true ->
  exists n, (0 <= n <= 255)%Z /\
    F64.round w = F64.of_Z n.
Proof.
  intros Hpos Hhi.
  destruct (small_halves 255.5 511 eq_refl) as [F255 S255].
  destruct (nonneg_cases w 255.5 F255 Hpos Hhi) as [->|[Fw Hs]].
  - exists 0%Z. split; [lia|reflexivity].
  - rewrite S255 in Hs.
    pose proof (Prim2SF_valid w) as Vw.
    unfold F64.round, ffinite, fscaled in *.
    destruct (Prim2SF w) as [sw| | |sw mw ew]; try discriminate.
    + unfold scaled in Hs. lia.
    + pose proof (valid_finite _ _ _ Vw) as (Ee & _).
      pose proof (scaled_pos mw ew ltac:(lia)).
      destruct sw; [unfold scaled, cond_Zopp in Hs; lia|].
      destruct (SFround_byte mw ew Vw (proj2 Hs)) as (n & Hn & Hr).
      exists n. split; [exact Hn|]. rewrite Hr.
      apply (byte_facts n Hn).
Qed.

Lemma round_by_range (n : Z) (w : float) :
  (1 <= n <= 255)%Z ->
  (F64.of_Z n - 0.5 <=? w) = true -> (w <? F64.of_Z n + 0.5) = true ->
  F64.round w = F64.of_Z n.
Proof.
  intros Hn Hlo Hhi.
  destruct (byte_facts n ltac:(lia)) as (S1 & S2 & Hval & _).
  apply small_halves in S1. destruct S1 as [F1 S1].
  apply small_halves in S2. destruct S2 as [F2 S2].
  destruct (between_finite _ _ w F1 F2 Hlo Hhi) as [Fw Hs].
  rewrite S1, S2 in Hs.
  pose proof (Prim2SF_valid w) as Vw.
  pose proof (pow2_pos 1073 ltac:(lia)) as HW.
  unfold F64.round. rewrite <- Hval. f_equal.
  unfold ffinite, fscaled in *.
  destruct (Prim2SF w) as [sw| | |sw mw ew]; try discriminate.
  - exfalso. unfold scaled in Hs. set (W := (2 ^ 1073)%Z) in *. clearbody W. nia.
  - pose proof (valid_finite _ _ _ Vw) as (Ee & _).
    pose proof (scaled_pos mw ew ltac:(lia)).
    destruct sw.
    + exfalso. unfold scaled, cond_Zopp in Hs.
      set (W := (2 ^ 1073)%Z) in *. clearbody W. nia.
    + apply SFround_value;
        [exact Vw | change (2 ^ 52)%Z with 4503599627370496%Z; lia | exact Hs].
Qed.

Lemma round_to_zero (w : float) :
  nonneg w = true -> (w <? 0.5) = true -> F64.round w = 0.
Proof.
  intros Hpos Hhi.
  destruct (small_halves 0.5 1 eq_refl) as [F5 S5].
  destruct (nonneg_cases w 0.5 F5 Hpos Hhi) as [->|[Fw Hs]]; [reflexivity|].
  rewrite S5 in Hs.
  pose proof (Prim2SF_valid w) as Vw.
  unfold F64.round. change 0 with (SF2Prim (S754_zero false)). f_equal.
  unfold ffinite, fscaled in *.
  apply SFround_is_zero; try assumption.
  - destruct (Prim2SF w) as [[|]| | |]; try exact I. unfold scaled in Hs. lia.
  - lia.
Qed.

(** The check made on a channel: [v * 255] lies in the range that rounds to
    the expected value [E]. *)
Definition chan (E v : float) : bool :=
  let w := v * 255 in
  if E =? 0 then nonneg w && (w <? 0.5)
  else (E - 0.5 <=? w) && (w <? E + 0.5).

Lemma chan_sound (n : Z) (v : float) :
  (0 <= n <= 255)%Z -> chan (F64.of_Z n) v = true ->
  F64.round (v * 255) = F64.of_Z n.
Proof.
  intros Hn Hc. unfold chan in Hc.
  destruct (byte_facts n Hn) as (_ & _ & _ & Hz).
  rewrite Hz in Hc.
  destruct (Z.eqb_spec n 0) as [->|Hne].
  - apply andb_prop in Hc. destruct Hc as [H1 H2].
    apply round_to_zero; assumption.
  - apply andb_prop in Hc. destruct Hc as [H1 H2].
    apply round_by_range; [lia | assumption | assumption].
Qed.
(** *** Loops over the integers, as floats *)

(** The integer [k] reached from 0 by additions of 1. *)
Definition fnat (k : nat) : float := Nat.iter k (fun y => y + 1) 0.

(** [f] holds at [n] consecutive integers from [c], whose float is [x]. *)
Fixpoint floop (n c : nat) (x : float) (f : nat -> float -> bool) : bool :=
  match n with
  | O => true
  | S n' => f c x && floop n' (S c) (x + 1) f
  end.

Lemma floop_spec (n c : nat) (f : nat -> float -> bool) :
  floop n c (fnat c) f = true ->
  forall k, (c <= k < c + n)%nat -> f k (fnat k) = true.
Proof.
  revert c. induction n as [|n IH]; intros c Hl k Hk; [lia|].
  cbn [floop] in Hl. apply andb_prop in Hl. destruct Hl as [Hc Hrest].
  destruct (Nat.eq_dec k c) as [->|Hne]; [exact Hc|].
  apply (IH (S c)); [exact Hrest | lia].
Qed.

Definition fnat_ok (k : Z) : bool :=
  PrimFloat.Leibniz.eqb (fnat (Z.to_nat k)) (F64.of_Z k).

Lemma fnat_checked : all_below 256 fnat_ok = true.
Proof. vm_compute. reflexivity. Qed.

Lemma fnat_of_Z (k : Z) : (0 <= k <= 255)%Z -> fnat (Z.to_nat k) = F64.of_Z k.
Proof.
  intros Hk. apply feq_true.
  apply (all_below_spec 256 _ fnat_checked). simpl; lia.
Qed.

(** *** Grey levels *)

(** The luma of every colour with channels from 0 to 255 lies in
    [0, 255.5): checked on the 256^3 colours, one loop per channel. *)
Definition c299 : float := Eval vm_compute in F64.of_Q (299 # 1000).
Definition c587 : float := Eval vm_compute in F64.of_Q (587 # 1000).
Definition c114 : float := Eval vm_compute in F64.of_Q (114 # 1000).

Definition luma (r g b : float) : float := r * c299 + g * c587 + b * c114.

Definition luma_b (rg : float) (_ : nat) (b : float) : bool :=
  let w := rg + b * c114 in
  if 0 <? w then w <? 255.5 else PrimFloat.Leibniz.eqb w 0.

Definition luma_g (r : float) (_ : nat) (g : float) : bool :=
  floop 256 0 (fnat 0) (luma_b (r + g * c587)).

Definition luma_r (_ : nat) (r : float) : bool :=
  floop 256 0 (fnat 0) (luma_g (r * c299)).

Lemma luma_checked : floop 256 0 (fnat 0) luma_r = true.
Proof. vm_cast_no_check (eq_refl true). Qed.

Lemma luma_range (x y z : Z) :
  (0 <= x <= 255)%Z -> (0 <= y <= 255)%Z -> (0 <= z <= 255)%Z ->
  let w := luma (F64.of_Z x) (F64.of_Z y) (F64.of_Z z) in
  nonneg w = true /\ (w <? 255.5) = true.
Proof.
  intros Hx Hy Hz w.
  pose proof (floop_spec 256 0 luma_r luma_checked (Z.to_nat x) ltac:(lia)) as Hr.
  pose proof (floop_spec 256 0 _ Hr (Z.to_nat y) ltac:(lia)) as Hg.
  pose proof (floop_spec 256 0 _ Hg (Z.to_nat z) ltac:(lia)) as Hb.
  unfold luma_b in Hb. rewrite !fnat_of_Z in Hb by assumption.
  fold (luma (F64.of_Z x) (F64.of_Z y) (F64.of_Z z)) in Hb. fold w in Hb.
  cbv zeta in Hb. unfold nonneg.
  destruct (0 <? w) eqn:E0.
  - split; [reflexivity | exact Hb].
  - apply feq_true in Hb. rewrite Hb. split; reflexivity.
Qed.

Definition gray_fixed (n : Z) : bool :=
  let k := F64.of_Z n in PrimFloat.Leibniz.eqb (F64.round (luma k k k)) k.

Lemma gray_fixed_checked : all_below 256 gray_fixed = true.
Proof. vm_compute. reflexivity. Qed.

(** C7, as the program has it: with the three channels at 2^53 the grey
    level is 9007199254740991, and the grey level of that grey is
    9007199254740990: the second application changes the colour. *)
Lemma etGrayScale_not_idempotent :
  let c := rgb (2 ^ 53) (2 ^ 53) (2 ^ 53) 1 in
  etGrayScale c
    = rgb 9007199254740991 9007199254740991 9007199254740991 1 /\
  etGrayScale (etGrayScale c)
    = rgb 9007199254740990 9007199254740990 9007199254740990 1 /\
  etGrayScale (etGrayScale c) <> etGrayScale c.
Proof.
  split; [vm_compute; reflexivity|]. split; [vm_compute; reflexivity|].
  intros H.
  apply (f_equal (fun k : Color => PrimFloat.eqb k.(r) 9007199254740991)) in H.
  vm_compute in H. discriminate H.
Qed.

(** C7, amended: for every colour with integer channels from 0 to 255 (and
    any alpha), one application of the grayscale derivation returns the
    colour with r = g = b = round (0.299 r + 0.587 g + 0.114 b) and the same
    alpha, and a second application returns the same colour. *)
Theorem etGrayScale_idempotent (x y z : Z) (alpha : float) :
  (0 <= x <= 255)%Z -> (0 <= y <= 255)%Z -> (0 <= z <= 255)%Z ->
  let c := rgb x y z alpha in
  let gray :=
    F64.round (c.(r) * F64.of_Q (299 # 1000) + c.(g) * F64.of_Q (587 # 1000)
               + c.(b) * F64.of_Q (114 # 1000)) in
  etGrayScale c = mkUColor gray gray gray alpha /\
  etGrayScale (etGrayScale c) = etGrayScale c.
Proof.
  intros Hx Hy Hz c gray.
  assert (E1 : etGrayScale c = mkUColor gray gray gray alpha) by reflexivity.
  split; [exact E1|]. rewrite E1.
  destruct (luma_range x y z Hx Hy Hz) as [Hpos Hhi].
  destruct (round_byte _ Hpos Hhi) as (n & Hn & Hround).
  change (F64.round (luma (F64.of_Z x) (F64.of_Z y) (F64.of_Z z)))
    with gray in Hround.
  rewrite Hround.
  assert (Hfix : F64.round (luma (F64.of_Z n) (F64.of_Z n) (F64.of_Z n))
                 = F64.of_Z n).
  { apply feq_true. apply (all_below_spec 256 _ gray_fixed_checked).
    simpl; lia. }
  change (etGrayScale (mkUColor (F64.of_Z n) (F64.of_Z n) (F64.of_Z n) alpha))
    with (let k := F64.round (luma (F64.of_Z n) (F64.of_Z n) (F64.of_Z n)) in
          mkUColor k k k alpha).
  cbv zeta. rewrite Hfix. reflexivity.
Qed.

Lemma etGrayScale_idempotent_witness :
  etGrayScale (etGrayScale (rgb 12 34 27 1)) = etGrayScale (rgb 12 34 27 1).
Proof.
  refine (proj2 (etGrayScale_idempotent 12 34 27 1 _ _ _)); lia.

Defined.

(** ** The contrast colour

    [getContrastColor] on binary64 numbers, for the 256^3 colours with
    integer channels from 0 to 255. *)

(** *** The conversions with their constants evaluated *)

Definition c16 : float := Eval vm_compute in 1 / 6.
Definition c12 : float := Eval vm_compute in 1 / 2.
Definition c23 : float := Eval vm_compute in 2 / 3.
Definition c13 : float := Eval vm_compute in 1 / 3.

Definition hue_f (p q t : float) : float :=
  let t := if t <? 0 then t + 1 else t in
  let t := if 1 <? t then t - 1 else t in
  if t <? c16 then p + (q - p) * 6 * t
  else if t <? c12 then q
  else if t <? c23 then p + (q - p) * (c23 - t) * 6
  else p.

Lemma hueToRgb_f (p q t : float) : hueToRgb p q t = hue_f p q t.
Proof. reflexivity. Qed.

Definition hslToRgb_f (h s l : float) : RGB float :=
  if s =? 0 then
    mkRGB (F64.round (l * 255)) (F64.round (l * 255)) (F64.round (l * 255))
  else
    let q := if l <? 0.5 then l * (1 + s) else l + s - l * s in
    let p := 2 * l - q in
    mkRGB (F64.round (hue_f p q (h / 360 + c13) * 255))
          (F64.round (hue_f p q (h / 360) * 255))
          (F64.round (hue_f p q (h / 360 - c13) * 255)).

Lemma hslToRgb_f_eq (h s l : float) : hslToRgb h s l = hslToRgb_f h s l.
Proof. reflexivity. Qed.

(** The hue before its scaling by 60, from the three channels over 255. *)
Definition hue_of (max r g b d : float) : float :=
  if max =? r then (g - b) / d + (if g <? b then 6 else 0)
  else if max =? g then (b - r) / d + 2
  else if max =? b then (r - g) / d + 4
  else nan.

Definition sat_of (max min : float) : float :=
  let l := (max + min) / 2 in
  let d := max - min in
  if 0.5 <? l then d / (2 - max - min) else d / (max + min).

Definition rgbToHsl_f (r g b : float) : HSL float :=
  let r := r / 255 in
  let g := g / 255 in
  let b := b / 255 in
  let max := F64.max2 (F64.max2 r g) b in
  let min := F64.min2 (F64.min2 r g) b in
  if max =? min then mkHSL 0 0 ((max + min) / 2)
  else mkHSL (hue_of max r g b (max - min) * 60) (sat_of max min)
             ((max + min) / 2).

Lemma rgbToHsl_f_eq (c : Color) : rgbToHsl c = rgbToHsl_f c.(r) c.(g) c.(b).
Proof. reflexivity. Qed.

Definition contrast_f (r g b : float) : RGB float :=
  let hsl := rgbToHsl_f r g b in
  hslToRgb_f (F64.frem (hsl.(h) + 180) 360) hsl.(s) hsl.(l).

Lemma getContrastColor_f (c : Color) :
  getContrastColor c
  = let o := contrast_f c.(r) c.(g) c.(b) in mkUColor o.(R) o.(G) o.(B) c.(a).
Proof.
  unfold getContrastColor, contrast_f.
  rewrite hslToRgb_f_eq, rgbToHsl_f_eq.
  set (hsl := rgbToHsl_f _ _ _). clearbody hsl. reflexivity.
Qed.

(** *** Increasing tables of floats *)

Section Increasing.

Variable f : nat -> float.
Variable n : nat.
Hypothesis f_fin : forall k, (k <= n)%nat -> ffinite (f k) = true.
Hypothesis f_step : forall k, (k < n)%nat -> (f k <? f (S k)) = true.

Lemma increasing_scaled (a b : nat) :
  (a < b <= n)%nat -> (fscaled (f a) < fscaled (f b))%Z.
Proof.
  intros [Hab Hb]. induction b as [|b IH]; [lia|].
  assert (Hs : (fscaled (f b) < fscaled (f (S b)))%Z).
  { apply Z.ltb_lt. rewrite <- ltb_scaled by (apply f_fin; lia).
    apply f_step. lia. }
  destruct (Nat.eq_dec a b) as [->|Hne]; [exact Hs|].
  specialize (IH ltac:(lia) ltac:(lia)). lia.
Qed.

Lemma increasing_ltb (a b : nat) :
  (a <= n)%nat -> (b <= n)%nat -> (f a <? f b) = (a <? b)%nat.
Proof.
  intros Ha Hb. rewrite ltb_scaled by (apply f_fin; assumption).
  destruct (Nat.ltb_spec a b) as [Hlt|Hge].
  - apply Z.ltb_lt. apply increasing_scaled. lia.
  - apply Z.ltb_ge. destruct (Nat.eq_dec a b) as [->|Hne]; [lia|].
    apply Z.lt_le_incl. apply increasing_scaled. lia.
Qed.

Lemma increasing_eqb (a b : nat) :
  (a <= n)%nat -> (b <= n)%nat -> (f a =? f b) = (a =? b)%nat.
Proof.
  intros Ha Hb. rewrite eqb_scaled by (apply f_fin; assumption).
  destruct (Nat.eqb_spec a b) as [->|Hne].
  - apply Z.eqb_refl.
  - apply Z.eqb_neq.
    destruct (Nat.lt_ge_cases a b) as [Hlt|Hge].
    + pose proof (increasing_scaled a b ltac:(lia)). lia.
    + pose proof (increasing_scaled b a ltac:(lia)). lia.
Qed.

Lemma increasing_max2 (a b : nat) :
  (a <= n)%nat -> (b <= n)%nat -> F64.max2 (f a) (f b) = f (Nat.max a b).
Proof.
  intros Ha Hb. unfold F64.max2, F64.is_NaN.
  rewrite !increasing_eqb, !Nat.eqb_refl, !increasing_ltb by assumption.
  cbn [negb].
  destruct (Nat.ltb_spec a b) as [Hlt|Hge].
  - rewrite Nat.max_r by lia. reflexivity.
  - destruct (Nat.ltb_spec b a) as [Hlt|Hge'].
    + rewrite Nat.max_l by lia. reflexivity.
    + assert (a = b) by lia. subst b. rewrite Nat.max_id.
      destruct (F64.is_neg_zero (f a)); reflexivity.
Qed.

Lemma increasing_min2 (a b : nat) :
  (a <= n)%nat -> (b <= n)%nat -> F64.min2 (f a) (f b) = f (Nat.min a b).
Proof.
  intros Ha Hb. unfold F64.min2, F64.is_NaN.
  rewrite !increasing_eqb, !Nat.eqb_refl, !increasing_ltb by assumption.
  cbn [negb].
  destruct (Nat.ltb_spec a b) as [Hlt|Hge].
  - rewrite Nat.min_l by lia. reflexivity.
  - destruct (Nat.ltb_spec b a) as [Hlt|Hge'].
    + rewrite Nat.min_r by lia. reflexivity.
    + assert (a = b) by lia. subst b. rewrite Nat.min_id.
      destruct (F64.is_neg_zero (f a)); reflexivity.
Qed.

End Increasing.

(** The integers from 0 to 255 and their quotients by 255 are increasing. *)
Definition unit_of (k : nat) : float := fnat k / 255.

Definition step_ok (y y' : float) : bool :=
  (0 <=? y) && (y <? y') && (0 <=? y') && (y' <? 256).

Definition steps_ok (_ : nat) (x : float) : bool :=
  step_ok x (x + 1) && step_ok (x / 255) ((x + 1) / 255) &&
  PrimFloat.Leibniz.eqb (x + 1 - 1) x.

Lemma steps_checked : floop 255 0 (fnat 0) steps_ok = true.
Proof. vm_compute. reflexivity. Qed.

Lemma steps_facts (k : nat) :
  (k < 255)%nat ->
  step_ok (fnat k) (fnat (S k)) = true /\
  step_ok (unit_of k) (unit_of (S k)) = true /\
  fnat (S k) - 1 = fnat k.
Proof.
  intros Hk.
  pose proof (floop_spec 255 0 steps_ok steps_checked k ltac:(lia)) as H.
  unfold steps_ok in H.
  apply andb_prop in H. destruct H as [H H3].
  apply andb_prop in H. destruct H as [H1 H2].
  repeat split; [exact H1 | exact H2 | apply feq_true; exact H3].
Qed.

Lemma step_ok_fin (y y' : float) :
  step_ok y y' = true ->
  ffinite y = true /\ ffinite y' = true /\ (y <? y') = true.
Proof.
  unfold step_ok. intros H.
  apply andb_prop in H. destruct H as [H H4].
  apply andb_prop in H. destruct H as [H H3].
  apply andb_prop in H. destruct H as [H1 H2].
  destruct (small_scaled 0 0 eq_refl) as [F0 _].
  destruct (small_scaled 256 (256 * 2 ^ 53) eq_refl) as [F256 _].
  destruct (between_finite 0 256 y' F0 F256 H3 H4) as [Fy' _].
  destruct (between_finite 0 y' y F0 Fy' H1 H2) as [Fy _].
  repeat split; assumption.
Qed.

Lemma fnat_fin (k : nat) : (k <= 255)%nat -> ffinite (fnat k) = true.
Proof.
  intros Hk. destruct k as [|k].
  - apply (step_ok_fin _ _ (proj1 (steps_facts 0 ltac:(lia)))).
  - apply (step_ok_fin _ _ (proj1 (steps_facts k ltac:(lia)))).
Qed.

Lemma fnat_step (k : nat) : (k < 255)%nat -> (fnat k <? fnat (S k)) = true.
Proof.
  intros Hk. apply (step_ok_fin _ _ (proj1 (steps_facts k Hk))).
Qed.

Lemma unit_fin (k : nat) : (k <= 255)%nat -> ffinite (unit_of k) = true.
Proof.
  intros Hk. destruct k as [|k].
  - apply (step_ok_fin _ _ (proj1 (proj2 (steps_facts 0 ltac:(lia))))).
  - apply (step_ok_fin _ _ (proj1 (proj2 (steps_facts k ltac:(lia))))).
Qed.

Lemma unit_step (k : nat) :
  (k < 255)%nat -> (unit_of k <? unit_of (S k)) = true.
Proof.
  intros Hk. apply (step_ok_fin _ _ (proj1 (proj2 (steps_facts k Hk)))).
Qed.

Lemma fnat_eq (a b : nat) :
  (a <= 255)%nat -> (b <= 255)%nat -> (fnat a =? fnat b) = true -> a = b.
Proof.
  intros Ha Hb H.
  rewrite (increasing_eqb fnat 255 fnat_fin fnat_step) in H by assumption.
  apply Nat.eqb_eq. exact H.
Qed.

Lemma fnat_Z (k : nat) : (k <= 255)%nat -> fnat k = F64.of_Z (Z.of_nat k).
Proof.
  intros Hk. rewrite <- (fnat_of_Z (Z.of_nat k)) by lia.
  rewrite Nat2Z.id. reflexivity.
Qed.

(** A loop over [n] integers upwards from [x] and downwards from [e]. *)
Fixpoint xloop (n : nat) (x e : float) (f : float -> float -> bool) : bool :=
  match n with
  | O => true
  | S n' => f x e && xloop n' (x + 1) (e - 1) f
  end.

Lemma xloop_spec (n c d : nat) (f : float -> float -> bool) :
  xloop n (fnat c) (fnat d) f = true -> (n <= S d <= 256)%nat ->
  forall k, (k < n)%nat -> f (fnat (c + k)) (fnat (d - k)) = true.
Proof.
  revert c d. induction n as [|n IH]; intros c d Hl Hd k Hk; [lia|].
  cbn [xloop] in Hl. apply andb_prop in Hl. destruct Hl as [H0 Hrest].
  destruct k as [|k].
  - rewrite Nat.add_0_r, Nat.sub_0_r. exact H0.
  - destruct d as [|d]; [lia|].
    rewrite (proj2 (proj2 (steps_facts d ltac:(lia)))) in Hrest.
    change (fnat c + 1) with (fnat (S c)) in Hrest.
    replace (c + S k)%nat with (S c + k)%nat by lia.
    change (S d - S k)%nat with (d - k)%nat.
    apply IH; [exact Hrest | lia | lia].
Qed.

(** *** The check of one colour

    For a colour with largest channel [M], smallest channel [m] < [M] and
    remaining channel [x], the contrast colour is expected to have the
    channels [M + m - c] for each channel [c].  [p] and [q] are the two
    levels of [hslToRgb]; they depend on [M] and [m] only. *)

Definition chk (p q qp M m E t : float) : bool :=
  let t := if t <? 0 then t + 1 else t in
  let t := if 1 <? t then t - 1 else t in
  if t <? c16 then chan E (p + qp * 6 * t)
  else if t <? c12 then E =? M
  else if t <? c23 then chan E (p + qp * (c23 - t) * 6)
  else E =? m.

(** One order of the channels: [hn] is the hue before its scaling by 60,
    [Er], [Eg], [Eb] the expected channels. *)
Definition arr (p q qp M m hn Er Eg Eb : float) : bool :=
  let h1 := hn * 60 + 180 in
  (0 <=? h1) && (h1 <? 720) &&
  (let hh := (if h1 <? 360 then h1 else h1 - 360) / 360 in
   chk p q qp M m Er (hh + c13) && chk p q qp M m Eg hh &&
   chk p q qp M m Eb (hh - c13)).

(** The six orders of ([M], [m], [x]), with [E] = [M + m - x]. *)
Definition mid (p q qp M m Mn mn d x E : float) : bool :=
  let Xn := x / 255 in
  let u := (Xn - mn) / d in
  let v := (mn - Xn) / d in
  arr p q qp M m (u + 0) m E M &&
  arr p q qp M m (v + (if mn <? Xn then 6 else 0)) m M E &&
  arr p q qp M m (v + 2) E m M &&
  arr p q qp M m (u + 2) M m E &&
  arr p q qp M m (v + 4) M E m &&
  arr p q qp M m (u + 4) E M m.

Definition pair (cm : nat) (m : float) (cM : nat) (M : float) : bool :=
  let Mn := M / 255 in
  let mn := m / 255 in
  let l := (Mn + mn) / 2 in
  let s := sat_of Mn mn in
  if s =? 0 then false
  else
    let q := if l <? 0.5 then l * (1 + s) else l + s - l * s in
    let p := 2 * l - q in
    chan m p && chan M q &&
    xloop (S (cM - cm)) m M (mid p q (q - p) M m Mn mn (Mn - mn)).

Definition pairs_from (cm : nat) (m : float) : bool :=
  floop (255 - cm) (S cm) (m + 1) (pair cm m).

Lemma contrast_checked : floop 255 0 (fnat 0) pairs_from = true.
Proof. vm_cast_no_check (eq_refl true). Qed.

(** *** Soundness of the check *)

Lemma chan_fnat (e : nat) (v : float) :
  (e <= 255)%nat -> chan (fnat e) v = true -> F64.round (v * 255) = fnat e.
Proof.
  intros He Hc. rewrite fnat_Z in * by assumption.
  apply chan_sound; [lia | exact Hc].
Qed.

Lemma eqb_fnat (a b : nat) :
  (a <= 255)%nat -> (b <= 255)%nat -> (fnat a =? fnat b) = true ->
  fnat b = fnat a.
Proof. intros Ha Hb H. rewrite (fnat_eq a b Ha Hb H). reflexivity. Qed.

Lemma chk_sound (p q : float) (cM cm e : nat) (t : float) :
  (cM <= 255)%nat -> (cm <= 255)%nat -> (e <= 255)%nat ->
  F64.round (q * 255) = fnat cM -> F64.round (p * 255) = fnat cm ->
  chk p q (q - p) (fnat cM) (fnat cm) (fnat e) t = true ->
  F64.round (hue_f p q t * 255) = fnat e.
Proof.
  intros HM Hm He Hq Hp. unfold chk, hue_f.
  set (t1 := if t <? 0 then t + 1 else t).
  set (t2 := if 1 <? t1 then t1 - 1 else t1).
  cbv zeta.
  destruct (t2 <? c16); [apply chan_fnat; exact He|].
  destruct (t2 <? c12);
    [intros H; rewrite Hq; apply eqb_fnat; assumption|].
  destruct (t2 <? c23); [apply chan_fnat; exact He|].
  intros H. rewrite Hp. apply eqb_fnat; assumption.
Qed.

(** The colour [hslToRgb] returns for a saturation that is not 0. *)
Definition hsl_levels (h p q : float) : RGB float :=
  mkRGB (F64.round (hue_f p q (h / 360 + c13) * 255))
        (F64.round (hue_f p q (h / 360) * 255))
        (F64.round (hue_f p q (h / 360 - c13) * 255)).

Lemma arr_sound (p q hn : float) (cM cm er eg eb : nat) :
  (cM <= 255)%nat -> (cm <= 255)%nat ->
  (er <= 255)%nat -> (eg <= 255)%nat -> (eb <= 255)%nat ->
  F64.round (q * 255) = fnat cM -> F64.round (p * 255) = fnat cm ->
  arr p q (q - p) (fnat cM) (fnat cm) hn (fnat er) (fnat eg) (fnat eb) = true ->
  hsl_levels (F64.frem (hn * 60 + 180) 360) p q
  = mkRGB (fnat er) (fnat eg) (fnat eb).
Proof.
  intros HM Hm Her Heg Heb Hq Hp. unfold arr.
  set (h1 := hn * 60 + 180). cbv zeta. intros H.
  apply andb_prop in H. destruct H as [H Hc].
  apply andb_prop in H. destruct H as [H0 H720].
  rewrite (frem_360 h1 H0 H720).
  set (hh := if h1 <? 360 then h1 else h1 - 360) in *.
  apply andb_prop in Hc. destruct Hc as [Hc Hb].
  apply andb_prop in Hc. destruct Hc as [Hr Hg].
  unfold hsl_levels.
  rewrite (chk_sound p q cM cm er _ HM Hm Her Hq Hp Hr).
  rewrite (chk_sound p q cM cm eg _ HM Hm Heg Hq Hp Hg).
  rewrite (chk_sound p q cM cm eb _ HM Hm Heb Hq Hp Hb).
  reflexivity.
Qed.

(** The contrast colour from the largest and smallest channels over 255 and
    the hue before its scaling. *)
Definition contrast_of (Mn mn hn : float) : RGB float :=
  hslToRgb_f (F64.frem (hn * 60 + 180) 360) (sat_of Mn mn) ((Mn + mn) / 2).

Definition expect (cM cm : nat) (hn : float) (er eg eb : nat) : Prop :=
  contrast_of (unit_of cM) (unit_of cm) hn = mkRGB (fnat er) (fnat eg) (fnat eb).

Lemma pair_sound (cm cM x : nat) :
  (cm <= x <= cM)%nat -> (cM <= 255)%nat ->
  pair cm (fnat cm) cM (fnat cM) = true ->
  let e := (cM + cm - x)%nat in
  let Mn := unit_of cM in
  let mn := unit_of cm in
  let Xn := unit_of x in
  let d := Mn - mn in
  let u := (Xn - mn) / d in
  let v := (mn - Xn) / d in
  expect cM cm (u + 0) cm e cM /\
  expect cM cm (v + (if mn <? Xn then 6 else 0)) cm cM e /\
  expect cM cm (v + 2) e cm cM /\
  expect cM cm (u + 2) cM cm e /\
  expect cM cm (v + 4) cM e cm /\
  expect cM cm (u + 4) e cM cm.
Proof.
  intros Hx HM Hpair e Mn mn Xn d u v.
  unfold pair in Hpair. fold (unit_of cM) in Hpair. fold (unit_of cm) in Hpair.
  fold Mn in Hpair. fold mn in Hpair. cbv zeta in Hpair.
  unfold expect, contrast_of, hslToRgb_f. fold Mn. fold mn.
  destruct (sat_of Mn mn =? 0); [discriminate|].
  set (l := (Mn + mn) / 2) in *. set (s := sat_of Mn mn) in *.
  set (q := if l <? 0.5 then l * (1 + s) else l + s - l * s) in *.
  cbv zeta. set (p := 2 * l - q) in *.
  apply andb_prop in Hpair. destruct Hpair as [Hpq Hloop].
  apply andb_prop in Hpq. destruct Hpq as [Hp Hq].
  apply chan_fnat in Hp; [|lia]. apply chan_fnat in Hq; [|lia].
  pose proof (xloop_spec _ cm cM _ Hloop ltac:(lia) (x - cm)%nat ltac:(lia))
    as Hmid.
  replace (cm + (x - cm))%nat with x in Hmid by lia.
  replace (cM - (x - cm))%nat with e in Hmid by (unfold e; lia).
  unfold mid in Hmid. fold (unit_of x) in Hmid. fold Xn in Hmid.
  fold d in Hmid. fold u in Hmid. fold v in Hmid. cbv zeta in Hmid.
  assert (He : (e <= 255)%nat) by (unfold e; lia).
  assert (Hm : (cm <= 255)%nat) by lia.
  do 5 (apply andb_prop in Hmid; destruct Hmid as [Hmid ?]).
  repeat split;
    (apply (arr_sound p q _ cM cm); [lia | lia | lia | lia | lia | exact Hq | exact Hp | assumption]).
Qed.

Definition unit_ltb := increasing_ltb unit_of 255 unit_fin unit_step.
Definition unit_eqb := increasing_eqb unit_of 255 unit_fin unit_step.
Definition unit_max2 := increasing_max2 unit_of 255 unit_fin unit_step.
Definition unit_min2 := increasing_min2 unit_of 255 unit_fin unit_step.

Lemma contrast_f_chromatic (a b c : nat) :
  (a <= 255)%nat -> (b <= 255)%nat -> (c <= 255)%nat ->
  let cM := Nat.max (Nat.max a b) c in
  let cm := Nat.min (Nat.min a b) c in
  (cm < cM)%nat ->
  contrast_f (fnat a) (fnat b) (fnat c)
  = contrast_of (unit_of cM) (unit_of cm)
      (hue_of (unit_of cM) (unit_of a) (unit_of b) (unit_of c)
              (unit_of cM - unit_of cm)).
Proof.
  intros Ha Hb Hc cM cm Hlt.
  unfold contrast_f, rgbToHsl_f.
  fold (unit_of a). fold (unit_of b). fold (unit_of c). cbv zeta.
  rewrite (unit_max2 a b Ha Hb), (unit_min2 a b Ha Hb).
  rewrite (unit_max2 _ c), (unit_min2 _ c) by lia.
  fold cM. fold cm.
  rewrite (unit_eqb cM cm) by (unfold cM, cm; lia).
  destruct (Nat.eqb_spec cM cm) as [E|_]; [lia|].
  reflexivity.
Qed.

Definition gray_contrast (_ : nat) (x : float) : bool :=
  let o := contrast_f x x x in
  PrimFloat.Leibniz.eqb o.(R) x && PrimFloat.Leibniz.eqb o.(G) x &&
  PrimFloat.Leibniz.eqb o.(B) x.

Lemma gray_contrast_checked : floop 256 0 (fnat 0) gray_contrast = true.
Proof. vm_compute. reflexivity. Qed.

Lemma contrast_f_gray (a : nat) :
  (a <= 255)%nat ->
  contrast_f (fnat a) (fnat a) (fnat a) = mkRGB (fnat a) (fnat a) (fnat a).
Proof.
  intros Ha.
  pose proof (floop_spec 256 0 _ gray_contrast_checked a ltac:(lia)) as H.
  unfold gray_contrast in H. cbv zeta in H.
  destruct (contrast_f (fnat a) (fnat a) (fnat a)) as [x y z].
  cbn [R G B] in H.
  apply andb_prop in H. destruct H as [H Hz].
  apply andb_prop in H. destruct H as [Hx Hy].
  apply feq_true in Hx, Hy, Hz. congruence.
Qed.

(** The contrast colour of a colour with integer channels from 0 to 255 has
    the channels [max + min - c]. *)
Lemma contrast_f_complement (a b c : nat) :
  (a <= 255)%nat -> (b <= 255)%nat -> (c <= 255)%nat ->
  let cM := Nat.max (Nat.max a b) c in
  let cm := Nat.min (Nat.min a b) c in
  contrast_f (fnat a) (fnat b) (fnat c)
  = mkRGB (fnat (cM + cm - a)) (fnat (cM + cm - b)) (fnat (cM + cm - c)).
Proof.
  intros Ha Hb Hc cM cm.
  destruct (Nat.eq_dec cM cm) as [E|Hne].
  - assert (a = b /\ b = c) as [-> ->] by (unfold cM, cm in E; lia).
    unfold cM, cm. rewrite !Nat.max_id, !Nat.min_id.
    replace (c + c - c)%nat with c by lia.
    apply contrast_f_gray. exact Hc.
  - assert (Hlt : (cm < cM)%nat) by (unfold cM, cm in *; lia).
    rewrite (contrast_f_chromatic a b c Ha Hb Hc Hlt). fold cM. fold cm.
    assert (HM : (cM <= 255)%nat) by (unfold cM; lia).
    assert (Hchk : pair cm (fnat cm) cM (fnat cM) = true).
    { pose proof (floop_spec 255 0 _ contrast_checked cm ltac:(lia)) as H.
      unfold pairs_from in H.
      apply (floop_spec (255 - cm) (S cm) _ H cM). lia. }
    unfold hue_of.
    rewrite !unit_eqb, !unit_ltb by lia.
    destruct (Nat.eqb_spec cM a) as [Ea|Na].
    + (* the red channel is the largest *)
      destruct (Nat.eq_dec c cm) as [Ec|Nc].
      * destruct (pair_sound cm cM b ltac:(unfold cM, cm; lia) HM Hchk)
          as (H1 & _).
        unfold expect in H1.
        destruct (Nat.ltb_spec b c) as [Hbc|_]; [unfold cm in Ec; lia|].
        rewrite Ec. rewrite H1. f_equal; f_equal; lia.
      * assert (Eb : b = cm) by (unfold cM, cm in *; lia).
        destruct (pair_sound cm cM c ltac:(unfold cM, cm; lia) HM Hchk)
          as (_ & H2 & _).
        unfold expect in H2. rewrite unit_ltb in H2 by lia.
        rewrite Eb. rewrite H2. f_equal; f_equal; lia.
    + destruct (Nat.eqb_spec cM b) as [Eb|Nb].
      * (* the green channel is the largest *)
        destruct (Nat.eq_dec c cm) as [Ec|Nc].
        -- destruct (pair_sound cm cM a ltac:(unfold cM, cm; lia) HM Hchk)
             as (_ & _ & H3 & _).
           unfold expect in H3.
           rewrite Ec. rewrite H3. f_equal; f_equal; lia.
        -- assert (Ea : a = cm) by (unfold cM, cm in *; lia).
           destruct (pair_sound cm cM c ltac:(unfold cM, cm; lia) HM Hchk)
             as (_ & _ & _ & H4 & _).
           unfold expect in H4.
           rewrite Ea. rewrite H4. f_equal; f_equal; lia.
      * (* the blue channel is the largest *)
        assert (Ec : cM = c) by (unfold cM, cm in *; lia).
        destruct (Nat.eqb_spec cM c) as [_|Nc]; [|lia].
        destruct (Nat.eq_dec a cm) as [Ea|Na'].
        -- destruct (pair_sound cm cM b ltac:(unfold cM, cm; lia) HM Hchk)
             as (_ & _ & _ & _ & H5 & _).
           unfold expect in H5.
           rewrite Ea. rewrite H5. f_equal; f_equal; lia.
        -- assert (Eb : b = cm) by (unfold cM, cm in *; lia).
           destruct (pair_sound cm cM a ltac:(unfold cM, cm; lia) HM Hchk)
             as (_ & _ & _ & _ & _ & H6).
           unfold expect in H6.
           rewrite Eb. rewrite H6. f_equal; f_equal; lia.
Qed.

Lemma rgb_fnat (x y z : Z) (alpha : float) :
  (0 <= x <= 255)%Z -> (0 <= y <= 255)%Z -> (0 <= z <= 255)%Z ->
  rgb x y z alpha
  = mkUColor (fnat (Z.to_nat x)) (fnat (Z.to_nat y)) (fnat (Z.to_nat z)) alpha.
Proof.
  intros Hx Hy Hz. unfold rgb. rewrite !fnat_of_Z by assumption. reflexivity.
Qed.

Lemma max_min_bounds (x y z : Z) :
  (0 <= x <= 255)%Z -> (0 <= y <= 255)%Z -> (0 <= z <= 255)%Z ->
  let M := Z.max (Z.max x y) z in
  let m := Z.min (Z.min x y) z in
  (0 <= m)%Z /\ (M <= 255)%Z /\
  (m <= x <= M)%Z /\ (m <= y <= M)%Z /\ (m <= z <= M)%Z.
Proof. intros Hx Hy Hz M m. unfold M, m. lia. Qed.

Lemma max_min_attained (x y z : Z) :
  let M := Z.max (Z.max x y) z in
  let m := Z.min (Z.min x y) z in
  (x = M \/ y = M \/ z = M) /\ (x = m \/ y = m \/ z = m).
Proof. intros M m. unfold M, m. lia. Qed.

Lemma contrast_complement (x y z : Z) (alpha : float) :
  (0 <= x <= 255)%Z -> (0 <= y <= 255)%Z -> (0 <= z <= 255)%Z ->
  let M := Z.max (Z.max x y) z in
  let m := Z.min (Z.min x y) z in
  getContrastColor (rgb x y z alpha)
  = rgb (M + m - x) (M + m - y) (M + m - z) alpha.
Proof.
  intros Hx Hy Hz M m.
  destruct (max_min_bounds x y z Hx Hy Hz) as (H0 & H255 & HxM & HyM & HzM).
  fold M in H255, HxM, HyM, HzM. fold m in H0, HxM, HyM, HzM.
  rewrite (rgb_fnat x y z) by assumption.
  rewrite getContrastColor_f. cbn [r g b a].
  rewrite contrast_f_complement by lia. cbv zeta. cbn [R G B].
  rewrite <- !Z2Nat.inj_max, <- !Z2Nat.inj_min. fold M. fold m.
  clearbody M m.
  rewrite (rgb_fnat (M + m - x) (M + m - y) (M + m - z)) by lia.
  replace (Z.to_nat M + Z.to_nat m - Z.to_nat x)%nat
    with (Z.to_nat (M + m - x)) by lia.
  replace (Z.to_nat M + Z.to_nat m - Z.to_nat y)%nat
    with (Z.to_nat (M + m - y)) by lia.
  replace (Z.to_nat M + Z.to_nat m - Z.to_nat z)%nat
    with (Z.to_nat (M + m - z)) by lia.
  reflexivity.
Qed.

(** X1: The contrast colour of a colour with integer channels from 0 to 255 is
    its complement: each channel [c] becomes [max + min - c], where [max] and
    [min] are the largest and the smallest of the three channels; alpha is
    kept. *)
Theorem getContrastColor_complement (x y z : Z) (alpha : float) :
  (0 <= x <= 255)%Z -> (0 <= y <= 255)%Z -> (0 <= z <= 255)%Z ->
  let M := Z.max (Z.max x y) z in
  let m := Z.min (Z.min x y) z in
  getContrastColor (rgb x y z alpha)
  = rgb (M + m - x) (M + m - y) (M + m - z) alpha.
Proof. exact (contrast_complement x y z alpha). Qed.

Lemma getContrastColor_complement_witness :
  getContrastColor (rgb 12 34 27 1) = rgb 34 12 19 1.
Proof.
  refine (getContrastColor_complement 12 34 27 1 _ _ _); lia.
Defined.

Lemma contrast_twice (x y z : Z) (alpha : float) :
  (0 <= x <= 255)%Z -> (0 <= y <= 255)%Z -> (0 <= z <= 255)%Z ->
  getContrastColor (getContrastColor (rgb x y z alpha)) = rgb x y z alpha.
Proof.
  intros Hx Hy Hz.
  rewrite (contrast_complement x y z alpha Hx Hy Hz).
  destruct (max_min_bounds x y z Hx Hy Hz) as (H0 & H255 & HxM & HyM & HzM).
  destruct (max_min_attained x y z) as (HM & Hm).
  set (M := Z.max (Z.max x y) z) in *.
  set (m := Z.min (Z.min x y) z) in *.
  clearbody M m.
  rewrite contrast_complement by lia.
  assert (EM : Z.max (Z.max (M + m - x) (M + m - y)) (M + m - z) = M) by lia.
  assert (Em : Z.min (Z.min (M + m - x) (M + m - y)) (M + m - z) = m) by lia.
  rewrite EM, Em.
  f_equal; lia.
Qed.

(** X2: Applied twice to a colour with integer channels from 0 to 255,
    [getContrastColor] returns the colour it started from: the three channels
    and alpha are unchanged. *)
Theorem getContrastColor_involution (x y z : Z) (alpha : float) :
  (0 <= x <= 255)%Z -> (0 <= y <= 255)%Z -> (0 <= z <= 255)%Z ->
  getContrastColor (getContrastColor (rgb x y z alpha)) = rgb x y z alpha.
Proof. exact (contrast_twice x y z alpha). Qed.

Lemma getContrastColor_involution_witness :
  getContrastColor (getContrastColor (rgb 12 34 27 1)) = rgb 12 34 27 1.
Proof.
  refine (getContrastColor_involution 12 34 27 1 _ _ _); lia.
Defined.

(** C5: for every colour with integer channels from 0 to 255, applying
    [getContrastColor] twice yields a colour whose three channels are
    integers that differ from the original ones by at most 1, and whose
    alpha is the original one. *)
Theorem getContrastColor_twice (x y z : Z) (alpha : float) :
  (0 <= x <= 255)%Z -> (0 <= y <= 255)%Z -> (0 <= z <= 255)%Z ->
  exists x' y' z',
    getContrastColor (getContrastColor (rgb x y z alpha))
    = rgb x' y' z' alpha /\
    (Z.abs (x' - x) <= 1)%Z /\ (Z.abs (y' - y) <= 1)%Z /\
    (Z.abs (z' - z) <= 1)%Z.
Proof.
  intros Hx Hy Hz. exists x, y, z.
  split; [exact (contrast_twice x y z alpha Hx Hy Hz) | lia].
Qed.

Lemma getContrastColor_twice_witness :
  exists x' y' z',
    getContrastColor (getContrastColor (rgb 200 100 50 1))
    = rgb x' y' z' 1 /\
    (Z.abs (x' - 200) <= 1)%Z /\ (Z.abs (y' - 100) <= 1)%Z /\
    (Z.abs (z' - 50) <= 1)%Z.
Proof.
  refine (getContrastColor_twice 200 100 50 1 _ _ _); lia.
Defined.

(** ** Parsing a functional notation

    What [fromRGBA] reads in a string [name(field,field,...)], and what it
    reads back from the string [toRGBA] writes. *)

Section Parsing.

Local Open Scope string_scope.

(** Every character of [s] satisfies [P]. *)
Fixpoint all_chars (P : ascii -> bool) (s : string) : bool :=
  match s with
  | EmptyString => true
  | String c s' => P c && all_chars P s'
  end.

Definition not_comma (c : ascii) : bool := negb (Ascii.eqb c ",").

(** A character allowed before the parenthesis: neither white space nor an
    opening parenthesis. *)
Definition name_char (c : ascii) : bool :=
  negb (is_white c) && negb (Ascii.eqb c "(").

Lemma all_chars_app (P : ascii -> bool) (s t : string) :
  all_chars P (s ++ t) = all_chars P s && all_chars P t.
Proof.
  induction s as [|c s IH]; [reflexivity|].
  cbn [append all_chars]. rewrite IH. apply andb_assoc.
Qed.

Lemma all_chars_impl (P Q : ascii -> bool) (s : string) :
  (forall c, P c = true -> Q c = true) ->
  all_chars P s = true -> all_chars Q s = true.
Proof.
  intros HPQ. induction s as [|c s IH]; [reflexivity|].
  cbn [all_chars]. intros H. apply andb_prop in H. destruct H as [Hc Hs].
  rewrite (HPQ c Hc), (IH Hs). reflexivity.
Qed.

Lemma app_assoc (s t u : string) : (s ++ t) ++ u = s ++ t ++ u.
Proof.
  induction s as [|c s IH]; [reflexivity|]. cbn [append]. rewrite IH.
  reflexivity.
Qed.

Lemma length_app (s t : string) :
  String.length (s ++ t) = (String.length s + String.length t)%nat.
Proof.
  induction s as [|c s IH]; [reflexivity|]. cbn [append String.length].
  rewrite IH. reflexivity.
Qed.

Lemma substring_skip (s t : string) (n : nat) :
  String.substring (String.length s) n (s ++ t) = String.substring 0 n t.
Proof. induction s as [|c s IH]; [reflexivity|]. exact IH. Qed.

Lemma substring_take (s t : string) :
  String.substring 0 (String.length s) (s ++ t) = s.
Proof.
  induction s as [|c s IH].
  - destruct t; reflexivity.
  - cbn [append String.length String.substring]. rewrite IH. reflexivity.
Qed.

(** *** [trim] *)

Lemma trimStart_white (s : string) :
  all_chars is_white s = true -> trimStart s = "".
Proof.
  induction s as [|c s IH]; [reflexivity|].
  cbn [all_chars trimStart]. intros H. apply andb_prop in H.
  destruct H as [Hc Hs]. rewrite Hc. exact (IH Hs).
Qed.

Lemma trimEnd_white (s : string) :
  all_chars is_white s = true -> trimEnd s = "".
Proof.
  induction s as [|c s IH]; [reflexivity|].
  cbn [all_chars trimEnd]. intros H. apply andb_prop in H.
  destruct H as [Hc Hs]. rewrite (IH Hs), Hc. reflexivity.
Qed.

Lemma trimEnd_app_white (s ws : string) :
  all_chars is_white ws = true -> trimEnd (s ++ ws) = trimEnd s.
Proof.
  intros Hw. induction s as [|c s IH].
  - cbn [append]. apply trimEnd_white. exact Hw.
  - cbn [append trimEnd]. rewrite IH. reflexivity.
Qed.

Lemma trim_app_white (s ws : string) :
  all_chars is_white ws = true -> trim (s ++ ws) = trim s.
Proof.
  intros Hw. unfold trim. induction s as [|c s IH].
  - cbn [append]. rewrite (trimStart_white ws Hw). reflexivity.
  - cbn [append trimStart]. destruct (is_white c); [exact IH|].
    apply (trimEnd_app_white (String c s) ws Hw).
Qed.

Lemma trimEnd_last (s : string) (c : ascii) :
  is_white c = false -> trimEnd (s ++ String c "") = s ++ String c "".
Proof.
  intros Hc. induction s as [|x s IH].
  - cbn [append trimEnd]. rewrite Hc. reflexivity.
  - cbn [append trimEnd]. rewrite IH. destruct s; reflexivity.
Qed.

(** *** [indexOf] of the opening parenthesis *)

Lemma prefix_paren (c : ascii) (s : string) :
  String.prefix "(" (String c s) = Ascii.eqb c "(".
Proof.
  cbn [String.prefix]. destruct (ascii_dec "(" c) as [<-|Hne].
  - destruct s; reflexivity.
  - symmetry. apply Ascii.eqb_neq. congruence.
Qed.

Lemma indexOf_from_none (s : string) (i : Z) :
  all_chars (fun c => negb (Ascii.eqb c "(")) s = true ->
  indexOf_from "(" s i = (-1)%Z.
Proof.
  revert i. induction s as [|c s IH]; intros i; [reflexivity|].
  cbn [all_chars]. intros H. apply andb_prop in H. destruct H as [Hc Hs].
  cbn [indexOf_from]. rewrite prefix_paren.
  apply negb_true_iff in Hc. rewrite Hc. apply IH. exact Hs.
Qed.

Lemma indexOf_from_app_none (s t : string) (i : Z) :
  all_chars (fun c => negb (Ascii.eqb c "(")) t = true ->
  indexOf_from "(" (s ++ t) i = indexOf_from "(" s i.
Proof.
  intros Ht. revert i. induction s as [|c s IH]; intros i.
  - cbn [append]. rewrite (indexOf_from_none t i Ht). reflexivity.
  - cbn [append indexOf_from]. rewrite !prefix_paren.
    destruct (Ascii.eqb c "("); [reflexivity|]. apply IH.
Qed.

Lemma indexOf_from_name (p rest : string) (i : Z) :
  all_chars name_char p = true ->
  indexOf_from "(" (p ++ String "(" rest) i = (i + len p)%Z.
Proof.
  revert i. induction p as [|c p IH]; intros i.
  - intros _. cbn [append indexOf_from]. rewrite prefix_paren.
    cbn. unfold len. cbn. lia.
  - cbn [all_chars]. intros H. apply andb_prop in H. destruct H as [Hc Hp].
    unfold name_char in Hc. apply andb_prop in Hc. destruct Hc as [_ Hc].
    apply negb_true_iff in Hc.
    cbn [append indexOf_from]. rewrite prefix_paren, Hc, (IH _ Hp).
    unfold len. cbn [String.length]. lia.
Qed.

Lemma white_not_paren (c : ascii) :
  is_white c = true -> negb (Ascii.eqb c "(") = true.
Proof.
  destruct (Ascii.eqb_spec c "(") as [->|_]; [discriminate|reflexivity].
Qed.

(** *** [split] *)

Lemma split_field (f rest : string) :
  all_chars not_comma f = true ->
  split "," (f ++ String "," rest) = f :: split "," rest.
Proof.
  induction f as [|c f IH]; [reflexivity|].
  cbn [all_chars]. intros H. apply andb_prop in H. destruct H as [Hc Hf].
  unfold not_comma in Hc. apply negb_true_iff in Hc.
  cbn [append split]. rewrite Hc, (IH Hf). reflexivity.
Qed.

Lemma split_last (f : string) :
  all_chars not_comma f = true -> split "," f = [f].
Proof.
  induction f as [|c f IH]; [reflexivity|].
  cbn [all_chars]. intros H. apply andb_prop in H. destruct H as [Hc Hf].
  unfold not_comma in Hc. apply negb_true_iff in Hc.
  cbn [split]. rewrite Hc, (IH Hf). reflexivity.
Qed.

(** *** The content between the parentheses *)

Lemma trim_call (p body : string) :
  all_chars name_char p = true ->
  trim (p ++ "(" ++ body ++ ")") = p ++ "(" ++ body ++ ")".
Proof.
  intros Hp. unfold trim.
  assert (Es : trimStart (p ++ "(" ++ body ++ ")") = p ++ "(" ++ body ++ ")").
  { destruct p as [|c p]; [reflexivity|].
    cbn [all_chars] in Hp. apply andb_prop in Hp. destruct Hp as [Hc _].
    unfold name_char in Hc. apply andb_prop in Hc. destruct Hc as [Hc _].
    apply negb_true_iff in Hc. cbn [append trimStart]. rewrite Hc.
    reflexivity. }
  rewrite Es.
  rewrite <- (app_assoc "(" body ")"), <- (app_assoc p ("(" ++ body) ")").
  apply trimEnd_last. reflexivity.
Qed.

Lemma rgbParts_content (p body : string) :
  all_chars name_char p = true ->
  rgbParts (p ++ "(" ++ body ++ ")") = split "," body.
Proof.
  intros Hp. unfold rgbParts.
  set (t := p ++ "(" ++ body ++ ")").
  assert (Et : trim t = t) by (apply trim_call; exact Hp).
  rewrite Et. unfold indexOf.
  assert (Ei : indexOf_from "(" t 0 = len p).
  { unfold t. change ("(" ++ body ++ ")") with (String "(" (body ++ ")")).
    rewrite (indexOf_from_name p _ 0 Hp). lia. }
  rewrite Ei. f_equal.
  unfold slice, clamp.
  assert (El : len t = (len p + 1 + len body + 1)%Z).
  { unfold len, t. rewrite !length_app. cbn [String.length]. lia. }
  rewrite El. unfold len.
  destruct (Z.ltb_spec (Z.of_nat (String.length p) + 1) 0) as [|_]; [lia|].
  change (-1 <? 0)%Z with true. cbv iota.
  replace (Z.to_nat (Z.min _ _)) with (String.length (p ++ "(")).
  2:{ rewrite length_app. cbn [String.length]. lia. }
  replace (Z.to_nat (Z.max _ 0)) with (String.length body) by lia.
  unfold t. rewrite <- (app_assoc p "(" (body ++ ")")).
  rewrite substring_skip. apply substring_take.
Qed.

(** The fields of a well-formed string: [split] undoes the joining of
    fields that hold no comma. *)
Lemma split_concat (f : string) (fs : list string) :
  Forall (fun x => all_chars not_comma x = true) (f :: fs) ->
  split "," (String.concat "," (f :: fs)) = f :: fs.
Proof.
  revert f. induction fs as [|g fs IH]; intros f H.
  - cbn [String.concat]. apply split_last. exact (Forall_inv H).
  - change (String.concat "," (f :: g :: fs))
      with (f ++ String "," (String.concat "," (g :: fs))).
    rewrite (split_field _ _ (Forall_inv H)).
    rewrite (IH g (Forall_inv_tail H)). reflexivity.
Qed.

(** [fromRGBA] reads the fields of [name(f1,f2,...)] whatever the name,
    provided it holds neither white space nor a parenthesis. *)
Lemma rgbParts_fields (p f : string) (fs : list string) :
  all_chars name_char p = true ->
  Forall (fun x => all_chars not_comma x = true) (f :: fs) ->
  rgbParts (p ++ "(" ++ String.concat "," (f :: fs) ++ ")") = f :: fs.
Proof.
  intros Hp Hfs. rewrite (rgbParts_content p _ Hp).
  apply split_concat. exact Hfs.
Qed.

(** X4: With three fields the channels are the numbers the fields convert to
    and alpha is 1; a fourth field gives alpha, unless it converts to 0 or
    NaN. *)
Theorem fromRGBA_fields (p f1 f2 f3 f4 : string) :
  all_chars name_char p = true ->
  all_chars not_comma f1 = true -> all_chars not_comma f2 = true ->
  all_chars not_comma f3 = true -> all_chars not_comma f4 = true ->
  fromRGBA (p ++ "(" ++ f1 ++ "," ++ f2 ++ "," ++ f3 ++ ")")
  = mkUColor (StringToNumber f1) (StringToNumber f2) (StringToNumber f3) 1%float /\
  fromRGBA (p ++ "(" ++ f1 ++ "," ++ f2 ++ "," ++ f3 ++ "," ++ f4 ++ ")")
  = mkUColor (StringToNumber f1) (StringToNumber f2) (StringToNumber f3)
      (if truthy (StringToNumber f4) then StringToNumber f4 else 1%float).
Proof.
  intros Hp H1 H2 H3 H4. split.
  - unfold fromRGBA.
    replace (f1 ++ "," ++ f2 ++ "," ++ f3 ++ ")")
      with (String.concat "," [f1; f2; f3] ++ ")").
    2:{ cbn [String.concat]. rewrite !app_assoc. reflexivity. }
    rewrite (rgbParts_fields p f1 [f2; f3] Hp) by (repeat constructor; assumption).
    reflexivity.
  - unfold fromRGBA.
    replace (f1 ++ "," ++ f2 ++ "," ++ f3 ++ "," ++ f4 ++ ")")
      with (String.concat "," [f1; f2; f3; f4] ++ ")").
    2:{ cbn [String.concat]. rewrite !app_assoc. reflexivity. }
    rewrite (rgbParts_fields p f1 [f2; f3; f4] Hp) by (repeat constructor; assumption).
    reflexivity.
Qed.

Lemma fromRGBA_fields_witness :
  fromRGBA "rgb(255,161,12)" = rgb 255 161 12 1.
Proof.
  refine (eq_trans
            (proj1 (fromRGBA_fields "rgb" "255" "161" "12" "" _ _ _ _ _)) _);
    reflexivity.
Defined.

(** X5: White space after the closing parenthesis is ignored. *)
Theorem fromRGBA_trailing_space (s ws : string) :
  all_chars is_white ws = true -> fromRGBA (s ++ ws) = fromRGBA s.
Proof.
  intros Hw. unfold fromRGBA, rgbParts, indexOf.
  rewrite (trim_app_white s ws Hw).
  rewrite (indexOf_from_app_none s ws 0
             (all_chars_impl _ _ ws white_not_paren Hw)).
  reflexivity.
Qed.

Lemma fromRGBA_trailing_space_witness :
  fromRGBA "rgb(1,2,3)  " = fromRGBA "rgb(1,2,3)".
Proof.
  refine (fromRGBA_trailing_space "rgb(1,2,3)" "  " _). reflexivity.
Defined.

(** *** The text of a number holds no comma *)

Lemma digit_char_plain (z : Z) : not_comma (digit_char (z mod 10)) = true.
Proof.
  pose proof (Z.mod_pos_bound z 10 ltac:(lia)) as Hd.
  set (d := (z mod 10)%Z) in *.
  assert (d = 0 \/ d = 1 \/ d = 2 \/ d = 3 \/ d = 4 \/ d = 5 \/ d = 6 \/
          d = 7 \/ d = 8 \/ d = 9)%Z as Hc by lia.
  repeat (destruct Hc as [->|Hc]; [reflexivity|]). rewrite Hc. reflexivity.
Qed.

Lemma digits_fuel_plain (fuel : nat) (n : Z) (acc : string) :
  all_chars not_comma acc = true ->
  all_chars not_comma (digits_fuel fuel 10 n acc) = true.
Proof.
  revert n acc. induction fuel as [|fuel IH]; intros n acc Hacc; [exact Hacc|].
  cbn [digits_fuel].
  assert (H : all_chars not_comma (String (digit_char (n mod 10)) acc) = true).
  { cbn [all_chars]. rewrite digit_char_plain, Hacc. reflexivity. }
  destruct (n / 10 =? 0)%Z; [exact H | apply IH; exact H].
Qed.

Lemma digits_plain (n : Z) : all_chars not_comma (digits 10 n) = true.
Proof. unfold digits. apply digits_fuel_plain. reflexivity. Qed.

Lemma repeat_char_plain (n : nat) :
  all_chars not_comma (repeat_char "0" n) = true.
Proof. induction n as [|n IH]; [reflexivity|exact IH]. Qed.

Lemma substring_plain (P : ascii -> bool) (s : string) (i n : nat) :
  all_chars P s = true -> all_chars P (String.substring i n s) = true.
Proof.
  revert i n. induction s as [|c s IH]; intros i n H.
  - destruct i, n; reflexivity.
  - cbn [all_chars] in H. apply andb_prop in H. destruct H as [Hc Hs].
    destruct i as [|i].
    + destruct n as [|n]; [reflexivity|].
      cbn [String.substring all_chars]. rewrite Hc. apply IH. exact Hs.
    + cbn [String.substring]. apply IH. exact Hs.
Qed.

Lemma layout_plain (s k n : Z) : all_chars not_comma (layout s k n) = true.
Proof.
  unfold layout.
  pose proof (digits_plain s) as Hd.
  destruct ((k <=? n)%Z && (n <=? 21)%Z).
  { rewrite all_chars_app, Hd, repeat_char_plain. reflexivity. }
  destruct ((0 <? n)%Z && (n <=? 21)%Z).
  { rewrite !all_chars_app, !substring_plain by exact Hd. reflexivity. }
  destruct ((-6 <? n)%Z && (n <=? 0)%Z).
  { rewrite !all_chars_app, Hd, repeat_char_plain. reflexivity. }
  cbv zeta.
  assert (He : all_chars not_comma
                 ((if (n - 1 <? 0)%Z then "e-" else "e+")
                  ++ digits 10 (Z.abs (n - 1))) = true).
  { rewrite all_chars_app, digits_plain. destruct (n - 1 <? 0)%Z; reflexivity. }
  destruct (k =? 1)%Z.
  - rewrite all_chars_app, Hd. exact He.
  - rewrite all_chars_app, substring_plain by exact Hd.
    change ("." ++ ?x) with (String "." x). cbn [all_chars andb not_comma].
    rewrite all_chars_app, substring_plain by exact Hd. exact He.
Qed.

Lemma ToString_plain (x : float) : all_chars not_comma (ToString x) = true.
Proof.
  unfold ToString. destruct (Prim2SF x) as [[|]|[|]| |sx m e]; try reflexivity.
  destruct (shortest (abs x) m e) as [[d k] n].
  rewrite all_chars_app, layout_plain. destruct sx; reflexivity.
Qed.

(** A space before a field does not change the number it converts to. *)
Lemma StringToNumber_space (f : string) :
  StringToNumber (" " ++ f) = StringToNumber f.
Proof. reflexivity. Qed.

(** *** [fromRGBA] after [toRGBA] *)

Lemma fromRGBA_toRGBA_numbers (c : Color) :
  fromRGBA (toRGBA c)
  = mkUColor (StringToNumber (ToString c.(r)))
             (StringToNumber (ToString c.(g)))
             (StringToNumber (ToString c.(b)))
             (if truthy (StringToNumber (ToString c.(a)))
              then StringToNumber (ToString c.(a)) else 1%float).
Proof.
  unfold toRGBA.
  set (R := ToString c.(r)). set (G := ToString c.(g)).
  set (B := ToString c.(b)). set (A := ToString c.(a)).
  assert (E : "rgba(" ++ R ++ ", " ++ G ++ ", " ++ B ++ ", " ++ A ++ ")"
              = "rgba" ++ "(" ++
                String.concat "," [R; " " ++ G; " " ++ B; " " ++ A] ++ ")").
  { cbn [String.concat]. rewrite !app_assoc. reflexivity. }
  rewrite E. unfold fromRGBA.
  rewrite (rgbParts_fields "rgba" R [" " ++ G; " " ++ B; " " ++ A] eq_refl).
  2:{ repeat constructor; try apply ToString_plain;
      cbn [append all_chars]; rewrite ToString_plain; reflexivity. }
  cbn [nth_error Number]. rewrite !StringToNumber_space. reflexivity.
Qed.

(** X6: Whatever the colour, [fromRGBA] finds in the text of [toRGBA] the four
    numbers written there, each converted to text and back; an alpha that
    comes back as 0 or NaN is replaced by 1. *)
Theorem fromRGBA_toRGBA (c : Color) :
  fromRGBA (toRGBA c)
  = mkUColor (StringToNumber (ToString c.(r)))
             (StringToNumber (ToString c.(g)))
             (StringToNumber (ToString c.(b)))
             (if truthy (StringToNumber (ToString c.(a)))
              then StringToNumber (ToString c.(a)) else 1%float).
Proof. exact (fromRGBA_toRGBA_numbers c). Qed.

(** The integers from 0 to 255 are read back from their text. *)
Definition text_ok (n : Z) : bool :=
  PrimFloat.Leibniz.eqb (StringToNumber (ToString (F64.of_Z n))) (F64.of_Z n).

Lemma texts_checked : all_below 256 text_ok = true.
Proof. vm_compute. reflexivity. Qed.

Lemma text_of_byte (n : Z) :
  (0 <= n <= 255)%Z -> StringToNumber (ToString (F64.of_Z n)) = F64.of_Z n.
Proof.
  intros Hn. apply feq_true.
  apply (all_below_spec 256 _ texts_checked). simpl; lia.
Qed.

(** X7: A colour with integer channels from 0 to 255 comes back unchanged from
    its [toRGBA] text, when its alpha is read back from its own text and is
    neither 0 nor NaN. *)
Theorem fromRGBA_toRGBA_bytes (x y z : Z) (alpha : float) :
  (0 <= x <= 255)%Z -> (0 <= y <= 255)%Z -> (0 <= z <= 255)%Z ->
  StringToNumber (ToString alpha) = alpha -> truthy alpha = true ->
  fromRGBA (toRGBA (rgb x y z alpha)) = rgb x y z alpha.
Proof.
  intros Hx Hy Hz Ha Ht. rewrite fromRGBA_toRGBA_numbers. unfold rgb.
  cbn [r g b a]. rewrite !text_of_byte, Ha, Ht by assumption. reflexivity.
Qed.

Lemma fromRGBA_toRGBA_bytes_witness :
  fromRGBA (toRGBA (rgb 255 161 12 0.5)) = rgb 255 161 12 0.5.
Proof.
  refine (fromRGBA_toRGBA_bytes 255 161 12 0.5 _ _ _ _ _);
    try lia; vm_compute; reflexivity.
Defined.

(** The text of a number that is 0, -0 or NaN is read back as such. *)
Lemma falsy_text (x : float) :
  truthy x = false -> truthy (StringToNumber (ToString x)) = false.
Proof.
  unfold truthy, F64.is_NaN. rewrite !FloatAxioms.eqb_spec.
  unfold ToString.
  destruct (Prim2SF x) as [[|]|[|]| |sx m e]; try reflexivity;
    try discriminate.
  unfold SFeqb, SFcompare.
  change (Prim2SF 0) with (S754_zero false).
  destruct sx; cbn; rewrite ?Pos.compare_refl, ?Z.compare_refl; cbn;
    try discriminate.
  all: destruct e; cbn; try discriminate;
    rewrite ?Pos.compare_refl; cbn; discriminate.
Qed.

(** X8: An alpha of 0 (or -0, or NaN) does not survive [toRGBA] followed by
    [fromRGBA]: the colour comes back with alpha 1. *)
Theorem fromRGBA_toRGBA_no_alpha (x y z : Z) (alpha : float) :
  (0 <= x <= 255)%Z -> (0 <= y <= 255)%Z -> (0 <= z <= 255)%Z ->
  truthy alpha = false ->
  fromRGBA (toRGBA (rgb x y z alpha)) = rgb x y z 1.
Proof.
  intros Hx Hy Hz Ht. rewrite fromRGBA_toRGBA_numbers. unfold rgb.
  cbn [r g b a]. rewrite !text_of_byte, (falsy_text alpha Ht) by assumption.
  reflexivity.
Qed.

Lemma fromRGBA_toRGBA_no_alpha_witness :
  fromRGBA (toRGBA (rgb 255 161 12 0)) = rgb 255 161 12 1.
Proof.
  refine (fromRGBA_toRGBA_no_alpha 255 161 12 0 _ _ _ _);
    try lia; reflexivity.
Defined.

(** *** White space before the name *)

Lemma trimStart_app_white (ws t : string) :
  all_chars is_white ws = true -> trimStart (ws ++ t) = trimStart t.
Proof.
  induction ws as [|c ws IH]; [reflexivity|].
  cbn [all_chars append trimStart]. intros H. apply andb_prop in H.
  destruct H as [Hc Hw]. rewrite Hc. exact (IH Hw).
Qed.

Lemma indexOf_from_white (ws t : string) (i : Z) :
  all_chars is_white ws = true ->
  indexOf_from "(" (ws ++ t) i = indexOf_from "(" t (i + len ws)%Z.
Proof.
  revert i. induction ws as [|c ws IH]; intros i.
  - intros _. cbn [append]. f_equal. unfold len. cbn. lia.
  - cbn [all_chars]. intros H. apply andb_prop in H. destruct H as [Hc Hw].
    cbn [append indexOf_from]. rewrite prefix_paren.
    pose proof (white_not_paren c Hc) as Hn. apply negb_true_iff in Hn.
    rewrite Hn, (IH _ Hw). f_equal. unfold len. cbn [String.length]. lia.
Qed.

Lemma substring_skip_more (s t : string) (i n : nat) :
  String.substring (String.length s + i) n (s ++ t) = String.substring i n t.
Proof. induction s as [|c s IH]; [reflexivity|]. exact IH. Qed.

Lemma substring_inside (s t : string) (i n : nat) :
  (i + n <= String.length s)%nat ->
  String.substring i n (s ++ t) = String.substring i n s.
Proof.
  revert i n. induction s as [|c s IH]; intros i n H.
  - cbn [String.length] in H. assert (i = 0%nat) by lia.
    assert (n = 0%nat) by lia. subst. destruct t; reflexivity.
  - cbn [String.length] in H. destruct i as [|i].
    + destruct n as [|n]; [reflexivity|].
      cbn [append String.substring]. rewrite IH by lia. reflexivity.
    + cbn [append String.substring]. apply IH. lia.
Qed.

(** X20: With [k] white-space characters before the name, the parenthesis is
    looked for in the string as given and the content is cut in the trimmed
    string: the first [k] characters of the content are lost. *)
Theorem fromRGBA_leading_space_shift (ws p body : string) :
  all_chars is_white ws = true -> all_chars name_char p = true ->
  (String.length ws <= String.length body)%nat ->
  fromRGBA (ws ++ p ++ "(" ++ body ++ ")")
  = fromRGBA (p ++ "("
              ++ String.substring (String.length ws)
                   (String.length body - String.length ws) body
              ++ ")").
Proof.
  intros Hw Hp Hk. unfold fromRGBA.
  rewrite (rgbParts_content p _ Hp).
  assert (E : rgbParts (ws ++ p ++ "(" ++ body ++ ")")
              = split "," (String.substring (String.length ws)
                             (String.length body - String.length ws) body)).
  { unfold rgbParts. set (t := p ++ "(" ++ body ++ ")").
    assert (Et : trim (ws ++ t) = t).
    { unfold trim. rewrite (trimStart_app_white ws t Hw).
      apply (trim_call p body Hp). }
    rewrite Et. unfold indexOf.
    rewrite (indexOf_from_white ws t 0 Hw).
    assert (Ei : indexOf_from "(" t (0 + len ws) = (len ws + len p)%Z).
    { unfold t. change ("(" ++ body ++ ")") with (String "(" (body ++ ")")).
      rewrite (indexOf_from_name p _ _ Hp). lia. }
    rewrite Ei. f_equal.
    unfold slice, clamp.
    assert (El : len t = (len p + 1 + len body + 1)%Z).
    { unfold len, t. rewrite !length_app. cbn [String.length]. lia. }
    rewrite El. unfold len.
    destruct (Z.ltb_spec (Z.of_nat (String.length ws)
                          + Z.of_nat (String.length p) + 1) 0) as [|_]; [lia|].
    change (-1 <? 0)%Z with true. cbv iota.
    replace (Z.to_nat (Z.min _ _))
      with (String.length (p ++ "(") + String.length ws)%nat.
    2:{ rewrite length_app. cbn [String.length]. lia. }
    replace (Z.to_nat (Z.max _ 0))
      with (String.length body - String.length ws)%nat by lia.
    unfold t. rewrite <- (app_assoc p "(" (body ++ ")")).
    rewrite substring_skip_more. apply substring_inside. lia. }
  rewrite E. reflexivity.
Qed.

Lemma fromRGBA_leading_space_shift_witness :
  fromRGBA "  rgb(255,161,12)" = fromRGBA "rgb(5,161,12)".
Proof.
  refine (fromRGBA_leading_space_shift "  " "rgb" "255,161,12" _ _ _);
    try reflexivity. cbn. lia.
Defined.

(** *** White space around the fields *)

Lemma white_not_comma (c : ascii) : is_white c = true -> not_comma c = true.
Proof.
  unfold not_comma.
  destruct (Ascii.eqb_spec c ",") as [->|_]; [discriminate|reflexivity].
Qed.

Lemma StringToNumber_padded (w f w' : string) :
  all_chars is_white w = true -> all_chars is_white w' = true ->
  StringToNumber (w ++ f ++ w') = StringToNumber f.
Proof.
  intros Hw Hw'.
  assert (E : trim (w ++ f ++ w') = trim f).
  { unfold trim. rewrite (trimStart_app_white w _ Hw).
    apply (trim_app_white f w' Hw'). }
  unfold StringToNumber. rewrite E. reflexivity.
Qed.

Lemma padded_plain (w f w' : string) :
  all_chars is_white w = true -> all_chars is_white w' = true ->
  all_chars not_comma f = true ->
  all_chars not_comma (w ++ f ++ w') = true.
Proof.
  intros Hw Hw' Hf. rewrite !all_chars_app, Hf.
  rewrite (all_chars_impl _ _ w white_not_comma Hw).
  rewrite (all_chars_impl _ _ w' white_not_comma Hw'). reflexivity.
Qed.

(** X16: White space on either side of a field is ignored: the result is that
    of the string with the bare fields. *)
Theorem fromRGBA_padded_fields (p f1 f2 f3 u1 v1 u2 v2 u3 v3 : string) :
  all_chars name_char p = true ->
  forallb (all_chars not_comma) [f1; f2; f3] = true ->
  forallb (all_chars is_white) [u1; v1; u2; v2; u3; v3] = true ->
  fromRGBA (p ++ "(" ++ (u1 ++ f1 ++ v1) ++ "," ++ (u2 ++ f2 ++ v2) ++ ","
              ++ (u3 ++ f3 ++ v3) ++ ")")
  = fromRGBA (p ++ "(" ++ f1 ++ "," ++ f2 ++ "," ++ f3 ++ ")").
Proof.
  intros Hp Hf Hw. cbn [forallb] in Hf, Hw.
  repeat (apply andb_prop in Hf; let H := fresh "Hf" in destruct Hf as [H Hf]).
  repeat (apply andb_prop in Hw; let H := fresh "Hw" in destruct Hw as [H Hw]).
  unfold fromRGBA.
  replace ((u1 ++ f1 ++ v1) ++ "," ++ (u2 ++ f2 ++ v2) ++ ","
           ++ (u3 ++ f3 ++ v3) ++ ")")
    with (String.concat "," [u1 ++ f1 ++ v1; u2 ++ f2 ++ v2; u3 ++ f3 ++ v3]
          ++ ")").
  2:{ cbn [String.concat]. rewrite !app_assoc. reflexivity. }
  replace (f1 ++ "," ++ f2 ++ "," ++ f3 ++ ")")
    with (String.concat "," [f1; f2; f3] ++ ")").
  2:{ cbn [String.concat]. rewrite !app_assoc. reflexivity. }
  rewrite (rgbParts_fields p _ _ Hp)
    by (repeat constructor; apply padded_plain; assumption).
  rewrite (rgbParts_fields p _ _ Hp) by (repeat constructor; assumption).
  cbn [nth_error Number].
  rewrite !StringToNumber_padded by assumption. reflexivity.
Qed.

Lemma fromRGBA_padded_fields_witness :
  fromRGBA "rgb( 255 , 161 ,12 )" = fromRGBA "rgb(255,161,12)".
Proof.
  refine (fromRGBA_padded_fields "rgb" "255" "161" "12"
            " " " " " " " " "" " " _ _ _); reflexivity.
Defined.

(** *** The text [toRGBA] writes *)

Definition decimal_ok (n : Z) : bool :=
  String.eqb (ToString (F64.of_Z n)) (digits 10 n).

Lemma decimals_checked : all_below 256 decimal_ok = true.
Proof. vm_compute. reflexivity. Qed.

(** X17: For integer channels from 0 to 255 and the default alpha, [toRGBA]
    writes the channels in decimal digits, then [1]. *)
Theorem toRGBA_bytes (x y z : Z) :
  (0 <= x <= 255)%Z -> (0 <= y <= 255)%Z -> (0 <= z <= 255)%Z ->
  toRGBA (rgb x y z 1)
  = "rgba(" ++ digits 10 x ++ ", " ++ digits 10 y ++ ", " ++ digits 10 z
    ++ ", 1)".
Proof.
  intros Hx Hy Hz. unfold toRGBA, rgb. cbn [r g b a].
  assert (D : forall n, (0 <= n <= 255)%Z ->
                ToString (F64.of_Z n) = digits 10 n).
  { intros n Hn. apply String.eqb_eq.
    apply (all_below_spec 256 _ decimals_checked). simpl; lia. }
  rewrite !D by assumption. reflexivity.
Qed.

Lemma toRGBA_bytes_witness :
  toRGBA (rgb 255 161 12 1) = "rgba(255, 161, 12, 1)".
Proof.
  refine (toRGBA_bytes 255 161 12 _ _ _); lia.
Defined.

End Parsing.

(** ** Hexadecimal notation with an alpha byte *)

Section Hexadecimal.

Local Open Scope string_scope.

(** The alpha [fromHEX] computes from the byte of the last two digits. *)
Definition alpha_of_byte (k : float) : float :=
  parseFloat (toFixed (k / 255)%float 3).

(** A hexadecimal digit of either case, and its value. *)
Definition is_hex (c : ascii) : bool :=
  match digit_val c with
  | Some d => (d <? 16)%Z
  | None => false
  end.

Definition hex_val (c : ascii) : Z :=
  match digit_val c with
  | Some d => d
  | None => 0
  end.

Definition hex_pair_ok (c1 : ascii) (n2 : Z) : bool :=
  let c2 := ascii_of_N (Z.to_N n2) in
  if is_hex c2 then
    PrimFloat.Leibniz.eqb (parseInt (String c1 (String c2 "")) 16)
                          (F64.of_Z (16 * hex_val c1 + hex_val c2))
  else true.

Definition hex_row_ok (n1 : Z) : bool :=
  let c1 := ascii_of_N (Z.to_N n1) in
  if is_hex c1 then all_below 256 (hex_pair_ok c1) else true.

Lemma hex_pairs_checked : all_below 256 hex_row_ok = true.
Proof. vm_compute. reflexivity. Qed.

Lemma ascii_code (c : ascii) :
  (0 <= Z.of_N (N_of_ascii c) < 256)%Z /\
  ascii_of_N (Z.to_N (Z.of_N (N_of_ascii c))) = c.
Proof.
  split.
  - pose proof (N_ascii_bounded c). lia.
  - rewrite N2Z.id. apply ascii_N_embedding.
Qed.

Lemma parseInt_hex_pair (c1 c2 : ascii) :
  is_hex c1 = true -> is_hex c2 = true ->
  parseInt (String c1 (String c2 "")) 16
  = F64.of_Z (16 * hex_val c1 + hex_val c2).
Proof.
  intros H1 H2.
  destruct (ascii_code c1) as [B1 E1]. destruct (ascii_code c2) as [B2 E2].
  pose proof (all_below_spec 256 _ hex_pairs_checked _ B1) as Hrow.
  unfold hex_row_ok in Hrow. rewrite E1, H1 in Hrow.
  pose proof (all_below_spec 256 _ Hrow _ B2) as Hok.
  unfold hex_pair_ok in Hok. rewrite E2, H2 in Hok.
  apply feq_true. exact Hok.
Qed.

Lemma hex_val_range (c : ascii) :
  is_hex c = true -> (0 <= hex_val c <= 15)%Z.
Proof.
  unfold is_hex, hex_val, digit_val.
  set (n := Z.of_N (N_of_ascii c)).
  destruct ((48 <=? n)%Z && (n <=? 57)%Z) eqn:E1.
  { intros H. apply Z.ltb_lt in H. apply andb_prop in E1. lia. }
  destruct ((97 <=? n)%Z && (n <=? 122)%Z) eqn:E2.
  { intros H. apply Z.ltb_lt in H. apply andb_prop in E2. lia. }
  destruct ((65 <=? n)%Z && (n <=? 90)%Z) eqn:E3; [|discriminate].
  intros H. apply Z.ltb_lt in H. apply andb_prop in E3. lia.
Qed.

(** The string [#] followed by six (or eight) characters. *)
Definition hex6 (c1 c2 c3 c4 c5 c6 : ascii) : string :=
  String "#" (String c1 (String c2 (String c3 (String c4 (String c5
    (String c6 "")))))).

Definition hex8 (c1 c2 c3 c4 c5 c6 c7 c8 : ascii) : string :=
  String "#" (String c1 (String c2 (String c3 (String c4 (String c5
    (String c6 (String c7 (String c8 "")))))))).

Lemma fromHEX_hex6 (c1 c2 c3 c4 c5 c6 : ascii) :
  fromHEX (hex6 c1 c2 c3 c4 c5 c6)
  = mkUColor (parseInt (String c1 (String c2 "")) 16)
             (parseInt (String c3 (String c4 "")) 16)
             (parseInt (String c5 (String c6 "")) 16) 1%float.
Proof. reflexivity. Qed.

Lemma fromHEX_hex8 (c1 c2 c3 c4 c5 c6 c7 c8 : ascii) :
  fromHEX (hex8 c1 c2 c3 c4 c5 c6 c7 c8)
  = mkUColor (parseInt (String c1 (String c2 "")) 16)
             (parseInt (String c3 (String c4 "")) 16)
             (parseInt (String c5 (String c6 "")) 16)
             (alpha_of_byte (parseInt (String c7 (String c8 "")) 16)).
Proof. reflexivity. Qed.

(** X9: [fromHEX] on six hexadecimal digits of either case: each channel is
    the value of its two digits, and alpha is 1. *)
Theorem fromHEX_six_digits (c1 c2 c3 c4 c5 c6 : ascii) :
  forallb is_hex [c1; c2; c3; c4; c5; c6] = true ->
  fromHEX (hex6 c1 c2 c3 c4 c5 c6)
  = rgb (16 * hex_val c1 + hex_val c2) (16 * hex_val c3 + hex_val c4)
        (16 * hex_val c5 + hex_val c6) 1.
Proof.
  cbn [forallb]. intros H.
  repeat (apply andb_prop in H; let Hc := fresh "Hc" in destruct H as [Hc H]).
  rewrite fromHEX_hex6, !parseInt_hex_pair by assumption. reflexivity.
Qed.

Lemma fromHEX_six_digits_witness :
  fromHEX "#FF3400" = rgb 255 52 0 1.
Proof.
  refine (fromHEX_six_digits "F" "F" "3" "4" "0" "0" _). reflexivity.
Defined.

(** X10: On eight digits the channels are read in the same way and alpha is
    the value of the last two digits over 255, rounded to three decimals. *)
Theorem fromHEX_eight_digits (c1 c2 c3 c4 c5 c6 c7 c8 : ascii) :
  forallb is_hex [c1; c2; c3; c4; c5; c6; c7; c8] = true ->
  fromHEX (hex8 c1 c2 c3 c4 c5 c6 c7 c8)
  = rgb (16 * hex_val c1 + hex_val c2) (16 * hex_val c3 + hex_val c4)
        (16 * hex_val c5 + hex_val c6)
        (alpha_of_byte (F64.of_Z (16 * hex_val c7 + hex_val c8))).
Proof.
  cbn [forallb]. intros H.
  repeat (apply andb_prop in H; let Hc := fresh "Hc" in destruct H as [Hc H]).
  rewrite fromHEX_hex8, !parseInt_hex_pair by assumption. reflexivity.
Qed.

Lemma fromHEX_eight_digits_witness :
  fromHEX "#ff34003A" = rgb 255 52 0 (alpha_of_byte 58).
Proof.
  refine (fromHEX_eight_digits "f" "f" "3" "4" "0" "0" "3" "A" _).
  reflexivity.
Defined.

(** The alpha of each byte: it is 1 for 255 only, and [toHEX] finds the byte
    again. *)
Definition alpha_ok (k : Z) : bool :=
  let a := alpha_of_byte (F64.of_Z k) in
  Bool.eqb (PrimFloat.eqb a 1) (k =? 255)%Z &&
  PrimFloat.Leibniz.eqb (F64.round (a * 255)%float) (F64.of_Z k) &&
  PrimFloat.leb 0 a && PrimFloat.leb a 1.

Lemma alphas_checked : all_below 256 alpha_ok = true.
Proof. vm_compute. reflexivity. Qed.

Lemma alpha_facts (k : Z) :
  (0 <= k <= 255)%Z ->
  let a := alpha_of_byte (F64.of_Z k) in
  PrimFloat.eqb a 1 = (k =? 255)%Z /\
  F64.round (a * 255)%float = F64.of_Z k /\
  PrimFloat.leb 0 a = true /\ PrimFloat.leb a 1 = true.
Proof.
  intros Hk a.
  assert (Hok : alpha_ok k = true)
    by (apply (all_below_spec 256 _ alphas_checked); simpl; lia).
  unfold alpha_ok in Hok. fold a in Hok.
  apply andb_prop in Hok. destruct Hok as [Hok H4].
  apply andb_prop in Hok. destruct Hok as [Hok H3].
  apply andb_prop in Hok. destruct Hok as [H1 H2].
  repeat split; [apply Bool.eqb_prop, H1 | apply feq_true, H2 | exact H3 | exact H4].
Qed.

(** X11: A colour [fromHEX] can return, with integer channels and the alpha of
    a byte below 255, is written by [toHEX] on eight digits from which
    [fromHEX] returns the same colour. *)
Theorem fromHEX_toHEX_alpha (x y z k : Z) :
  (0 <= x <= 255)%Z -> (0 <= y <= 255)%Z -> (0 <= z <= 255)%Z ->
  (0 <= k <= 254)%Z ->
  let c := rgb x y z (alpha_of_byte (F64.of_Z k)) in
  String.length (toHEX c) = 9%nat /\ fromHEX (toHEX c) = c.
Proof.
  intros Hx Hy Hz Hk c.
  destruct (hex_channel x Hx) as (c1 & c2 & Sx & Px).
  destruct (hex_channel y Hy) as (c3 & c4 & Sy & Py).
  destruct (hex_channel z Hz) as (c5 & c6 & Sz & Pz).
  destruct (hex_channel k ltac:(lia)) as (c7 & c8 & Sk & Pk).
  destruct (alpha_facts k ltac:(lia)) as (E1 & Ek & _).
  assert (E : toHEX c = hex8 c1 c2 c3 c4 c5 c6 c7 c8).
  { unfold toHEX, c, rgb. cbn [r g b a]. rewrite E1.
    destruct (Z.eqb_spec k 255) as [|_]; [lia|].
    cbv zeta. rewrite Ek, Sx, Sy, Sz, Sk. reflexivity. }
  rewrite E. split; [reflexivity|].
  rewrite fromHEX_hex8, Px, Py, Pz, Pk. reflexivity.
Qed.

Lemma fromHEX_toHEX_alpha_witness :
  fromHEX (toHEX (rgb 255 52 0 (alpha_of_byte 49)))
  = rgb 255 52 0 (alpha_of_byte 49).
Proof.
  refine (proj2 (fromHEX_toHEX_alpha 255 52 0 49 _ _ _ _)); lia.
Defined.

(** X12: An alpha byte of 255 is not written back: the eight digits [rrggbbff]
    give alpha 1, which [toHEX] writes on six digits. *)
Theorem toHEX_fromHEX_opaque (x y z : Z) :
  (0 <= x <= 255)%Z -> (0 <= y <= 255)%Z -> (0 <= z <= 255)%Z ->
  let text := toHEX (rgb x y z 1) in
  String.length text = 7%nat /\
  fromHEX (text ++ "ff") = rgb x y z 1 /\
  toHEX (fromHEX (text ++ "ff")) = text.
Proof.
  intros Hx Hy Hz text.
  destruct (hex_channel x Hx) as (c1 & c2 & Sx & Px).
  destruct (hex_channel y Hy) as (c3 & c4 & Sy & Py).
  destruct (hex_channel z Hz) as (c5 & c6 & Sz & Pz).
  assert (E : text = hex6 c1 c2 c3 c4 c5 c6).
  { unfold text, toHEX, rgb. cbn [r g b a].
    change (PrimFloat.eqb 1 1) with true. cbv iota.
    rewrite Sx, Sy, Sz. reflexivity. }
  assert (F : fromHEX (text ++ "ff") = rgb x y z 1).
  { rewrite E.
    change (hex6 c1 c2 c3 c4 c5 c6 ++ "ff")
      with (hex8 c1 c2 c3 c4 c5 c6 "f" "f").
    rewrite fromHEX_hex8, Px, Py, Pz. reflexivity. }
  split; [rewrite E; reflexivity|]. split; [exact F|].
  rewrite F. reflexivity.
Qed.

Lemma toHEX_fromHEX_opaque_witness :
  toHEX (fromHEX (toHEX (rgb 255 52 0 1) ++ "ff")) = toHEX (rgb 255 52 0 1).
Proof.
  refine (proj2 (proj2 (toHEX_fromHEX_opaque 255 52 0 _ _ _))); lia.
Defined.

(** *** The digits [toHEX] writes *)

Definition hex_text_ok (v : Z) : bool :=
  String.eqb (decToHex (F64.of_Z v))
    (String (digit_char (v / 16)) (String (digit_char (v mod 16)) "")).

Lemma hex_texts_checked : all_below 256 hex_text_ok = true.
Proof. vm_compute. reflexivity. Qed.

Lemma decToHex_byte (v : Z) :
  (0 <= v <= 255)%Z ->
  decToHex (F64.of_Z v)
  = String (digit_char (v / 16)) (String (digit_char (v mod 16)) "").
Proof.
  intros Hv. apply String.eqb_eq.
  apply (all_below_spec 256 _ hex_texts_checked). simpl; lia.
Qed.

(** X18: For integer channels from 0 to 255, [toHEX] writes each channel on
    two lower-case digits, the quotient and the remainder by 16; an alpha of 1
    is not written, the alpha of a byte below 255 is written as that byte. *)
Theorem toHEX_digits (x y z k : Z) :
  (0 <= x <= 255)%Z -> (0 <= y <= 255)%Z -> (0 <= z <= 255)%Z ->
  (0 <= k <= 254)%Z ->
  toHEX (rgb x y z 1)
  = hex6 (digit_char (x / 16)) (digit_char (x mod 16))
         (digit_char (y / 16)) (digit_char (y mod 16))
         (digit_char (z / 16)) (digit_char (z mod 16)) /\
  toHEX (rgb x y z (alpha_of_byte (F64.of_Z k)))
  = hex8 (digit_char (x / 16)) (digit_char (x mod 16))
         (digit_char (y / 16)) (digit_char (y mod 16))
         (digit_char (z / 16)) (digit_char (z mod 16))
         (digit_char (k / 16)) (digit_char (k mod 16)).
Proof.
  intros Hx Hy Hz Hk.
  destruct (alpha_facts k ltac:(lia)) as (E1 & Ek & _).
  unfold toHEX, rgb. cbn [r g b a].
  change (PrimFloat.eqb 1 1) with true. cbv iota. rewrite E1.
  destruct (Z.eqb_spec k 255) as [|_]; [lia|].
  cbv zeta. rewrite Ek, !decToHex_byte by lia. split; reflexivity.
Qed.

Lemma toHEX_digits_witness :
  toHEX (rgb 255 52 0 1) = "#ff3400".
Proof.
  refine (proj1 (toHEX_digits 255 52 0 0 _ _ _ _)); lia.
Defined.

(** *** Strings that are too short *)

Definition hex_digit_ok (n : Z) : bool :=
  let c := ascii_of_N (Z.to_N n) in
  if is_hex c then
    PrimFloat.Leibniz.eqb (parseInt (String c "") 16) (F64.of_Z (hex_val c))
  else true.

Lemma hex_digits_checked : all_below 256 hex_digit_ok = true.
Proof. vm_compute. reflexivity. Qed.

Lemma parseInt_hex_digit (c : ascii) :
  is_hex c = true -> parseInt (String c "") 16 = F64.of_Z (hex_val c).
Proof.
  intros H. destruct (ascii_code c) as [B E].
  pose proof (all_below_spec 256 _ hex_digits_checked _ B) as Hok.
  unfold hex_digit_ok in Hok. rewrite E, H in Hok.
  apply feq_true. exact Hok.
Qed.

(** X19: The three-digit shorthand is not expanded: [fromHEX] reads the first
    two digits as red, the third alone as green, and finds nothing for blue,
    which is NaN. *)
Theorem fromHEX_shorthand (c1 c2 c3 : ascii) :
  forallb is_hex [c1; c2; c3] = true ->
  fromHEX (String "#" (String c1 (String c2 (String c3 ""))))
  = mkUColor (F64.of_Z (16 * hex_val c1 + hex_val c2))
             (F64.of_Z (hex_val c3)) nan 1%float.
Proof.
  cbn [forallb]. intros H.
  repeat (apply andb_prop in H; let Hc := fresh "Hc" in destruct H as [Hc H]).
  change (fromHEX (String "#" (String c1 (String c2 (String c3 "")))))
    with (mkUColor (parseInt (String c1 (String c2 "")) 16)
                   (parseInt (String c3 "") 16) (parseInt "" 16) 1%float).
  rewrite parseInt_hex_pair, parseInt_hex_digit by assumption. reflexivity.
Qed.

Lemma fromHEX_shorthand_witness :
  fromHEX "#fa0" = mkUColor 250%float 0%float nan 1%float.
Proof.
  refine (fromHEX_shorthand "f" "a" "0" _). reflexivity.
Defined.

End Hexadecimal.

(** ** Grey levels and greys *)

Lemma luma_byte (x y z : Z) :
  (0 <= x <= 255)%Z -> (0 <= y <= 255)%Z -> (0 <= z <= 255)%Z ->
  exists n, (0 <= n <= 255)%Z /\
    F64.round (luma (F64.of_Z x) (F64.of_Z y) (F64.of_Z z)) = F64.of_Z n.
Proof.
  intros Hx Hy Hz.
  destruct (luma_range x y z Hx Hy Hz) as [Hpos Hhi].
  exact (round_byte _ Hpos Hhi).
Qed.

(** X13: For integer channels from 0 to 255, [etGrayScale] returns on the
    three channels the grey level [Math.round(r * 0.299 + g * 0.587 + b *
    0.114)] and keeps alpha; the grey level is an integer from 0 to 255. *)
Theorem etGrayScale_byte (x y z : Z) (alpha : float) :
  (0 <= x <= 255)%Z -> (0 <= y <= 255)%Z -> (0 <= z <= 255)%Z ->
  let gray :=
    F64.round (F64.of_Z x * F64.of_Q (299 # 1000)
               + F64.of_Z y * F64.of_Q (587 # 1000)
               + F64.of_Z z * F64.of_Q (114 # 1000)) in
  etGrayScale (rgb x y z alpha) = mkUColor gray gray gray alpha /\
  exists n, (0 <= n <= 255)%Z /\ gray = F64.of_Z n.
Proof.
  intros Hx Hy Hz gray. split; [reflexivity|].
  exact (luma_byte x y z Hx Hy Hz).
Qed.

Lemma etGrayScale_byte_witness :
  etGrayScale (rgb 12 34 27 1) = rgb 27 27 27 1.
Proof.
  refine (proj1 (etGrayScale_byte 12 34 27 1 _ _ _)); lia.
Defined.

(** X14: A grey with an integer level from 0 to 255 is its own grey scale. *)
Theorem etGrayScale_gray (v : Z) (alpha : float) :
  (0 <= v <= 255)%Z -> etGrayScale (rgb v v v alpha) = rgb v v v alpha.
Proof.
  intros Hv.
  assert (Hfix : F64.round (luma (F64.of_Z v) (F64.of_Z v) (F64.of_Z v))
                 = F64.of_Z v).
  { apply feq_true. apply (all_below_spec 256 _ gray_fixed_checked).
    simpl; lia. }
  change (etGrayScale (rgb v v v alpha))
    with (let k := F64.round (luma (F64.of_Z v) (F64.of_Z v) (F64.of_Z v)) in
          mkUColor k k k alpha).
  cbv zeta. rewrite Hfix. reflexivity.
Qed.

Lemma etGrayScale_gray_witness :
  etGrayScale (rgb 128 128 128 0.5) = rgb 128 128 128 0.5.
Proof.
  refine (etGrayScale_gray 128 0.5 _); lia.
Defined.

(** *** The palette of a grey *)

(** The colour at a hue rotated by [deg] degrees. *)
Definition rotate_f (deg r g b : float) : RGB float :=
  let hsl := rgbToHsl_f r g b in
  hslToRgb_f (F64.frem (hsl.(h) + deg) 360) hsl.(s) hsl.(l).

Lemma getPalette_f (c : Color) :
  getPalette c
  = [ c;
      (let o := rotate_f 120 c.(r) c.(g) c.(b) in
       mkUColor o.(R) o.(G) o.(B) c.(a));
      (let o := rotate_f 240 c.(r) c.(g) c.(b) in
       mkUColor o.(R) o.(G) o.(B) c.(a)) ].
Proof.
  unfold getPalette, rotate_f. cbv zeta.
  generalize (rgbToHsl_f_eq c). generalize (rgbToHsl_f c.(r) c.(g) c.(b)).
  generalize (rgbToHsl c). intros hsl hsl' ->.
  rewrite !hslToRgb_f_eq. reflexivity.
Qed.

Definition same_gray (x : float) (o : RGB float) : bool :=
  PrimFloat.Leibniz.eqb o.(R) x && PrimFloat.Leibniz.eqb o.(G) x &&
  PrimFloat.Leibniz.eqb o.(B) x.

Definition gray_palette (_ : nat) (x : float) : bool :=
  same_gray x (rotate_f 120 x x x) && same_gray x (rotate_f 240 x x x).

Lemma gray_palette_checked : floop 256 0 (fnat 0) gray_palette = true.
Proof. vm_compute. reflexivity. Qed.

Lemma same_gray_eq (x : float) (o : RGB float) :
  same_gray x o = true -> o = mkRGB x x x.
Proof.
  unfold same_gray. destruct o as [x1 x2 x3]. cbn [R G B]. intros H.
  apply andb_prop in H. destruct H as [H H3].
  apply andb_prop in H. destruct H as [H1 H2].
  apply feq_true in H1, H2, H3. congruence.
Qed.

(** X15: The palette of a grey with an integer level from 0 to 255 holds the
    same grey three times. *)
Theorem getPalette_gray (v : Z) (alpha : float) :
  (0 <= v <= 255)%Z ->
  getPalette (rgb v v v alpha)
  = [rgb v v v alpha; rgb v v v alpha; rgb v v v alpha].
Proof.
  intros Hv. rewrite getPalette_f. unfold rgb. cbn [r g b a].
  rewrite <- (fnat_of_Z v Hv).
  pose proof (floop_spec 256 0 _ gray_palette_checked (Z.to_nat v) ltac:(lia))
    as H.
  unfold gray_palette in H. apply andb_prop in H. destruct H as [H2 H3].
  rewrite (same_gray_eq _ _ H2), (same_gray_eq _ _ H3). reflexivity.
Qed.

Lemma getPalette_gray_witness :
  getPalette (rgb 128 128 128 1)
  = [rgb 128 128 128 1; rgb 128 128 128 1; rgb 128 128 128 1].
Proof.
  refine (getPalette_gray 128 1 _); lia.
Defined.

(** ** The range of [rgbToHsl] on binary64 numbers *)

(** The values the hue takes, before its scaling by 60, for the six orders
    of a largest channel, a smallest channel and a third channel [Xn] (all
    over 255), [d] being the largest minus the smallest. *)
Definition hue_forms (mn d Xn : float) : list float :=
  let u := (Xn - mn) / d in
  let v := (mn - Xn) / d in
  [u + 0; v + (if mn <? Xn then 6 else 0); v + 2; u + 2; v + 4; u + 4].

Lemma hue_of_forms (a b c : nat) :
  (a <= 255)%nat -> (b <= 255)%nat -> (c <= 255)%nat ->
  let cM := Nat.max (Nat.max a b) c in
  let cm := Nat.min (Nat.min a b) c in
  (cm < cM)%nat ->
  exists x, (cm <= x <= cM)%nat /\
    In (hue_of (unit_of cM) (unit_of a) (unit_of b) (unit_of c)
               (unit_of cM - unit_of cm))
       (hue_forms (unit_of cm) (unit_of cM - unit_of cm) (unit_of x)).
Proof.
  intros Ha Hb Hc cM cm Hlt.
  assert (HM : (cM <= 255)%nat) by (unfold cM; lia).
  unfold hue_of, hue_forms. cbv zeta.
  rewrite !unit_eqb, !unit_ltb by lia.
  destruct (Nat.eqb_spec cM a) as [Ea|Na].
  - destruct (Nat.eq_dec c cm) as [Ec|Nc].
    + exists b. split; [unfold cM, cm; lia|].
      destruct (Nat.ltb_spec b c) as [Hbc|_]; [unfold cm in Ec; lia|].
      rewrite Ec. left. reflexivity.
    + assert (Eb : b = cm) by (unfold cM, cm in *; lia).
      exists c. split; [unfold cM, cm; lia|].
      rewrite unit_ltb by lia. rewrite Eb. right. left. reflexivity.
  - destruct (Nat.eqb_spec cM b) as [Eb|Nb].
    + destruct (Nat.eq_dec c cm) as [Ec|Nc].
      * exists a. split; [unfold cM, cm; lia|].
        rewrite Ec. do 2 right. left. reflexivity.
      * assert (Ea : a = cm) by (unfold cM, cm in *; lia).
        exists c. split; [unfold cM, cm; lia|].
        rewrite Ea. do 3 right. left. reflexivity.
    + assert (Ec : cM = c) by (unfold cM, cm in *; lia).
      destruct (Nat.eqb_spec cM c) as [_|Nc]; [|lia].
      destruct (Nat.eq_dec a cm) as [Ea|Na'].
      * exists b. split; [unfold cM, cm; lia|].
        rewrite Ea. do 4 right. left. reflexivity.
      * assert (Eb : b = cm) by (unfold cM, cm in *; lia).
        exists a. split; [unfold cM, cm; lia|].
        rewrite Eb. do 5 right. left. reflexivity.
Qed.

Definition hue_ok (hn : float) : bool :=
  let h := hn * 60 in (0 <=? h) && (h <? 360).

Definition unit_range (v : float) : bool := (0 <=? v) && (v <=? 1).

Definition hues_ok (mn d : float) (_ : nat) (x : float) : bool :=
  forallb hue_ok (hue_forms mn d (x / 255)).

Definition hsl_pair (cm : nat) (m : float) (cM : nat) (M : float) : bool :=
  let Mn := M / 255 in
  let mn := m / 255 in
  unit_range ((Mn + mn) / 2) && unit_range (sat_of Mn mn) &&
  floop (S (cM - cm)) cm m (hues_ok mn (Mn - mn)).

Definition hsl_pairs_from (cm : nat) (m : float) : bool :=
  floop (255 - cm) (S cm) (m + 1) (hsl_pair cm m).

Lemma hsl_checked : floop 255 0 (fnat 0) hsl_pairs_from = true.
Proof. vm_cast_no_check (eq_refl true). Qed.

Definition hsl_gray (_ : nat) (x : float) : bool :=
  unit_range ((x / 255 + x / 255) / 2).

Lemma hsl_gray_checked : floop 256 0 (fnat 0) hsl_gray = true.
Proof. vm_compute. reflexivity. Qed.

Lemma rgbToHsl_f_range (a b c : nat) :
  (a <= 255)%nat -> (b <= 255)%nat -> (c <= 255)%nat ->
  let hsl := rgbToHsl_f (fnat a) (fnat b) (fnat c) in
  (0 <=? hsl.(h)) = true /\ (hsl.(h) <? 360) = true /\
  unit_range hsl.(s) = true /\ unit_range hsl.(l) = true.
Proof.
  intros Ha Hb Hc.
  set (cM := Nat.max (Nat.max a b) c). set (cm := Nat.min (Nat.min a b) c).
  unfold rgbToHsl_f.
  fold (unit_of a). fold (unit_of b). fold (unit_of c). cbv zeta.
  rewrite (unit_max2 a b Ha Hb), (unit_min2 a b Ha Hb).
  rewrite (unit_max2 _ c), (unit_min2 _ c) by lia.
  fold cM. fold cm.
  assert (HM : (cM <= 255)%nat) by (unfold cM; lia).
  rewrite (unit_eqb cM cm) by (unfold cM, cm; lia).
  destruct (Nat.eqb_spec cM cm) as [E|Hne].
  - cbn [h s l]. rewrite E.
    pose proof (floop_spec 256 0 _ hsl_gray_checked cm ltac:(lia)) as H.
    repeat split; exact H.
  - assert (Hlt : (cm < cM)%nat) by (unfold cM, cm in *; lia).
    cbn [h s l].
    assert (Hchk : hsl_pair cm (fnat cm) cM (fnat cM) = true).
    { pose proof (floop_spec 255 0 _ hsl_checked cm ltac:(lia)) as H.
      unfold hsl_pairs_from in H.
      apply (floop_spec (255 - cm) (S cm) _ H cM). lia. }
    unfold hsl_pair in Hchk. fold (unit_of cM) in Hchk.
    fold (unit_of cm) in Hchk. cbv zeta in Hchk.
    apply andb_prop in Hchk. destruct Hchk as [Hchk Hloop].
    apply andb_prop in Hchk. destruct Hchk as [Hl Hs].
    destruct (hue_of_forms a b c Ha Hb Hc Hlt) as (x & Hx & Hin).
    fold cM in Hin, Hx. fold cm in Hin, Hx.
    pose proof (floop_spec _ cm _ Hloop x ltac:(lia)) as Hh.
    unfold hues_ok in Hh. fold (unit_of x) in Hh.
    rewrite forallb_forall in Hh. specialize (Hh _ Hin).
    unfold hue_ok in Hh. apply andb_prop in Hh.
    repeat split; [apply Hh | apply Hh | exact Hs | exact Hl].
Qed.

(** X3: For a colour with integer channels from 0 to 255, [rgbToHsl] returns a
    hue from 0 (included) to 360 (excluded) and a saturation and a lightness
    from 0 to 1. *)
Theorem rgbToHsl_range (x y z : Z) (alpha : float) :
  (0 <= x <= 255)%Z -> (0 <= y <= 255)%Z -> (0 <= z <= 255)%Z ->
  let hsl := rgbToHsl (rgb x y z alpha) in
  (0 <=? hsl.(h)) = true /\ (hsl.(h) <? 360) = true /\
  (0 <=? hsl.(s)) = true /\ (hsl.(s) <=? 1) = true /\
  (0 <=? hsl.(l)) = true /\ (hsl.(l) <=? 1) = true.
Proof.
  intros Hx Hy Hz. rewrite rgbToHsl_f_eq. unfold rgb. cbn [r g b].
  rewrite <- !fnat_of_Z by assumption.
  destruct (rgbToHsl_f_range (Z.to_nat x) (Z.to_nat y) (Z.to_nat z))
    as (H1 & H2 & H3 & H4); try lia.
  unfold unit_range in H3, H4.
  apply andb_prop in H3. apply andb_prop in H4.
  cbv zeta. repeat split; try assumption; [apply H3 | apply H3 | apply H4 | apply H4].
Qed.

Lemma rgbToHsl_range_witness :
  ((rgbToHsl (rgb 12 34 27 1)).(h) <? 360) = true.
Proof.
  refine (proj1 (proj2 (rgbToHsl_range 12 34 27 1 _ _ _))); lia.
Defined.

(** ** From RGB to HSL and back, on binary64 numbers

    [hslToRgb] applied to the result of [rgbToHsl], for the 256^3 colours
    with integer channels from 0 to 255. *)

Definition trip_f (r g b : float) : RGB float :=
  let hsl := rgbToHsl_f r g b in
  hslToRgb_f hsl.(h) hsl.(s) hsl.(l).

(** One order of the channels: [hn] is the hue before its scaling by 60,
    [Er], [Eg], [Eb] the channels of the colour. *)
Definition back (p q qp M m hn Er Eg Eb : float) : bool :=
  let hh := hn * 60 / 360 in
  chk p q qp M m Er (hh + c13) && chk p q qp M m Eg hh &&
  chk p q qp M m Eb (hh - c13).

(** The six orders of ([M], [m], [x]). *)
Definition back_mid (p q qp M m mn d : float) (_ : nat) (x : float) : bool :=
  let Xn := x / 255 in
  let u := (Xn - mn) / d in
  let v := (mn - Xn) / d in
  back p q qp M m (u + 0) M x m &&
  back p q qp M m (v + (if mn <? Xn then 6 else 0)) M m x &&
  back p q qp M m (v + 2) x M m &&
  back p q qp M m (u + 2) m M x &&
  back p q qp M m (v + 4) m x M &&
  back p q qp M m (u + 4) x m M.

Definition back_pair (cm : nat) (m : float) (cM : nat) (M : float) : bool :=
  let Mn := M / 255 in
  let mn := m / 255 in
  let l := (Mn + mn) / 2 in
  let s := sat_of Mn mn in
  if s =? 0 then false
  else
    let q := if l <? 0.5 then l * (1 + s) else l + s - l * s in
    let p := 2 * l - q in
    chan m p && chan M q &&
    floop (S (cM - cm)) cm m (back_mid p q (q - p) M m mn (Mn - mn)).

Definition back_from (cm : nat) (m : float) : bool :=
  floop (255 - cm) (S cm) (m + 1) (back_pair cm m).

Lemma back_checked : floop 255 0 (fnat 0) back_from = true.
Proof. vm_cast_no_check (eq_refl true). Qed.

Lemma back_sound (p q hn : float) (cM cm er eg eb : nat) :
  (cM <= 255)%nat -> (cm <= 255)%nat ->
  (er <= 255)%nat -> (eg <= 255)%nat -> (eb <= 255)%nat ->
  F64.round (q * 255) = fnat cM -> F64.round (p * 255) = fnat cm ->
  back p q (q - p) (fnat cM) (fnat cm) hn (fnat er) (fnat eg) (fnat eb) = true ->
  hsl_levels (hn * 60) p q = mkRGB (fnat er) (fnat eg) (fnat eb).
Proof.
  intros HM Hm Her Heg Heb Hq Hp. unfold back. cbv zeta. intros Hc.
  apply andb_prop in Hc. destruct Hc as [Hc Hb].
  apply andb_prop in Hc. destruct Hc as [Hr Hg].
  unfold hsl_levels.
  rewrite (chk_sound p q cM cm er _ HM Hm Her Hq Hp Hr).
  rewrite (chk_sound p q cM cm eg _ HM Hm Heg Hq Hp Hg).
  rewrite (chk_sound p q cM cm eb _ HM Hm Heb Hq Hp Hb).
  reflexivity.
Qed.

(** The colour [hslToRgb] returns from the largest and smallest channels
    over 255 and the hue before its scaling. *)
Definition trip_of (Mn mn hn : float) : RGB float :=
  hslToRgb_f (hn * 60) (sat_of Mn mn) ((Mn + mn) / 2).

Definition returns (cM cm : nat) (hn : float) (er eg eb : nat) : Prop :=
  trip_of (unit_of cM) (unit_of cm) hn = mkRGB (fnat er) (fnat eg) (fnat eb).

Lemma back_pair_sound (cm cM x : nat) :
  (cm <= x <= cM)%nat -> (cM <= 255)%nat ->
  back_pair cm (fnat cm) cM (fnat cM) = true ->
  let Mn := unit_of cM in
  let mn := unit_of cm in
  let Xn := unit_of x in
  let d := Mn - mn in
  let u := (Xn - mn) / d in
  let v := (mn - Xn) / d in
  returns cM cm (u + 0) cM x cm /\
  returns cM cm (v + (if mn <? Xn then 6 else 0)) cM cm x /\
  returns cM cm (v + 2) x cM cm /\
  returns cM cm (u + 2) cm cM x /\
  returns cM cm (v + 4) cm x cM /\
  returns cM cm (u + 4) x cm cM.
Proof.
  intros Hx HM Hpair Mn mn Xn d u v.
  unfold back_pair in Hpair.
  fold (unit_of cM) in Hpair. fold (unit_of cm) in Hpair.
  fold Mn in Hpair. fold mn in Hpair. cbv zeta in Hpair.
  unfold returns, trip_of, hslToRgb_f. fold Mn. fold mn.
  destruct (sat_of Mn mn =? 0); [discriminate|].
  set (l := (Mn + mn) / 2) in *. set (s := sat_of Mn mn) in *.
  set (q := if l <? 0.5 then l * (1 + s) else l + s - l * s) in *.
  cbv zeta. set (p := 2 * l - q) in *.
  apply andb_prop in Hpair. destruct Hpair as [Hpq Hloop].
  apply andb_prop in Hpq. destruct Hpq as [Hp Hq].
  apply chan_fnat in Hp; [|lia]. apply chan_fnat in Hq; [|lia].
  pose proof (floop_spec _ cm _ Hloop x ltac:(lia)) as Hmid.
  unfold back_mid in Hmid. fold (unit_of x) in Hmid. fold Xn in Hmid.
  fold d in Hmid. fold u in Hmid. fold v in Hmid. cbv zeta in Hmid.
  assert (Hm : (cm <= 255)%nat) by lia.
  do 5 (apply andb_prop in Hmid; destruct Hmid as [Hmid ?]).
  repeat split;
    (apply (back_sound p q _ cM cm);
     [lia | lia | lia | lia | lia | exact Hq | exact Hp | assumption]).
Qed.

Lemma trip_f_chromatic (a b c : nat) :
  (a <= 255)%nat -> (b <= 255)%nat -> (c <= 255)%nat ->
  let cM := Nat.max (Nat.max a b) c in
  let cm := Nat.min (Nat.min a b) c in
  (cm < cM)%nat ->
  trip_f (fnat a) (fnat b) (fnat c)
  = trip_of (unit_of cM) (unit_of cm)
      (hue_of (unit_of cM) (unit_of a) (unit_of b) (unit_of c)
              (unit_of cM - unit_of cm)).
Proof.
  intros Ha Hb Hc cM cm Hlt.
  unfold trip_f, rgbToHsl_f.
  fold (unit_of a). fold (unit_of b). fold (unit_of c). cbv zeta.
  rewrite (unit_max2 a b Ha Hb), (unit_min2 a b Ha Hb).
  rewrite (unit_max2 _ c), (unit_min2 _ c) by lia.
  fold cM. fold cm.
  rewrite (unit_eqb cM cm) by (unfold cM, cm; lia).
  destruct (Nat.eqb_spec cM cm) as [E|_]; [lia|].
  reflexivity.
Qed.

Definition gray_trip (_ : nat) (x : float) : bool :=
  let o := trip_f x x x in
  PrimFloat.Leibniz.eqb o.(R) x && PrimFloat.Leibniz.eqb o.(G) x &&
  PrimFloat.Leibniz.eqb o.(B) x.

Lemma gray_trip_checked : floop 256 0 (fnat 0) gray_trip = true.
Proof. vm_compute. reflexivity. Qed.

Lemma trip_f_gray (a : nat) :
  (a <= 255)%nat ->
  trip_f (fnat a) (fnat a) (fnat a) = mkRGB (fnat a) (fnat a) (fnat a).
Proof.
  intros Ha.
  pose proof (floop_spec 256 0 _ gray_trip_checked a ltac:(lia)) as H.
  unfold gray_trip in H. cbv zeta in H.
  destruct (trip_f (fnat a) (fnat a) (fnat a)) as [x y z].
  cbn [R G B] in H.
  apply andb_prop in H. destruct H as [H Hz].
  apply andb_prop in H. destruct H as [Hx Hy].
  apply feq_true in Hx, Hy, Hz. congruence.
Qed.

Lemma trip_f_identity (a b c : nat) :
  (a <= 255)%nat -> (b <= 255)%nat -> (c <= 255)%nat ->
  trip_f (fnat a) (fnat b) (fnat c) = mkRGB (fnat a) (fnat b) (fnat c).
Proof.
  intros Ha Hb Hc.
  set (cM := Nat.max (Nat.max a b) c). set (cm := Nat.min (Nat.min a b) c).
  destruct (Nat.eq_dec cM cm) as [E|Hne].
  - assert (a = b /\ b = c) as [-> ->] by (unfold cM, cm in E; lia).
    apply trip_f_gray. exact Hc.
  - assert (Hlt : (cm < cM)%nat) by (unfold cM, cm in *; lia).
    rewrite (trip_f_chromatic a b c Ha Hb Hc Hlt). fold cM. fold cm.
    assert (HM : (cM <= 255)%nat) by (unfold cM; lia).
    assert (Hchk : back_pair cm (fnat cm) cM (fnat cM) = true).
    { pose proof (floop_spec 255 0 _ back_checked cm ltac:(lia)) as H.
      unfold back_from in H.
      apply (floop_spec (255 - cm) (S cm) _ H cM). lia. }
    unfold hue_of.
    rewrite !unit_eqb, !unit_ltb by lia.
    destruct (Nat.eqb_spec cM a) as [Ea|Na].
    + (* the red channel is the largest *)
      destruct (Nat.eq_dec c cm) as [Ec|Nc].
      * destruct (back_pair_sound cm cM b ltac:(unfold cM, cm; lia) HM Hchk)
          as (H1 & _).
        unfold returns in H1.
        destruct (Nat.ltb_spec b c) as [Hbc|_]; [unfold cm in Ec; lia|].
        rewrite Ec. rewrite H1. f_equal; f_equal; lia.
      * assert (Eb : b = cm) by (unfold cM, cm in *; lia).
        destruct (back_pair_sound cm cM c ltac:(unfold cM, cm; lia) HM Hchk)
          as (_ & H2 & _).
        unfold returns in H2. rewrite unit_ltb in H2 by lia.
        rewrite Eb. rewrite H2. f_equal; f_equal; lia.
    + destruct (Nat.eqb_spec cM b) as [Eb|Nb].
      * (* the green channel is the largest *)
        destruct (Nat.eq_dec c cm) as [Ec|Nc].
        -- destruct (back_pair_sound cm cM a ltac:(unfold cM, cm; lia) HM Hchk)
             as (_ & _ & H3 & _).
           unfold returns in H3.
           rewrite Ec. rewrite H3. f_equal; f_equal; lia.
        -- assert (Ea : a = cm) by (unfold cM, cm in *; lia).
           destruct (back_pair_sound cm cM c ltac:(unfold cM, cm; lia) HM Hchk)
             as (_ & _ & _ & H4 & _).
           unfold returns in H4.
           rewrite Ea. rewrite H4. f_equal; f_equal; lia.
      * (* the blue channel is the largest *)
        assert (Ec : cM = c) by (unfold cM, cm in *; lia).
        destruct (Nat.eqb_spec cM c) as [_|Nc]; [|lia].
        destruct (Nat.eq_dec a cm) as [Ea|Na'].
        -- destruct (back_pair_sound cm cM b ltac:(unfold cM, cm; lia) HM Hchk)
             as (_ & _ & _ & _ & H5 & _).
           unfold returns in H5.
           rewrite Ea. rewrite H5. f_equal; f_equal; lia.
        -- assert (Eb : b = cm) by (unfold cM, cm in *; lia).
           destruct (back_pair_sound cm cM a ltac:(unfold cM, cm; lia) HM Hchk)
             as (_ & _ & _ & _ & _ & H6).
           unfold returns in H6.
           rewrite Eb. rewrite H6. f_equal; f_equal; lia.
Qed.

(** X22: For every colour with integer channels from 0 to 255, [hslToRgb]
    applied to the hue, the saturation and the lightness that [rgbToHsl]
    returns gives back the three channels, on binary64 numbers. *)
Theorem hslToRgb_rgbToHsl (x y z : Z) (alpha : float) :
  (0 <= x <= 255)%Z -> (0 <= y <= 255)%Z -> (0 <= z <= 255)%Z ->
  let hsl := rgbToHsl (rgb x y z alpha) in
  hslToRgb hsl.(h) hsl.(s) hsl.(l)
  = mkRGB (F64.of_Z x) (F64.of_Z y) (F64.of_Z z).
Proof.
  intros Hx Hy Hz. cbv zeta.
  rewrite hslToRgb_f_eq, rgbToHsl_f_eq. unfold rgb. cbn [r g b].
  rewrite <- !fnat_of_Z by assumption.
  apply (trip_f_identity (Z.to_nat x) (Z.to_nat y) (Z.to_nat z)); lia.
Qed.

Lemma hslToRgb_rgbToHsl_witness :
  (let hsl := rgbToHsl (rgb 12 34 27 1) in hslToRgb hsl.(h) hsl.(s) hsl.(l))
  = mkRGB 12 34 27.
Proof.
  refine (hslToRgb_rgbToHsl 12 34 27 1 _ _ _); lia.
Defined.

(** ** Random colours

    A number of [0, 1) times 256 is computed exactly, and its floor is an
    integer from 0 to 255. *)

(** *** Shifting a mantissa to the right *)

Lemma iter_pos_nat {A : Type} (f : A -> A) (p : positive) (x : A) :
  iter_pos f p x = Nat.iter (Pos.to_nat p) f x.
Proof.
  revert x. induction p as [p IH|p IH|]; intros x; cbn [iter_pos].
  - rewrite !IH, Pos2Nat.inj_xI.
    replace (S (2 * Pos.to_nat p))
      with (Pos.to_nat p + (Pos.to_nat p + 1))%nat by lia.
    rewrite !Nat.iter_add. reflexivity.
  - rewrite !IH, Pos2Nat.inj_xO.
    replace (2 * Pos.to_nat p)%nat
      with (Pos.to_nat p + Pos.to_nat p)%nat by lia.
    rewrite Nat.iter_add. reflexivity.
  - reflexivity.
Qed.

Lemma shr_1_even (k : nat) (a : positive) :
  Nat.iter k shr_1 (Build_shr_record (Zpos (Nat.iter k xO a)) false false)
  = Build_shr_record (Zpos a) false false.
Proof.
  induction k as [|k IH]; [reflexivity|].
  rewrite Nat.iter_succ_r. cbn [Nat.iter shr_1 orb]. exact IH.
Qed.

Lemma shr_even (k : nat) (a : positive) (e : Z) :
  (0 < k)%nat ->
  shr (Build_shr_record (Zpos (Nat.iter k xO a)) false false) e (Z.of_nat k)
  = (Build_shr_record (Zpos a) false false, (e + Z.of_nat k)%Z).
Proof.
  intros Hk. unfold shr.
  destruct (Z.of_nat k) as [|p|p] eqn:E; try lia.
  rewrite iter_pos_nat.
  replace (Pos.to_nat p) with k by lia.
  rewrite shr_1_even. reflexivity.
Qed.

Lemma digits2_pos_xO (k : nat) (a : positive) :
  Zpos (digits2_pos (Nat.iter k xO a)) = (Zpos (digits2_pos a) + Z.of_nat k)%Z.
Proof.
  induction k as [|k IH]; [cbn; lia|].
  rewrite Nat.iter_succ. cbn [digits2_pos].
  rewrite Pos2Z.inj_succ, IH, Nat2Z.inj_succ. lia.
Qed.

Lemma Zpos_xO (k : nat) (a : positive) :
  Zpos (Nat.iter k xO a) = (Zpos a * 2 ^ Z.of_nat k)%Z.
Proof.
  induction k as [|k IH]; [cbn; lia|].
  rewrite Nat.iter_succ, Pos2Z.inj_xO, IH, Nat2Z.inj_succ, Z.pow_succ_r by lia.
  ring.
Qed.

Lemma mul_pow52 (m : positive) :
  Pos.mul m 4503599627370496 = Nat.iter 52 xO m.
Proof.
  apply Pos2Z.inj. rewrite Zpos_xO, Pos2Z.inj_mul. reflexivity.
Qed.

(** *** The product by 256 *)

Lemma SFmul_256 (m : positive) (e : Z) :
  valid_binary (S754_finite false m e) = true ->
  (Zpos (digits2_pos m) + e <= 0)%Z ->
  exists m' e',
    SFmul prec emax (S754_finite false m e)
                    (S754_finite false 4503599627370496 (-44))
    = S754_finite false m' e' /\
    (Zpos m' * 2 ^ (e' + 1074) = 256 * (Zpos m * 2 ^ (e + 1074)))%Z /\
    (-1074 <= e')%Z.
Proof.
  intros V Hlt.
  cbn [SpecFloat.valid_binary] in V.
  unfold bounded, canonical_mantissa, fexp, SpecFloat.emin, emax, prec in V.
  apply andb_prop in V. destruct V as [Hc He].
  apply Z.eqb_eq in Hc. apply Z.leb_le in He.
  set (D := Zpos (digits2_pos m)) in *.
  assert (HD : (1 <= D)%Z) by (unfold D; lia).
  set (e1 := Z.max (D + e - 45) (-1074)).
  set (n := (e1 - (e - 44))%Z).
  assert (Hn : (44 <= n <= 52)%Z) by (unfold n, e1; lia).
  set (k := Z.to_nat n).
  assert (Hk : (0 < k <= 52)%nat) by (unfold k; lia).
  set (a := Nat.iter (52 - k) xO m).
  assert (Ea : Nat.iter 52 xO m = Nat.iter k xO a).
  { unfold a. rewrite <- Nat.iter_add. f_equal. lia. }
  assert (Da : Zpos (digits2_pos a) = (D + 52 - n)%Z).
  { unfold a. rewrite digits2_pos_xO. fold D. unfold k. lia. }
  exists a, e1.
  split; [|split].
  - cbn [SFmul xorb]. rewrite mul_pow52. unfold binary_round_aux.
    assert (S1 : shr_fexp prec emax (Zpos (Nat.iter 52 xO m)) (e + -44)
                          loc_Exact
                 = (Build_shr_record (Zpos a) false false, e1)).
    { unfold shr_fexp, fexp, SpecFloat.emin, emax, prec.
      cbn [Zdigits2 shr_record_of_loc].
      rewrite digits2_pos_xO. fold D.
      replace (Z.max (D + Z.of_nat 52 + (e + -44) - 53) (3 - 1024 - 53)
               - (e + -44))%Z with (Z.of_nat k) by (unfold k, n, e1; lia).
      rewrite Ea, (shr_even k a _ (proj1 Hk)).
      f_equal. unfold k, n. lia. }
    rewrite S1. cbn [shr_m loc_of_shr_record round_nearest_even].
    assert (S2 : shr_fexp prec emax (Zpos a) e1 loc_Exact
                 = (Build_shr_record (Zpos a) false false, e1)).
    { unfold shr_fexp, fexp, SpecFloat.emin, emax, prec.
      cbn [Zdigits2 shr_record_of_loc]. rewrite Da.
      replace (Z.max (D + 52 - n + e1 - 53) (3 - 1024 - 53) - e1)%Z with 0%Z
        by (unfold n, e1; lia).
      reflexivity. }
    rewrite S2. cbn [shr_m].
    unfold emax, prec.
    destruct (Z.leb_spec e1 (1024 - 53)) as [_|Hgt]; [reflexivity|].
    unfold e1 in Hgt. lia.
  - unfold a. rewrite Zpos_xO.
    replace (Z.of_nat (52 - k)) with (52 - n)%Z by (unfold k; lia).
    assert (He0 : (0 <= e + 1074)%Z) by lia.
    assert (He1 : (0 <= e1 + 1074)%Z) by (unfold e1; lia).
    rewrite <- Z.mul_assoc, <- (Z.pow_add_r 2 (52 - n) (e1 + 1074)) by lia.
    replace (52 - n + (e1 + 1074))%Z with (8 + (e + 1074))%Z
      by (unfold n; lia).
    rewrite (Z.pow_add_r 2 8 (e + 1074)) by lia.
    change (2 ^ 8)%Z with 256%Z. ring.
  - unfold e1. lia.
Qed.

(** *** The floor of a number below 256 *)

Lemma SFfloor_byte (m : positive) (e : Z) :
  valid_binary (S754_finite false m e) = true ->
  (Zpos m * 2 ^ (e + 1074) < 256 * 2 ^ 1074)%Z ->
  exists n, (0 <= n <= 255)%Z /\
    F64.SFfloor (S754_finite false m e)
    = (if (n =? 0)%Z then S754_zero false
       else binary_normalize prec emax n 0 false) /\
    (n * 2 ^ 1074 <= Zpos m * 2 ^ (e + 1074) < (n + 1) * 2 ^ 1074)%Z.
Proof.
  intros V Hr.
  pose proof (valid_finite _ _ _ V) as (He & Hm & Hnorm).
  pose proof (pow2_pos (e + 1074) ltac:(lia)) as HP.
  assert (Hneg : (e < 0)%Z).
  { destruct (Z.ltb_spec e 0) as [|Hge]; [assumption|exfalso].
    specialize (Hnorm ltac:(lia)).
    assert (HA : (2 ^ 1074 <= 2 ^ (e + 1074))%Z)
      by (apply Z.pow_le_mono_r; lia).
    change (2 ^ 52)%Z with 4503599627370496%Z in Hnorm.
    set (W := (2 ^ 1074)%Z) in *. set (A := (2 ^ (e + 1074))%Z) in *.
    assert (HW : (0 < W)%Z) by (apply pow2_pos; lia).
    clearbody W A. nia. }
  unfold F64.SFfloor.
  destruct (Z.leb_spec 0 e) as [|_]; [lia|].
  cbn [cond_Zopp].
  pose proof (pow2_pos (- e) ltac:(lia)) as HB.
  assert (E : (2 ^ 1074 = 2 ^ (- e) * 2 ^ (e + 1074))%Z).
  { rewrite <- Z.pow_add_r by lia. f_equal. lia. }
  rewrite E in Hr. rewrite E.
  set (Bk := (2 ^ (- e))%Z) in *. set (A := (2 ^ (e + 1074))%Z) in *.
  clearbody Bk A.
  set (n := (Zpos m / Bk)%Z).
  assert (Hn : (0 <= n <= 255)%Z).
  { unfold n. split; [apply Z.div_pos; lia|].
    assert (Zpos m / Bk < 256)%Z; [|lia].
    apply Z.div_lt_upper_bound; [lia|]. nia. }
  exists n. split; [exact Hn|]. split; [reflexivity|].
  pose proof (Z.mul_div_le (Zpos m) Bk HB) as Hlo.
  pose proof (Z.mul_succ_div_gt (Zpos m) Bk HB) as Hhi.
  fold n in Hlo, Hhi. nia.
Qed.

(** A number [Math.random] may return: from 0 (included) to 1 (excluded),
    and not the negative zero. *)
Definition unit_draw (u : float) : bool :=
  (0 <=? u) && (u <? 1) && negb (F64.is_neg_zero u).

(** The floor of 256 times a number of [0, 1) is the integer [n] with
    [n <= 256 u < n + 1], [u] being read exactly (in units of [2^-1074]). *)
Lemma floor_draw (u : float) :
  unit_draw u = true ->
  exists n, (0 <= n <= 255)%Z /\ F64.floor (u * 256) = F64.of_Z n /\
    (n * 2 ^ 1074 <= 256 * fscaled u < (n + 1) * 2 ^ 1074)%Z.
Proof.
  unfold unit_draw. intros H.
  apply andb_prop in H. destruct H as [H Hz].
  apply andb_prop in H. destruct H as [H0 H1].
  apply negb_true_iff in Hz.
  destruct (small_scaled 0 0 eq_refl) as [F0 S0].
  destruct (small_scaled 1 (2 ^ 53) eq_refl) as [F1 S1].
  destruct (between_finite 0 1 u F0 F1 H0 H1) as [Fu Hs].
  rewrite S0, S1 in Hs.
  change (2 ^ 53 * 2 ^ 1021)%Z with (2 ^ 1074)%Z in Hs.
  pose proof (Prim2SF_valid u) as Vu.
  pose proof (Prim2SF_valid (u * 256)) as Vw.
  unfold F64.floor. rewrite FloatAxioms.mul_spec in *.
  unfold F64.is_neg_zero in Hz. unfold ffinite, fscaled in *.
  change (Prim2SF 256) with (S754_finite false 4503599627370496 (-44)) in *.
  destruct (Prim2SF u) as [[|]| | |su m e]; try discriminate.
  - exists 0%Z. split; [lia|]. split; [reflexivity|].
    unfold scaled. pose proof (pow2_pos 1074 ltac:(lia)). lia.
  - pose proof (valid_finite _ _ _ Vu) as (He & _).
    pose proof (scaled_pos m e ltac:(lia)) as Hpos.
    destruct su; [unfold scaled, cond_Zopp in Hs; lia|].
    unfold scaled, cond_Zopp in Hs.
    assert (HD : (Zpos (digits2_pos m) + e <= 0)%Z).
    { pose proof (digits2_pos_bounds m) as [Hlo _].
      set (D := Zpos (digits2_pos m)) in *.
      destruct (Z.le_gt_cases (D + e) 0) as [|Hgt]; [assumption|exfalso].
      assert (HA : (2 ^ 1074 <= 2 ^ (D - 1 + (e + 1074)))%Z)
        by (apply Z.pow_le_mono_r; lia).
      rewrite Z.pow_add_r in HA by (unfold D; lia).
      pose proof (pow2_pos (e + 1074) ltac:(lia)) as HP.
      set (W := (2 ^ 1074)%Z) in *. set (A := (2 ^ (e + 1074))%Z) in *.
      set (B := (2 ^ (D - 1))%Z) in *. clearbody W A B. nia. }
    destruct (SFmul_256 m e Vu HD) as (m' & e' & Em & Ev & He').
    unfold SF64mul in *. rewrite Em in *.
    destruct (SFfloor_byte m' e' Vw) as (n & Hn & Hf & Hv).
    { rewrite Ev. set (W := (2 ^ 1074)%Z) in *.
      set (A := (Zpos m * 2 ^ (e + 1074))%Z) in *. clearbody W A. lia. }
    exists n. split; [exact Hn|]. split.
    + rewrite Hf. apply (byte_facts n Hn).
    + rewrite Ev in Hv. unfold scaled, cond_Zopp. exact Hv.
Qed.

(** X21: The channels of [random] are [Math.floor] of 256 times the numbers
    drawn, in the order of the draws: the first three when alpha is given, the
    three after the one used for alpha ([Math.round(Math.random() * 1000) /
    1000]) when it is not. Whatever number [u] of [0, 1) is drawn,
    [Math.floor(u * 256)] is the integer [n] from 0 to 255 with [n <= 256 u <
    n + 1]. *)
Theorem random_channels (a : option float) (rnd : nat -> float) :
  (forall i, unit_draw (rnd i) = true) ->
  random a rnd
  = match a with
    | Some v =>
        mkUColor (F64.floor (rnd 0%nat * 256)) (F64.floor (rnd 1%nat * 256))
                 (F64.floor (rnd 2%nat * 256)) v
    | None =>
        mkUColor (F64.floor (rnd 1%nat * 256)) (F64.floor (rnd 2%nat * 256))
                 (F64.floor (rnd 3%nat * 256))
                 (F64.round (rnd 0%nat * 1000) / 1000)
    end /\
  forall i, exists n,
    (0 <= n <= 255)%Z /\ F64.floor (rnd i * 256) = F64.of_Z n /\
    (n * 2 ^ 1074 <= 256 * fscaled (rnd i) < (n + 1) * 2 ^ 1074)%Z.
Proof.
  intros Hrnd. split.
  - destruct a; reflexivity.
  - intros i. exact (floor_draw _ (Hrnd i)).
Qed.

Lemma random_channels_witness :
  random None (fun _ => 0.5) = rgb 128 128 128 0.5.
Proof.
  refine (proj1 (random_channels None (fun _ => 0.5) _)). reflexivity.
Defined.

(** ** Rounding errors

    The result of a binary64 operation, compared with the exact result: a
    bound on the error that follows from the definition of rounding. *)

Section RoundingError.

Local Open Scope Z_scope.

(** *** Shifting to the right divides the mantissa *)

Lemma shr_1_m (mrs : shr_record) :
  0 <= shr_m mrs -> shr_m (shr_1 mrs) = shr_m mrs / 2.
Proof.
  destruct mrs as [m r s]. cbn [shr_m]. intros Hm.
  destruct m as [|[p|p|]|]; cbn [shr_1 shr_m];
    first [ reflexivity
          | apply Z.div_unique with (r := 1); lia
          | apply Z.div_unique with (r := 0); lia
          | lia ].
Qed.

Lemma shr_1_nonneg (mrs : shr_record) : 0 <= shr_m mrs -> 0 <= shr_m (shr_1 mrs).
Proof.
  intros H. rewrite shr_1_m by exact H. apply Z.div_pos; lia.
Qed.

Lemma shr_iter_m (k : nat) (mrs : shr_record) :
  0 <= shr_m mrs ->
  shr_m (Nat.iter k shr_1 mrs) = shr_m mrs / 2 ^ Z.of_nat k.
Proof.
  intros Hm. induction k as [|k IH].
  - cbn. rewrite Z.div_1_r. reflexivity.
  - rewrite Nat.iter_succ.
    assert (Hk : 0 <= shr_m (Nat.iter k shr_1 mrs)).
    { rewrite IH. apply Z.div_pos; [lia | apply pow2_pos; lia]. }
    rewrite shr_1_m by exact Hk. rewrite IH.
    rewrite Z.div_div by (try apply pow2_pos; lia).
    rewrite Nat2Z.inj_succ, Z.pow_succ_r by lia.
    f_equal. ring.
Qed.

Lemma fexp_eq (z : Z) : fexp prec emax z = Z.max (z - 53) (-1074).
Proof. reflexivity. Qed.

(** [shr_fexp] brings the exponent to [max e (fexp (digits m + e))] and
    divides the mantissa accordingly. *)
Lemma shr_fexp_spec (m e : Z) (l : location) :
  0 <= m ->
  let e' := Z.max e (fexp prec emax (Zdigits2 m + e)) in
  exists mrs,
    shr_fexp prec emax m e l = (mrs, e') /\
    shr_m mrs = m / 2 ^ (e' - e) /\
    (e' = e -> mrs = shr_record_of_loc m l).
Proof.
  intros Hm e'. unfold shr_fexp, shr.
  set (f := fexp prec emax (Zdigits2 m + e)) in *.
  assert (Hrec : shr_m (shr_record_of_loc m l) = m)
    by (destruct l as [|[| |]]; reflexivity).
  destruct (f - e) as [|p|p] eqn:E.
  - exists (shr_record_of_loc m l).
    replace e' with e by (unfold e'; lia).
    rewrite Z.sub_diag, Z.div_1_r. repeat split. exact Hrec.
  - exists (iter_pos shr_1 p (shr_record_of_loc m l)).
    replace e' with (e + Zpos p) by (unfold e'; lia).
    split; [reflexivity|]. split; [|lia].
    rewrite iter_pos_nat, shr_iter_m by (rewrite Hrec; exact Hm).
    rewrite Hrec, positive_nat_Z. f_equal. f_equal. lia.
  - exists (shr_record_of_loc m l).
    replace e' with e by (unfold e'; lia).
    rewrite Z.sub_diag, Z.div_1_r. repeat split. exact Hrec.
Qed.

Lemma round_nearest_even_bounds (m : Z) (l : location) :
  m <= round_nearest_even m l <= m + 1.
Proof.
  unfold round_nearest_even.
  destruct l as [|[| |]]; try destruct (Z.even m); lia.
Qed.

Lemma Zdigits2_bounds (m : Z) :
  0 < m -> 2 ^ (Zdigits2 m - 1) <= m < 2 ^ Zdigits2 m.
Proof.
  destruct m as [|p|p]; try lia. intros _. apply digits2_pos_bounds.
Qed.

Lemma Zdigits2_nonneg (m : Z) : 0 <= Zdigits2 m.
Proof. destruct m; cbn; lia. Qed.

Lemma Zdigits2_le (m : Z) (k : Z) : 0 <= k -> 0 <= m < 2 ^ k -> Zdigits2 m <= k.
Proof.
  intros Hk [H0 Hm].
  destruct (Z.eq_dec m 0) as [->|Hne]; [cbn; lia|].
  destruct (Zdigits2_bounds m ltac:(lia)) as [Hlo _].
  destruct (Z.le_gt_cases (Zdigits2 m) k) as [|Hgt]; [assumption|exfalso].
  assert (2 ^ k <= 2 ^ (Zdigits2 m - 1)) by (apply Z.pow_le_mono_r; lia).
  lia.
Qed.

Lemma Zdigits2_ge (m : Z) (k : Z) : 0 <= k -> 2 ^ k <= m -> k + 1 <= Zdigits2 m.
Proof.
  intros Hk Hm.
  assert (H2 : 0 < 2 ^ k) by (apply pow2_pos; lia).
  destruct (Zdigits2_bounds m ltac:(lia)) as [_ Hhi].
  destruct (Z.le_gt_cases (k + 1) (Zdigits2 m)) as [|Hgt]; [assumption|exfalso].
  assert (2 ^ Zdigits2 m <= 2 ^ k).
  { apply Z.pow_le_mono_r; [lia|]. lia. }
  lia.
Qed.

(** *** The rounding of [m * 2^e]

    The result [mr * 2^er] is within [2^er] of [m * 2^e]; it is exact when
    the exponent is kept and nothing was lost before, and otherwise [2^er]
    is either [2^-1074] or at most [m * 2^e / 2^51]. *)
Lemma round_aux_spec (sx : bool) (m e : Z) (l : location) :
  0 <= m -> e <= 971 -> Zdigits2 m + e <= 1023 ->
  exists mr er,
    binary_round_aux prec emax sx m e l
    = (if mr =? 0 then S754_zero sx else S754_finite sx (Z.to_pos mr) er) /\
    0 <= mr /\ e <= er /\ -1074 <= er <= 971 /\
    m - 2 ^ (er - e) < mr * 2 ^ (er - e) <= m + 2 ^ (er - e) /\
    (er = e -> l = loc_Exact -> mr = m) /\
    (er = e \/ er = -1074 \/ 2 ^ (er - e) * 2 ^ 51 <= m).
Proof.
  intros Hm He Hd.
  set (d := Zdigits2 m) in *.
  assert (Hd0 : 0 <= d) by apply Zdigits2_nonneg.
  destruct (shr_fexp_spec m e l Hm) as (mrs1 & S1 & M1 & X1).
  fold d in S1, M1, X1. rewrite fexp_eq in S1, M1, X1.
  set (e1 := Z.max e (Z.max (d + e - 53) (-1074))) in *.
  set (k1 := e1 - e) in *.
  assert (Hk1 : 0 <= k1) by (unfold k1, e1; lia).
  assert (P1 : 0 < 2 ^ k1) by (apply pow2_pos; lia).
  set (m1 := m / 2 ^ k1) in *.
  assert (Hm1 : 0 <= m1) by (apply Z.div_pos; lia).
  assert (Hdiv1 : m1 * 2 ^ k1 <= m < (m1 + 1) * 2 ^ k1).
  { unfold m1. split.
    - rewrite Z.mul_comm. apply Z.mul_div_le. lia.
    - rewrite Z.mul_comm. apply Z.mul_succ_div_gt. lia. }
  (* the truncated mantissa has at most 53 bits *)
  assert (B1 : m1 < 2 ^ 53).
  { destruct (Z.eq_dec m 0) as [E0|Hne].
    - unfold m1. rewrite E0, Z.div_0_l by lia. reflexivity.
    - destruct (Zdigits2_bounds m ltac:(lia)) as [_ Hhi]. fold d in Hhi.
      assert (2 ^ d <= 2 ^ (k1 + 53)).
      { apply Z.pow_le_mono_r; [lia|]. unfold k1, e1. lia. }
      rewrite Z.pow_add_r in H by lia.
      apply Z.div_lt_upper_bound; [lia|]. lia. }
  unfold binary_round_aux. rewrite S1.
  set (m1' := round_nearest_even (shr_m mrs1) (loc_of_shr_record mrs1)).
  assert (R1 : m1 <= m1' <= m1 + 1).
  { unfold m1'. rewrite M1. apply round_nearest_even_bounds. }
  assert (Hm1' : 0 <= m1') by lia.
  destruct (shr_fexp_spec m1' e1 loc_Exact Hm1') as (mrs2 & S2 & M2 & _).
  rewrite fexp_eq in S2, M2.
  set (d' := Zdigits2 m1') in *.
  assert (Hd' : d' <= 54).
  { apply Zdigits2_le; [lia|]. change (2 ^ 54) with (2 * 2 ^ 53). lia. }
  assert (Hd'0 : 0 <= d') by apply Zdigits2_nonneg.
  set (e2 := Z.max e1 (Z.max (d' + e1 - 53) (-1074))) in *.
  rewrite S2.
  assert (He1 : -1074 <= e1) by (unfold e1; lia).
  (* the second truncation loses nothing *)
  assert (K2 : e2 = e1 /\ shr_m mrs2 = m1' \/
               e2 = e1 + 1 /\ m1' = 2 ^ 53 /\ shr_m mrs2 = 2 ^ 52).
  { destruct (Z.eq_dec m1' (2 ^ 53)) as [E53|N53].
    - right.
      assert (d' = 54).
      { assert (54 <= d'); [|lia].
        apply (Zdigits2_ge m1' 53); lia. }
      assert (e2 = e1 + 1) by (unfold e2; lia).
      split; [assumption|]. split; [assumption|].
      rewrite M2. replace (e2 - e1) with 1 by lia. rewrite E53. reflexivity.
    - left.
      assert (d' <= 53) by (apply Zdigits2_le; lia).
      assert (e2 = e1) by (unfold e2; lia).
      split; [assumption|].
      rewrite M2. replace (e2 - e1) with 0 by lia. apply Z.div_1_r. }
  set (m2 := shr_m mrs2) in *.
  assert (Hm2 : 0 <= m2) by (destruct K2 as [[_ ->]|(_ & _ & ->)]; lia).
  assert (V2 : m2 * 2 ^ (e2 - e1) = m1').
  { destruct K2 as [[-> ->]|(-> & -> & ->)].
    - rewrite Z.sub_diag. lia.
    - replace (e1 + 1 - e1) with 1 by lia. reflexivity. }
  assert (Hk2 : 0 <= e2 - e1 <= 1) by (destruct K2 as [[-> _]|(-> & _)]; lia).
  (* no overflow *)
  assert (He2 : e2 <= 971).
  { destruct K2 as [[-> _]|(-> & E53 & _)].
    - unfold e1. lia.
    - assert (2 ^ 52 <= m1) by (change (2 ^ 53) with (2 * 2 ^ 52) in E53; lia).
      assert (Hge : 2 ^ (52 + k1) <= m).
      { rewrite Z.pow_add_r by lia. nia. }
      assert (52 + k1 + 1 <= d) by (apply Zdigits2_ge; lia).
      unfold k1 in *. lia. }
  exists m2, e2.
  split.
  { destruct m2 as [|p|p] eqn:Em2; [reflexivity| |lia].
    cbn [Z.eqb Z.to_pos].
    unfold emax, prec.
    destruct (Z.leb_spec e2 (1024 - 53)) as [_|Hgt]; [reflexivity|lia]. }
  split; [exact Hm2|]. split; [lia|]. split; [lia|].
  assert (Epow : 2 ^ (e2 - e) = 2 ^ (e2 - e1) * 2 ^ k1).
  { rewrite <- Z.pow_add_r by lia. f_equal. unfold k1. lia. }
  assert (P2 : 1 <= 2 ^ (e2 - e1)).
  { destruct K2 as [[-> _]|(-> & _)].
    - rewrite Z.sub_diag. reflexivity.
    - replace (e1 + 1 - e1) with 1 by lia. cbn. lia. }
  split.
  { rewrite Epow, Z.mul_assoc, V2.
    set (A := 2 ^ k1) in *. set (C := 2 ^ (e2 - e1)) in *.
    clearbody A C m1 m1' m2. nia. }
  split.
  { intros Ee Hl.
    assert (E1 : e1 = e) by lia.
    assert (E21 : e2 = e1) by lia.
    assert (Em1 : m1' = m).
    { unfold m1'. rewrite (X1 E1), Hl. reflexivity. }
    rewrite E21, Z.sub_diag, Em1 in V2. lia. }
  { destruct (Z.eq_dec e2 e) as [|Hne]; [left; assumption|right].
    destruct (Z.eq_dec e2 (-1074)) as [|Hne2]; [left; assumption|right].
    rewrite Epow.
    destruct K2 as [[E21 _]|(E21 & E53 & _)].
    - rewrite E21, Z.sub_diag. change (2 ^ 0) with 1. rewrite Z.mul_1_l.
      assert (Ek1 : k1 = d - 53) by (unfold k1, e1 in *; lia).
      assert (Hmpos : 0 < m).
      { destruct (Z.eq_dec m 0) as [E0|]; [|lia].
        unfold d in Ek1. rewrite E0 in Ek1. cbn in Ek1. lia. }
      destruct (Zdigits2_bounds m Hmpos) as [Hlo _]. fold d in Hlo.
      rewrite <- Z.pow_add_r by lia.
      replace (k1 + 51) with (d - 1 - 1) by lia.
      apply Z.le_trans with (2 := Hlo).
      apply Z.pow_le_mono_r; lia.
    - replace (e2 - e1) with 1 by lia.
      assert (2 ^ 52 <= m1) by (change (2 ^ 53) with (2 * 2 ^ 52) in E53; lia).
      change (2 ^ 1) with 2. change (2 ^ 51) with 2251799813685248.
      change (2 ^ 52) with 4503599627370496 in H.
      set (A := 2 ^ k1) in *. clearbody A m1. nia. }
Qed.

(** The same in units of [2^-S], for an exact input: [N] is the exact value
    and [Ra] the magnitude of the result in units of [2^-1074]. *)
Lemma round_aux_scaled (sx : bool) (m e S : Z) :
  0 <= m -> e <= 971 -> 0 <= e + S -> 1074 <= S ->
  m * 2 ^ (e + S) < 2 ^ (1022 + S) ->
  let N := m * 2 ^ (e + S) in
  let D := 2 ^ (S - 1074) in
  let r := binary_round_aux prec emax sx m e loc_Exact in
  exists Ra,
    finite r = true /\ scaled r = cond_Zopp sx Ra /\ 0 <= Ra /\
    - (2 ^ 51 * D + N) <= 2 ^ 51 * (Ra * D - N) <= 2 ^ 51 * D + N.
Proof.
  intros Hm He HS HS' Hmag N D r.
  assert (PG : 0 < 2 ^ (e + S)) by (apply pow2_pos; lia).
  assert (PD : 0 < D) by (apply pow2_pos; lia).
  assert (Hdig : Zdigits2 m + e <= 1023).
  { destruct (Z.eq_dec m 0) as [->|Hne]; [cbn; lia|].
    destruct (Zdigits2_bounds m ltac:(lia)) as [Hlo _].
    pose proof (Zdigits2_nonneg m) as Hd0.
    destruct (Z.le_gt_cases (Zdigits2 m + e) 1023) as [|Hgt]; [assumption|].
    exfalso.
    assert (2 ^ (1022 + S) <= 2 ^ (Zdigits2 m - 1 + (e + S)))
      by (apply Z.pow_le_mono_r; lia).
    rewrite (Z.pow_add_r 2 (Zdigits2 m - 1) (e + S)) in H by lia.
    set (A := 2 ^ (Zdigits2 m - 1)) in *. set (G := 2 ^ (e + S)) in *.
    clearbody A G. nia. }
  destruct (round_aux_spec sx m e loc_Exact Hm He Hdig)
    as (mr & er & Er & Hmr & Hee & Her & Hv & Hx & Hc).
  fold r in Er.
  set (K := er - e) in *.
  assert (PT : 0 < 2 ^ K) by (apply pow2_pos; unfold K; lia).
  assert (PR : 0 < 2 ^ (er + 1074)) by (apply pow2_pos; lia).
  exists (mr * 2 ^ (er + 1074)).
  assert (ED : 2 ^ (er + 1074) * D = 2 ^ K * 2 ^ (e + S)).
  { unfold D. rewrite <- !Z.pow_add_r by (unfold K; lia).
    f_equal. unfold K. lia. }
  split; [|split; [|split]].
  - rewrite Er. destruct (mr =? 0); reflexivity.
  - rewrite Er. destruct (Z.eqb_spec mr 0) as [->|Hne].
    + cbn. destruct sx; reflexivity.
    + unfold scaled. rewrite Z2Pos.id by lia. reflexivity.
  - apply Z.mul_nonneg_nonneg; lia.
  - rewrite <- Z.mul_assoc, ED. unfold N.
    destruct Hc as [E0|[E1|Hrel]].
    + assert (mr = m) by (apply Hx; [exact E0 | reflexivity]).
      assert (K = 0) by (unfold K; lia).
      subst mr. rewrite H0. change (2 ^ 0) with 1.
      set (G := 2 ^ (e + S)) in *. set (P := 2 ^ 51) in *.
      assert (0 < P) by reflexivity.
      clearbody G P D. nia.
    + assert (EG : 2 ^ K * 2 ^ (e + S) = D).
      { rewrite <- ED, E1. change (-1074 + 1074) with 0.
        change (2 ^ 0) with 1. lia. }
      set (G := 2 ^ (e + S)) in *. set (T := 2 ^ K) in *.
      set (P := 2 ^ 51) in *. assert (0 < P) by reflexivity.
      clearbody G T P D. nia.
    + set (G := 2 ^ (e + S)) in *. set (T := 2 ^ K) in *.
      set (P := 2 ^ 51) in *. assert (0 < P) by reflexivity.
      clearbody G T P D. nia.
Qed.

(** *** The operations on finite floats

    [U] is the unit of [scaled], [2^1074]. *)

Lemma valid_exponent (s : bool) (m : positive) (e : Z) :
  valid_binary (S754_finite s m e) = true -> -1074 <= e <= 971.
Proof.
  intros V. rewrite (valid_sign s false) in V.
  exact (proj1 (valid_finite _ _ _ V)).
Qed.

Lemma cond_Zopp_mul (a b : bool) (x y : Z) :
  cond_Zopp a x * cond_Zopp b y = cond_Zopp (xorb a b) (x * y).
Proof. destruct a, b; cbn; ring. Qed.

Lemma SFmul_scaled (x y : spec_float) :
  valid_binary x = true -> valid_binary y = true ->
  finite x = true -> finite y = true ->
  Z.abs (scaled x * scaled y) < 2 ^ 3118 ->
  let r := SFmul prec emax x y in
  finite r = true /\
  - (2 ^ 51 * 2 ^ 1074 + Z.abs (scaled x * scaled y))
  <= 2 ^ 51 * (scaled r * 2 ^ 1074 - scaled x * scaled y)
  <= 2 ^ 51 * 2 ^ 1074 + Z.abs (scaled x * scaled y).
Proof.
  intros Vx Vy Fx Fy Hmag r.
  assert (PU : 0 < 2 ^ 1074) by (apply pow2_pos; lia).
  destruct x as [sx| | |sx mx ex]; try discriminate;
    destruct y as [sy| | |sy my ey]; try discriminate;
    try (split; [reflexivity|]; cbn [scaled];
         rewrite ?Z.mul_0_l, ?Z.mul_0_r; cbn; lia).
  pose proof (valid_exponent _ _ _ Vx) as Hex.
  pose proof (valid_exponent _ _ _ Vy) as Hey.
  unfold r. cbn [SFmul].
  cbn [scaled] in *. rewrite cond_Zopp_mul in *.
  set (X := Zpos mx * 2 ^ (ex + 1074)) in *.
  set (Y := Zpos my * 2 ^ (ey + 1074)) in *.
  assert (HX : 0 < X) by (apply scaled_pos; lia).
  assert (HY : 0 < Y) by (apply scaled_pos; lia).
  assert (EN : Zpos (mx * my) * 2 ^ (ex + ey + 2148) = X * Y).
  { unfold X, Y. rewrite Pos2Z.inj_mul.
    replace (ex + ey + 2148) with ((ex + 1074) + (ey + 1074)) by lia.
    rewrite Z.pow_add_r by lia. ring. }
  assert (Habs : Z.abs (cond_Zopp (xorb sx sy) (X * Y)) = X * Y).
  { destruct (xorb sx sy); cbn [cond_Zopp]; nia. }
  rewrite Habs in *.
  assert (He : ex + ey <= 970).
  { destruct (Z.le_gt_cases (ex + ey) 970) as [|Hgt]; [assumption|exfalso].
    assert (2 ^ 3118 <= 2 ^ (ex + ey + 2148))
      by (apply Z.pow_le_mono_r; lia).
    rewrite <- EN in Hmag.
    set (G := 2 ^ (ex + ey + 2148)) in *. clearbody G. nia. }
  destruct (round_aux_scaled (xorb sx sy) (Zpos (mx * my)) (ex + ey) 2148)
    as (Ra & Fr & Sr & HRa & Hb); try lia.
  rewrite EN in Hb. change (2 ^ (2148 - 1074)) with (2 ^ 1074) in Hb.
  split; [exact Fr|]. rewrite Sr.
  set (W := 2 ^ 1074) in *. set (P := 2 ^ 51) in *.
  set (XY := X * Y) in *. clearbody W P XY.
  destruct (xorb sx sy); cbn [cond_Zopp]; lia.
Qed.

Lemma Zdigits2_shift (p : positive) (k : Z) :
  0 <= k -> Zdigits2 (Zpos p * 2 ^ k) = Zdigits2 (Zpos p) + k.
Proof.
  intros Hk.
  assert (PK : 0 < 2 ^ k) by (apply pow2_pos; lia).
  destruct (Zdigits2_bounds (Zpos p) ltac:(lia)) as [Hlo Hhi].
  pose proof (Zdigits2_nonneg (Zpos p)) as Hd.
  set (d := Zdigits2 (Zpos p)) in *.
  assert (Hd1 : 1 <= d).
  { destruct (Z.le_gt_cases 1 d) as [|Hlt]; [assumption|exfalso].
    assert (d = 0) by lia. rewrite H in Hhi. cbn in Hhi. lia. }
  apply Z.le_antisymm.
  - apply Zdigits2_le; [lia|].
    rewrite Z.pow_add_r by lia. split; [lia|]. nia.
  - replace (d + k) with (d - 1 + k + 1) by lia.
    apply Zdigits2_ge; [lia|].
    rewrite Z.pow_add_r by lia. nia.
Qed.

Lemma binary_normalize_scaled (n e : Z) :
  -1074 <= e <= 971 -> Z.abs n * 2 ^ (e + 1074) < 2 ^ 2096 ->
  let r := binary_normalize prec emax n e false in
  let N := n * 2 ^ (e + 1074) in
  finite r = true /\
  - (2 ^ 51 + Z.abs N) <= 2 ^ 51 * (scaled r - N) <= 2 ^ 51 + Z.abs N.
Proof.
  intros He Hmag r N.
  assert (PG : 0 < 2 ^ (e + 1074)) by (apply pow2_pos; lia).
  assert (Hround : forall (sx : bool) (p : positive),
    Zpos p * 2 ^ (e + 1074) < 2 ^ 2096 ->
    let r := binary_round prec emax sx p e in
    exists Ra, finite r = true /\ scaled r = cond_Zopp sx Ra /\ 0 <= Ra /\
      - (2 ^ 51 + Zpos p * 2 ^ (e + 1074))
      <= 2 ^ 51 * (Ra - Zpos p * 2 ^ (e + 1074))
      <= 2 ^ 51 + Zpos p * 2 ^ (e + 1074)).
  { intros sx p Hp. unfold binary_round. rewrite fexp_eq.
    set (f := Z.max (Zpos (digits2_pos p) + e - 53) (-1074)).
    assert (Hal : exists mz ez, shl_align p e f = (mz, ez) /\
              ez <= e /\ -1074 <= ez /\
              Zpos mz * 2 ^ (ez + 1074) = Zpos p * 2 ^ (e + 1074)).
    { unfold shl_align. destruct (f - e) as [|q|q] eqn:E.
      - exists p, e. repeat split; lia.
      - exists p, e. repeat split; lia.
      - exists (Pos.iter xO p q), f. split; [reflexivity|].
        split; [lia|]. split; [unfold f; lia|].
        rewrite iter_xO.
        replace (e + 1074) with (Zpos q + (f + 1074)) by lia.
        rewrite (Z.pow_add_r 2 (Zpos q) (f + 1074)) by (unfold f; lia).
        ring. }
    destruct Hal as (mz & ez & Eal & Hez & Hez' & Eval).
    rewrite Eal.
    destruct (round_aux_scaled sx (Zpos mz) ez 1074) as (Ra & Fr & Sr & HRa & Hb);
      try lia.
    cbv zeta. exists Ra. rewrite Eval in Hb.
    change (2 ^ (1074 - 1074)) with 1 in Hb.
    rewrite !Z.mul_1_r in Hb.
    repeat split; try assumption; lia. }
  destruct n as [|p|p].
  - split; [reflexivity|]. unfold N. cbn. lia.
  - destruct (Hround false p Hmag) as (Ra & Fr & Sr & HRa & Hb).
    unfold r. cbn [binary_normalize].
    split; [exact Fr|]. rewrite Sr. cbn [cond_Zopp]. unfold N.
    set (V := Zpos p * 2 ^ (e + 1074)) in *.
    assert (0 < V) by (unfold V; nia). clearbody V. lia.
  - change (Z.abs (Zneg p)) with (Zpos p) in Hmag.
    destruct (Hround true p Hmag) as (Ra & Fr & Sr & HRa & Hb).
    unfold r. cbn [binary_normalize].
    split; [exact Fr|]. rewrite Sr. cbn [cond_Zopp]. unfold N.
    replace (Zneg p * 2 ^ (e + 1074)) with (- (Zpos p * 2 ^ (e + 1074)))
      by (rewrite <- Pos2Z.opp_pos; ring).
    set (V := Zpos p * 2 ^ (e + 1074)) in *.
    assert (0 < V) by (unfold V; nia). clearbody V. lia.
Qed.

Lemma aligned_sum (sx sy : bool) (mx my : positive) (ex ey : Z) :
  -1074 <= ex -> -1074 <= ey ->
  let ez := Z.min ex ey in
  (cond_Zopp sx (Zpos (fst (shl_align mx ex ez)))
   + cond_Zopp sy (Zpos (fst (shl_align my ey ez)))) * 2 ^ (ez + 1074)
  = scaled (S754_finite sx mx ex) + scaled (S754_finite sy my ey).
Proof.
  intros Hex Hey ez.
  rewrite !shl_align_fst by (unfold ez; lia).
  cbn [scaled].
  replace (ex + 1074) with ((ex - ez) + (ez + 1074)) by lia.
  replace (ey + 1074) with ((ey - ez) + (ez + 1074)) by lia.
  rewrite (Z.pow_add_r 2 (ex - ez) (ez + 1074)) by (unfold ez; lia).
  rewrite (Z.pow_add_r 2 (ey - ez) (ez + 1074)) by (unfold ez; lia).
  destruct sx, sy; cbn [cond_Zopp]; ring.
Qed.

Lemma SFadd_scaled (x y : spec_float) :
  valid_binary x = true -> valid_binary y = true ->
  finite x = true -> finite y = true ->
  Z.abs (scaled x + scaled y) < 2 ^ 2096 ->
  let r := SFadd prec emax x y in
  finite r = true /\
  - (2 ^ 51 + Z.abs (scaled x + scaled y))
  <= 2 ^ 51 * (scaled r - (scaled x + scaled y))
  <= 2 ^ 51 + Z.abs (scaled x + scaled y).
Proof.
  intros Vx Vy Fx Fy Hmag r.
  destruct x as [sx| | |sx mx ex]; try discriminate;
    destruct y as [sy| | |sy my ey]; try discriminate.
  - split; [destruct sx, sy; reflexivity|].
    unfold r. destruct sx, sy; cbn; lia.
  - split; [reflexivity|]. unfold r. cbn [SFadd scaled].
    rewrite Z.add_0_l. lia.
  - split; [reflexivity|]. unfold r. cbn [SFadd scaled].
    rewrite Z.add_0_r. lia.
  - pose proof (valid_exponent _ _ _ Vx) as Hex.
    pose proof (valid_exponent _ _ _ Vy) as Hey.
    unfold r. cbn [SFadd].
    pose proof (aligned_sum sx sy mx my ex ey ltac:(lia) ltac:(lia)) as Es.
    cbv zeta in Es.
    set (n := cond_Zopp sx (Zpos (fst (shl_align mx ex (Z.min ex ey))))
              + cond_Zopp sy (Zpos (fst (shl_align my ey (Z.min ex ey))))) in *.
    destruct (binary_normalize_scaled n (Z.min ex ey)) as [Fr Hb]; [lia| |].
    + assert (PG : 0 < 2 ^ (Z.min ex ey + 1074)) by (apply pow2_pos; lia).
      rewrite <- Es in Hmag. rewrite Z.abs_mul in Hmag.
      rewrite (Z.abs_eq (2 ^ _)) in Hmag by lia. exact Hmag.
    + cbv zeta in Hb. rewrite Es in Hb. split; [exact Fr | exact Hb].
Qed.

Lemma SFsub_add (x y : spec_float) :
  finite x = true -> finite y = true ->
  SFsub prec emax x y = SFadd prec emax x (SFopp y).
Proof.
  intros Fx Fy.
  destruct x as [sx| | |sx mx ex]; try discriminate;
    destruct y as [sy| | |sy my ey]; try discriminate.
  - destruct sx, sy; reflexivity.
  - reflexivity.
  - reflexivity.
  - cbn [SFsub SFadd SFopp]. f_equal.
    destruct sy; cbn [negb cond_Zopp]; lia.
Qed.

Lemma scaled_opp (y : spec_float) : scaled (SFopp y) = - scaled y.
Proof.
  destruct y as [sy| | |sy my ey]; try reflexivity.
  cbn [SFopp scaled]. destruct sy; cbn [negb cond_Zopp]; lia.
Qed.

Lemma SFsub_scaled (x y : spec_float) :
  valid_binary x = true -> valid_binary y = true ->
  finite x = true -> finite y = true ->
  Z.abs (scaled x - scaled y) < 2 ^ 2096 ->
  let r := SFsub prec emax x y in
  finite r = true /\
  - (2 ^ 51 + Z.abs (scaled x - scaled y))
  <= 2 ^ 51 * (scaled r - (scaled x - scaled y))
  <= 2 ^ 51 + Z.abs (scaled x - scaled y).
Proof.
  intros Vx Vy Fx Fy Hmag r. unfold r.
  rewrite SFsub_add by assumption.
  assert (Vo : valid_binary (SFopp y) = true).
  { destruct y as [sy| | |sy my ey]; try reflexivity.
    cbn [SFopp]. rewrite (valid_sign _ sy). exact Vy. }
  assert (Fo : finite (SFopp y) = true) by (destruct y; auto).
  pose proof (SFadd_scaled x (SFopp y) Vx Vo Fx Fo) as H.
  rewrite scaled_opp in H.
  replace (scaled x + - scaled y) with (scaled x - scaled y) in H by lia.
  exact (H Hmag).
Qed.

(** *** The division by 360 *)

Lemma SFdiv_360_scaled (x : spec_float) :
  valid_binary x = true -> finite x = true ->
  let r := SFdiv prec emax x (S754_finite false 6333186975989760 (-44)) in
  finite r = true /\
  - (720 * 2 ^ 50 + Z.abs (scaled x))
  <= 2 ^ 50 * (360 * scaled r - scaled x)
  <= 720 * 2 ^ 50 + Z.abs (scaled x).
Proof.
  intros Vx Fx r.
  destruct x as [sx| | |sx mx ex]; try discriminate.
  { split; [reflexivity|]. cbn. lia. }
  pose proof (valid_exponent _ _ _ Vx) as Hex.
  rewrite (valid_sign sx false) in Vx.
  pose proof (valid_finite _ _ _ Vx) as (_ & Hmx & _).
  unfold r. cbn [SFdiv]. unfold SFdiv_core_binary.
  change (Zdigits2 6333186975989760) with 53.
  rewrite fexp_eq.
  set (my := 6333186975989760).
  set (d1 := Zdigits2 (Zpos mx)).
  assert (Hd1 : 1 <= d1 <= 53).
  { unfold d1. split.
    - apply (Zdigits2_ge (Zpos mx) 0); cbn; lia.
    - apply Zdigits2_le; lia. }
  destruct (Zdigits2_bounds (Zpos mx) ltac:(lia)) as [Hlo Hhi].
  fold d1 in Hlo, Hhi.
  set (e' := Z.min (Z.max (d1 + ex - (53 + -44) - 53) (-1074)) (ex - -44)).
  set (s := ex - -44 - e').
  assert (Hs : 0 <= s) by (unfold s, e'; lia).
  assert (He' : -1074 <= e' <= 971) by (unfold e'; lia).
  set (m' := match s with
             | 0 => Zpos mx
             | Zpos _ => Z.shiftl (Zpos mx) s
             | Zneg _ => 0
             end).
  assert (Em' : m' = Zpos mx * 2 ^ s).
  { unfold m'. destruct s as [|p|p] eqn:Es; [cbn; lia| |lia].
    apply Z.shiftl_mul_pow2. lia. }
  assert (PS : 0 < 2 ^ s) by (apply pow2_pos; lia).
  pose proof (Z_div_mod m' my ltac:(reflexivity)) as Hdm.
  destruct (Z.div_eucl m' my) as [q r0]. destruct Hdm as [Eq Hr0].
  assert (Hq : 0 <= q) by (unfold my in *; nia).
  (* the quotient has at most [d1 + s - 52] bits *)
  assert (Hqd : Zdigits2 q + e' <= 1023).
  { destruct (Z.eq_dec q 0) as [->|Hq0]; [cbn; lia|].
    assert (Hm' : m' < 2 ^ (d1 + s)) by (rewrite Z.pow_add_r by lia; nia).
    destruct (Z.le_gt_cases 52 (d1 + s)) as [Hge|Hlt].
    - assert (Hlt : q < 2 ^ (d1 + s - 52)).
      { replace (d1 + s) with (d1 + s - 52 + 52) in Hm' by lia.
        rewrite Z.pow_add_r in Hm' by lia.
        change (2 ^ 52) with 4503599627370496 in Hm'.
        assert (0 < 2 ^ (d1 + s - 52)) by (apply pow2_pos; lia).
        set (A := 2 ^ (d1 + s - 52)) in *. clearbody A.
        unfold my in *. nia. }
      pose proof (Zdigits2_le q (d1 + s - 52) ltac:(lia) ltac:(lia)).
      unfold s in *. lia.
    - exfalso.
      assert (2 ^ (d1 + s) <= 2 ^ 51) by (apply Z.pow_le_mono_r; lia).
      change (2 ^ 51) with 2251799813685248 in H.
      unfold my in *. nia. }
  destruct (round_aux_spec (xorb sx false) q e' (new_location my r0)
              Hq ltac:(lia) Hqd)
    as (mr & er & Er & Hmr & Hee & Her & Hv & _ & Hc).
  rewrite Er.
  set (T := 2 ^ (er - e')) in *.
  assert (PT : 0 < T) by (apply pow2_pos; lia).
  set (G := 2 ^ (e' + 1074)).
  assert (PG : 0 < G) by (apply pow2_pos; lia).
  assert (EG : 2 ^ (er + 1074) = T * G).
  { unfold T, G. rewrite <- Z.pow_add_r by lia. f_equal. lia. }
  assert (EX : Zpos mx * 2 ^ (ex + 1074) * 2 ^ 44 = m' * G).
  { rewrite Em'. unfold G. rewrite <- !Z.mul_assoc.
    rewrite <- !Z.pow_add_r by lia. f_equal. f_equal. unfold s. lia. }
  set (Xm := Zpos mx * 2 ^ (ex + 1074)) in *.
  assert (HXm : 0 < Xm) by (apply scaled_pos; lia).
  (* the error, in units of [2^-1074] *)
  assert (Herr : - (720 * (T * G)) <= 360 * (mr * (T * G)) - Xm <= 720 * (T * G)).
  { assert (E44 : 2 ^ 44 * (360 * (mr * (T * G)) - Xm)
                  = (my * (mr * T - q) - r0) * G).
    { replace (2 ^ 44 * (360 * (mr * (T * G)) - Xm))
        with (360 * 2 ^ 44 * mr * T * G - Xm * 2 ^ 44) by ring.
      rewrite EX, Eq. change (360 * 2 ^ 44) with my. ring. }
    assert (B : - (my * T) - my < my * (mr * T - q) - r0 <= my * T)
      by (unfold my in *; nia).
    assert (B' : - (2 * my * T * G) <= (my * (mr * T - q) - r0) * G
                                   <= 2 * my * T * G).
    { unfold my in *. split; nia. }
    rewrite <- E44 in B'.
    replace (2 * my * T * G) with (2 ^ 44 * (720 * (T * G))) in B'
      by (unfold my; change (2 ^ 44) with 17592186044416; ring).
    change (2 ^ 44) with 17592186044416 in B'. lia. }
  (* the size of the last place *)
  assert (Hsize : 720 * (T * G) * 2 ^ 50 <= 720 * 2 ^ 50 + Xm).
  { destruct (Z.eq_dec er (-1074)) as [E1|N1].
    - assert (T * G = 1).
      { rewrite <- EG, E1. reflexivity. }
      rewrite H. lia.
    - destruct Hc as [E0|[E1|Hrel]]; [|contradiction|].
      + (* the exponent of the quotient was kept *)
        assert (ET : T = 1) by (unfold T; rewrite E0, Z.sub_diag; reflexivity).
        rewrite ET, Z.mul_1_l.
        assert (Hle : e' <= d1 + ex - 62) by (unfold e' in *; lia).
        assert (HG : G * 2 ^ 61 <= Xm).
        { unfold G, Xm.
          apply Z.le_trans with (2 ^ (d1 - 1) * 2 ^ (ex + 1074));
            [|apply Z.mul_le_mono_nonneg_r; [apply Z.pow_nonneg; lia | exact Hlo]].
          rewrite <- !Z.pow_add_r by lia.
          apply Z.pow_le_mono_r; lia. }
        change (2 ^ 61) with 2305843009213693952 in HG.
        change (2 ^ 50) with 1125899906842624. lia.
      + (* a relative bound *)
        assert (HqG : my * (q * G) <= Xm * 2 ^ 44).
        { rewrite EX, Eq. unfold my in *. nia. }
        change (2 ^ 44) with 17592186044416 in HqG.
        change (2 ^ 51) with 2251799813685248 in Hrel.
        change (2 ^ 50) with 1125899906842624.
        unfold my in HqG. nia. }
  rewrite xorb_false_r.
  assert (Es : scaled (if mr =? 0 then S754_zero sx
                       else S754_finite sx (Z.to_pos mr) er)
               = cond_Zopp sx (mr * (T * G))).
  { destruct (Z.eqb_spec mr 0) as [->|Hne].
    - cbn. destruct sx; reflexivity.
    - cbn [scaled]. rewrite Z2Pos.id by lia. rewrite EG. reflexivity. }
  split; [destruct (mr =? 0); reflexivity|].
  rewrite Es. cbn [scaled]. fold Xm.
  assert (EA : Z.abs (cond_Zopp sx Xm) = Xm)
    by (destruct sx; cbn [cond_Zopp]; lia).
  rewrite EA.
  set (TG := T * G) in *. set (P := 2 ^ 50) in *.
  assert (0 < P) by reflexivity.
  clearbody TG P Xm.
  destruct sx; cbn [cond_Zopp]; nia.
Qed.

End RoundingError.

(** *** Values as rational numbers *)

Section Values.

Local Open Scope Q_scope.

(** The unit of [scaled] and its inverse, the smallest positive binary64
    number. *)
Definition unit1074 : Q := inject_Z (2 ^ 1074).
Definition tiny : Q := / unit1074.

(** The exact value of a finite float. *)
Definition val (x : float) : Q := inject_Z (fscaled x) * tiny.

Lemma unit1074_pos : 0 < unit1074.
Proof.
  unfold unit1074. change 0 with (inject_Z 0).
  rewrite <- Zlt_Qlt. apply pow2_pos. lia.
Qed.

Lemma tiny_pos : 0 < tiny.
Proof. apply Qinv_lt_0_compat, unit1074_pos. Qed.

Lemma tiny_unit : tiny * unit1074 == 1.
Proof.
  unfold tiny. rewrite Qmult_comm. apply Qmult_inv_r.
  intros E. pose proof unit1074_pos as H. rewrite E in H.
  exact (Qlt_irrefl _ H).
Qed.

Lemma tiny_small : tiny <= 1 # 1267650600228229401496703205376.
Proof.
  unfold tiny. apply Qle_shift_inv_r; [apply unit1074_pos|].
  unfold unit1074.
  change (1 # 1267650600228229401496703205376)
    with (/ inject_Z (2 ^ 100)).
  apply Qle_shift_div_l with (b := inject_Z (2 ^ 1074)) (c := inject_Z (2 ^ 100)).
  - change 0 with (inject_Z 0). rewrite <- Zlt_Qlt. reflexivity.
  - rewrite Qmult_1_l. rewrite <- Zle_Qle. apply Z.pow_le_mono_r; lia.
Qed.

Lemma val_scaled (x : float) : inject_Z (fscaled x) == val x * unit1074.
Proof.
  unfold val. rewrite <- Qmult_assoc, tiny_unit. ring.
Qed.

Lemma val_lt (x y : float) : (fscaled x < fscaled y)%Z -> val x < val y.
Proof.
  intros H. unfold val. apply Qmult_lt_compat_r; [apply tiny_pos|].
  rewrite <- Zlt_Qlt. exact H.
Qed.

Lemma val_le (x y : float) : (fscaled x <= fscaled y)%Z -> val x <= val y.
Proof.
  intros H. unfold val. apply Qmult_le_compat_r; [|apply Qlt_le_weak, tiny_pos].
  rewrite <- Zle_Qle. exact H.
Qed.

Lemma val_eq (x y : float) : fscaled x = fscaled y -> val x == val y.
Proof. intros H. unfold val. rewrite H. reflexivity. Qed.

Lemma ltb_val (x y : float) :
  ffinite x = true -> ffinite y = true ->
  if PrimFloat.ltb x y then val x < val y else val y <= val x.
Proof.
  intros Fx Fy. rewrite (ltb_scaled x y Fx Fy).
  destruct (Z.ltb_spec (fscaled x) (fscaled y)); [apply val_lt | apply val_le];
    assumption.
Qed.

Lemma leb_val (x y : float) :
  ffinite x = true -> ffinite y = true ->
  if PrimFloat.leb x y then val x <= val y else val y < val x.
Proof.
  intros Fx Fy. rewrite (leb_scaled x y Fx Fy).
  destruct (Z.leb_spec (fscaled x) (fscaled y)); [apply val_le | apply val_lt];
    assumption.
Qed.

(** The value of a float given by its mantissa and exponent. *)
Lemma val_const (x : float) (n d : Z) :
  (0 < d)%Z -> (fscaled x * d = n * 2 ^ 1074)%Z ->
  val x == inject_Z n / inject_Z d.
Proof.
  intros Hd E.
  assert (Hd' : ~ inject_Z d == 0).
  { intros E0.
    assert (0 < inject_Z d)
      by (change 0 with (inject_Z 0); rewrite <- Zlt_Qlt; exact Hd).
    rewrite E0 in H. exact (Qlt_irrefl _ H). }
  apply (f_equal inject_Z) in E. rewrite !inject_Z_mult in E.
  fold unit1074 in E.
  assert (E' : inject_Z (fscaled x) * inject_Z d == inject_Z n * unit1074)
    by (rewrite E; reflexivity).
  unfold val.
  apply (Qmult_inj_r _ _ (inject_Z d) Hd').
  transitivity (inject_Z (fscaled x) * inject_Z d * tiny); [ring|].
  rewrite E'.
  transitivity (inject_Z n * (tiny * unit1074)); [ring|].
  rewrite tiny_unit. field. exact Hd'.
Qed.

(** The relative error of one operation. *)
Definition eps : Q := 1 # 1125899906842624.

(** From a bound on integers to a bound on values: [z] is the exact result,
    [N / (D * 2^1074)], and [R] the float, in units of [2^-1074]. *)
Lemma approx_Q (N D R : Z) (K z : Q) :
  (0 < D)%Z ->
  (- (1125899906842624 * (2 * D) + Z.abs N)
   <= 1125899906842624 * (R * D - N)
   <= 1125899906842624 * (2 * D) + Z.abs N)%Z ->
  z * (inject_Z D * unit1074) == inject_Z N ->
  - K <= z <= K ->
  z - (K * eps + 2 * tiny) <= inject_Z R * tiny <= z + (K * eps + 2 * tiny).
Proof.
  intros HD [Hlo Hhi] Hz HK.
  assert (Hd : 0 < inject_Z D)
    by (change 0 with (inject_Z 0); rewrite <- Zlt_Qlt; exact HD).
  pose proof unit1074_pos as HU.
  assert (Hi : 0 <= / unit1074 * / inject_Z D).
  { apply Qmult_le_0_compat; apply Qlt_le_weak, Qinv_lt_0_compat; assumption. }
  assert (Hd' : ~ inject_Z D == 0) by (intros E; rewrite E in Hd; exact (Qlt_irrefl _ Hd)).
  assert (HU' : ~ unit1074 == 0) by (intros E; rewrite E in HU; exact (Qlt_irrefl _ HU)).
  rewrite Zle_Qle in Hlo, Hhi.
  unfold Z.sub in Hlo, Hhi.
  repeat (rewrite inject_Z_plus in Hlo || rewrite inject_Z_mult in Hlo
          || rewrite inject_Z_opp in Hlo).
  repeat (rewrite inject_Z_plus in Hhi || rewrite inject_Z_mult in Hhi
          || rewrite inject_Z_opp in Hhi).
  set (r := inject_Z R) in *. set (d := inject_Z D) in *.
  set (P := inject_Z 1125899906842624) in *.
  assert (Ea : inject_Z (Z.abs N) == z * (d * unit1074) /\ 0 <= z \/
               inject_Z (Z.abs N) == - (z * (d * unit1074)) /\ z <= 0).
  { assert (Hdu : 0 < d * unit1074) by (apply Qmult_lt_0_compat; assumption).
    destruct (Z.abs_spec N) as [[Hn ->]|[Hn ->]].
    - left. split; [symmetry; exact Hz|].
      apply (Qmult_le_r _ _ _ Hdu). rewrite Qmult_0_l, Hz.
      change 0 with (inject_Z 0). rewrite <- Zle_Qle. exact Hn.
    - right. split; [rewrite inject_Z_opp, Hz; reflexivity|].
      apply (Qmult_le_r _ _ _ Hdu). rewrite Qmult_0_l, Hz.
      change 0 with (inject_Z 0). rewrite <- Zle_Qle. lia. }
  rewrite <- Hz in Hlo, Hhi.
  apply (Qmult_le_compat_r _ _ _) with (2 := Hi) in Hlo.
  apply (Qmult_le_compat_r _ _ _) with (2 := Hi) in Hhi.
  unfold tiny.
  assert (EM : (P * (r * d + - (z * (d * unit1074)))) * (/ unit1074 * / d)
               == P * (r * / unit1074 - z)) by (field; split; assumption).
  rewrite EM in Hlo, Hhi.
  unfold eps.
  change (1 # 1125899906842624) with (/ P).
  assert (HP : P == 1125899906842624 # 1) by reflexivity.
  destruct Ea as [[Ea Hs]|[Ea Hs]]; rewrite Ea in Hlo, Hhi.
  - assert (E1 : (P * (inject_Z 2 * d) + z * (d * unit1074))
                  * (/ unit1074 * / d)
                 == P * (2 * / unit1074) + z) by (field; split; assumption).
    assert (E2 : - (P * (inject_Z 2 * d) + z * (d * unit1074))
                  * (/ unit1074 * / d)
                 == - (P * (2 * / unit1074) + z)) by (field; split; assumption).
    rewrite E1 in Hhi. rewrite E2 in Hlo.
    set (t := / unit1074) in *. set (rv := r * t) in *.
    clearbody t rv. unfold P in *. clear - Hlo Hhi HK Hs.
    change (/ inject_Z 1125899906842624) with (1 # 1125899906842624).
    change (inject_Z 1125899906842624) with (1125899906842624 # 1) in *.
    split; lra.
  - assert (E1 : (P * (inject_Z 2 * d) + - (z * (d * unit1074)))
                  * (/ unit1074 * / d)
                 == P * (2 * / unit1074) - z) by (field; split; assumption).
    assert (E2 : - (P * (inject_Z 2 * d) + - (z * (d * unit1074)))
                  * (/ unit1074 * / d)
                 == - (P * (2 * / unit1074) - z)) by (field; split; assumption).
    rewrite E1 in Hhi. rewrite E2 in Hlo.
    set (t := / unit1074) in *. set (rv := r * t) in *.
    clearbody t rv. unfold P in *. clear - Hlo Hhi HK Hs.
    change (/ inject_Z 1125899906842624) with (1 # 1125899906842624).
    change (inject_Z 1125899906842624) with (1125899906842624 # 1) in *.
    split; lra.
Qed.

(** A bound on [K] that keeps a result away from overflow. *)
Definition huge : Q := inject_Z (2 ^ 1021).

Lemma magnitude (X : Z) (v K : Q) (k : Z) (c : Q) :
  (0 <= k)%Z -> inject_Z X == v * c -> 0 < c -> - K <= v <= K ->
  K * c <= inject_Z (2 ^ k) -> (Z.abs X < 2 ^ (k + 1))%Z.
Proof.
  intros Hk EX Hc [H1 H2] HK.
  assert (Hup : inject_Z X <= inject_Z (2 ^ k)).
  { rewrite EX. apply Qle_trans with (2 := HK).
    apply Qmult_le_compat_r; [exact H2 | apply Qlt_le_weak, Hc]. }
  assert (Hdn : inject_Z (- 2 ^ k) <= inject_Z X).
  { rewrite EX, inject_Z_opp.
    apply Qle_trans with (- (K * c)); [apply Qopp_le_compat; exact HK|].
    assert (- K * c <= v * c)
      by (apply Qmult_le_compat_r; [exact H1 | apply Qlt_le_weak, Hc]).
    lra. }
  rewrite <- Zle_Qle in Hup, Hdn.
  rewrite Z.pow_add_r by lia. change (2 ^ 1)%Z with 2%Z.
  assert (0 < 2 ^ k)%Z by (apply pow2_pos; lia). lia.
Qed.

Lemma add_val (x y : float) (K : Q) :
  ffinite x = true -> ffinite y = true ->
  - K <= val x + val y <= K -> K <= huge ->
  ffinite (x + y) = true /\
  val x + val y - (K * eps + 2 * tiny) <= val (x + y)
  <= val x + val y + (K * eps + 2 * tiny).
Proof.
  intros Fx Fy HK Hh.
  pose proof unit1074_pos as HU.
  assert (EX : inject_Z (fscaled x + fscaled y) == (val x + val y) * unit1074).
  { rewrite inject_Z_plus, !val_scaled. ring. }
  assert (Hmag : (Z.abs (fscaled x + fscaled y) < 2 ^ 2096)%Z).
  { apply (magnitude _ (val x + val y) K 2095 unit1074); try assumption; [lia|].
    change (2 ^ 2095)%Z with (2 ^ 1021 * 2 ^ 1074)%Z.
    rewrite inject_Z_mult. fold huge. fold unit1074.
    apply Qmult_le_compat_r; [exact Hh | apply Qlt_le_weak, HU]. }
  destruct (SFadd_scaled (Prim2SF x) (Prim2SF y) (Prim2SF_valid x)
              (Prim2SF_valid y) Fx Fy Hmag) as [Fr Hb].
  fold (SF64add (Prim2SF x) (Prim2SF y)) in Fr, Hb.
  rewrite <- FloatAxioms.add_spec in Fr, Hb.
  split; [exact Fr|].
  apply (approx_Q (fscaled x + fscaled y) 1 (fscaled (x + y)) K);
    [lia| |rewrite EX; ring|exact HK].
  fold (fscaled (x + y)) in Hb. fold (fscaled x) in Hb. fold (fscaled y) in Hb.
  change (2 ^ 51)%Z with 2251799813685248%Z in Hb. lia.
Qed.

Lemma sub_val (x y : float) (K : Q) :
  ffinite x = true -> ffinite y = true ->
  - K <= val x - val y <= K -> K <= huge ->
  ffinite (x - y) = true /\
  val x - val y - (K * eps + 2 * tiny) <= val (x - y)
  <= val x - val y + (K * eps + 2 * tiny).
Proof.
  intros Fx Fy HK Hh.
  pose proof unit1074_pos as HU.
  assert (EX : inject_Z (fscaled x - fscaled y) == (val x - val y) * unit1074).
  { unfold Z.sub. rewrite inject_Z_plus, inject_Z_opp, !val_scaled. ring. }
  assert (Hmag : (Z.abs (fscaled x - fscaled y) < 2 ^ 2096)%Z).
  { apply (magnitude _ (val x - val y) K 2095 unit1074); try assumption; [lia|].
    change (2 ^ 2095)%Z with (2 ^ 1021 * 2 ^ 1074)%Z.
    rewrite inject_Z_mult. fold huge. fold unit1074.
    apply Qmult_le_compat_r; [exact Hh | apply Qlt_le_weak, HU]. }
  destruct (SFsub_scaled (Prim2SF x) (Prim2SF y) (Prim2SF_valid x)
              (Prim2SF_valid y) Fx Fy Hmag) as [Fr Hb].
  fold (SF64sub (Prim2SF x) (Prim2SF y)) in Fr, Hb.
  rewrite <- FloatAxioms.sub_spec in Fr, Hb.
  split; [exact Fr|].
  apply (approx_Q (fscaled x - fscaled y) 1 (fscaled (x - y)) K);
    [lia| |rewrite EX; ring|exact HK].
  fold (fscaled (x - y)) in Hb. fold (fscaled x) in Hb. fold (fscaled y) in Hb.
  change (2 ^ 51)%Z with 2251799813685248%Z in Hb. lia.
Qed.

Lemma mul_val (x y : float) (K : Q) :
  ffinite x = true -> ffinite y = true ->
  - K <= val x * val y <= K -> K <= 1024 ->
  ffinite (x * y) = true /\
  val x * val y - (K * eps + 2 * tiny) <= val (x * y)
  <= val x * val y + (K * eps + 2 * tiny).
Proof.
  intros Fx Fy HK Hh.
  pose proof unit1074_pos as HU.
  assert (HUU : 0 < unit1074 * unit1074) by (apply Qmult_lt_0_compat; exact HU).
  assert (EX : inject_Z (fscaled x * fscaled y)
               == (val x * val y) * (unit1074 * unit1074)).
  { rewrite inject_Z_mult, !val_scaled. ring. }
  assert (Hmag : (Z.abs (fscaled x * fscaled y) < 2 ^ 3118)%Z).
  { apply Z.lt_trans with (2 ^ (2158 + 1))%Z; [|apply Z.pow_lt_mono_r; lia].
    apply (magnitude _ (val x * val y) K 2158 (unit1074 * unit1074));
      try assumption; [lia|].
    change (2 ^ 2158)%Z with (2 ^ 10 * (2 ^ 1074 * 2 ^ 1074))%Z.
    rewrite !inject_Z_mult. fold unit1074.
    apply Qmult_le_compat_r; [exact Hh | apply Qlt_le_weak, HUU]. }
  destruct (SFmul_scaled (Prim2SF x) (Prim2SF y) (Prim2SF_valid x)
              (Prim2SF_valid y) Fx Fy Hmag) as [Fr Hb].
  fold (SF64mul (Prim2SF x) (Prim2SF y)) in Fr, Hb.
  rewrite <- FloatAxioms.mul_spec in Fr, Hb.
  split; [exact Fr|].
  apply (approx_Q (fscaled x * fscaled y) (2 ^ 1074) (fscaled (x * y)) K);
    [apply pow2_pos; lia| |fold unit1074; rewrite EX; ring|exact HK].
  fold (fscaled (x * y)) in Hb. fold (fscaled x) in Hb. fold (fscaled y) in Hb.
  change (2 ^ 51)%Z with 2251799813685248%Z in Hb.
  assert (0 < 2 ^ 1074)%Z by (apply pow2_pos; lia).
  set (W := (2 ^ 1074)%Z) in *. clearbody W. lia.
Qed.

Lemma div360_val (x : float) (K : Q) :
  ffinite x = true -> - K <= val x / 360 <= K ->
  ffinite (x / 360) = true /\
  val x / 360 - (K * eps + 2 * tiny) <= val (x / 360)
  <= val x / 360 + (K * eps + 2 * tiny).
Proof.
  intros Fx HK.
  pose proof (SFdiv_360_scaled (Prim2SF x) (Prim2SF_valid x) Fx) as [Fr Hb].
  change (S754_finite false 6333186975989760 (-44)) with (Prim2SF 360) in Fr, Hb.
  fold (SF64div (Prim2SF x) (Prim2SF 360)) in Fr, Hb.
  rewrite <- FloatAxioms.div_spec in Fr, Hb.
  split; [exact Fr|].
  apply (approx_Q (fscaled x) 360 (fscaled (x / 360)) K);
    [lia| | |exact HK].
  - fold (fscaled (x / 360)) in Hb. fold (fscaled x) in Hb.
    change (2 ^ 50)%Z with 1125899906842624%Z in Hb. lia.
  - rewrite val_scaled. change (inject_Z 360) with 360. field.
Qed.

End Values.

(** *** The constants of [hslToRgb] *)

Section Constants.

Local Open Scope Q_scope.

Lemma val_dyadic (x : float) (n : Z) (d : positive) :
  (fscaled x * Zpos d = n * 2 ^ 1074)%Z -> val x == n # d.
Proof.
  intros E. rewrite Qmake_Qdiv.
  apply val_const; [lia | exact E].
Qed.

Lemma val_0 : val 0 == 0.
Proof. apply (val_dyadic 0 0 1). reflexivity. Qed.

Lemma val_1 : val 1 == 1.
Proof. apply (val_dyadic 1 1 1). reflexivity. Qed.

Lemma val_2 : val 2 == 2.
Proof. apply (val_dyadic 2 2 1). reflexivity. Qed.

Lemma val_6 : val 6 == 6.
Proof. apply (val_dyadic 6 6 1). reflexivity. Qed.

Lemma val_255 : val 255 == 255.
Proof. apply (val_dyadic 255 255 1). reflexivity. Qed.

Lemma val_half : val 0.5 == 1 # 2.
Proof. apply (val_dyadic 0.5 1 2). reflexivity. Qed.

Lemma val_c12 : val c12 == 1 # 2.
Proof. exact val_half. Qed.

Lemma val_c16 : val c16 == 6004799503160661 # 36028797018963968.
Proof. apply val_dyadic. vm_compute. reflexivity. Qed.

Lemma val_c13 : val c13 == 6004799503160661 # 18014398509481984.
Proof. apply val_dyadic. vm_compute. reflexivity. Qed.

Lemma val_c23 : val c23 == 6004799503160661 # 9007199254740992.
Proof. apply val_dyadic. vm_compute. reflexivity. Qed.

Lemma val_m240 : val (-240) == -240.
Proof. apply (val_dyadic (-240) (-240) 1). reflexivity. Qed.

Lemma val_m05 : val (-0.5) == - (1 # 2).
Proof. apply (val_dyadic (-0.5) (-1) 2). reflexivity. Qed.

Lemma val_2555 : val 255.5 == 511 # 2.
Proof. apply (val_dyadic 255.5 511 2). reflexivity. Qed.

End Constants.

(** *** [Math.round] of a channel *)

Section Channel.

Local Open Scope Z_scope.

Lemma SFround_neg_zero (m : positive) (e : Z) :
  valid_binary (S754_finite true m e) = true ->
  Zpos m * 2 ^ (e + 1074) <= 2 ^ 1073 ->
  F64.SFround (S754_finite true m e) = S754_zero true.
Proof.
  intros V Hr.
  rewrite (valid_sign true false) in V.
  pose proof (valid_finite _ _ _ V) as (He & _ & Hnorm).
  pose proof (pow2_pos (e + 1074) ltac:(lia)) as HP.
  assert (Hneg : e < -1).
  { destruct (Z.ltb_spec e (-1)) as [|Hge]; [assumption|exfalso].
    assert (2 ^ 1073 <= 2 ^ (e + 1074)) by (apply Z.pow_le_mono_r; lia).
    specialize (Hnorm ltac:(lia)).
    change (2 ^ 52) with 4503599627370496 in Hnorm.
    pose proof (pow2_pos 1073 ltac:(lia)).
    set (W := 2 ^ 1073) in *. set (G := 2 ^ (e + 1074)) in *.
    clearbody W G. nia. }
  unfold F64.SFround.
  destruct (Z.leb_spec 0 e) as [|_]; [lia|].
  cbn [cond_Zopp].
  assert (E : 2 ^ 1073 = 2 ^ (- 1 - e) * 2 ^ (e + 1074)).
  { rewrite <- Z.pow_add_r by lia. f_equal. lia. }
  rewrite E in Hr.
  assert (Hm : Zpos m <= 2 ^ (- 1 - e)).
  { set (A := 2 ^ (- 1 - e)) in *. set (G := 2 ^ (e + 1074)) in *.
    clearbody A G. nia. }
  assert (E1 : 2 ^ (- e) = 2 * 2 ^ (- 1 - e)).
  { replace (- e) with (1 + (- 1 - e)) by lia.
    rewrite Z.pow_add_r by lia. reflexivity. }
  assert (E2 : 2 ^ (1 - e) = 4 * 2 ^ (- 1 - e)).
  { replace (1 - e) with (2 + (- 1 - e)) by lia.
    rewrite Z.pow_add_r by lia. reflexivity. }
  rewrite E1, E2.
  assert (PA : 0 < 2 ^ (- 1 - e)) by (apply pow2_pos; lia).
  set (A := 2 ^ (- 1 - e)) in *. clearbody A.
  rewrite Z.div_small by lia. reflexivity.
Qed.

End Channel.

Section Analysis.

Local Open Scope Q_scope.

Lemma bounded_finite (lo hi x : float) :
  ffinite lo = true -> ffinite hi = true ->
  PrimFloat.leb lo x = true -> PrimFloat.leb x hi = true ->
  ffinite x = true.
Proof.
  intros Flo Fhi Hlo Hhi.
  rewrite FloatAxioms.leb_spec in Hlo, Hhi.
  unfold ffinite in *. unfold SFleb in Hlo, Hhi.
  destruct (Prim2SF x) as [sx|[|]| |sx mx ex]; try reflexivity.
  - destruct (Prim2SF lo); try discriminate; cbn in Hlo; discriminate.
  - destruct (Prim2SF hi); try discriminate; cbn in Hhi; discriminate.
  - destruct (Prim2SF lo); try discriminate; cbn in Hlo; discriminate.
Qed.

Lemma byte_eqb (n : Z) :
  (0 <= n <= 255)%Z -> (F64.of_Z n =? F64.of_Z n)%float = true.
Proof.
  intros Hn. rewrite <- (fnat_of_Z n Hn).
  assert (F : ffinite (fnat (Z.to_nat n)) = true) by (apply fnat_fin; lia).
  rewrite (eqb_scaled _ _ F F). apply Z.eqb_refl.
Qed.

Lemma ltb_of_val (x y : float) :
  ffinite x = true -> ffinite y = true -> val x < val y ->
  (x <? y)%float = true.
Proof.
  intros Fx Fy H. pose proof (ltb_val x y Fx Fy) as L.
  destruct (x <? y)%float; [reflexivity | lra].
Qed.

Lemma ltb_not_val (x y : float) :
  ffinite x = true -> ffinite y = true -> val y <= val x ->
  (x <? y)%float = false.
Proof.
  intros Fx Fy H. pose proof (ltb_val x y Fx Fy) as L.
  destruct (x <? y)%float; [lra | reflexivity].
Qed.

Lemma ltb_cases (x y : float) :
  ffinite x = true -> ffinite y = true ->
  (x <? y)%float = true /\ val x < val y \/
  (x <? y)%float = false /\ val y <= val x.
Proof.
  intros Fx Fy. pose proof (ltb_val x y Fx Fy) as L.
  destruct (x <? y)%float; [left | right]; split; auto.
Qed.

Lemma leb_of_val (x y : float) :
  ffinite x = true -> ffinite y = true -> val x <= val y ->
  (x <=? y)%float = true.
Proof.
  intros Fx Fy H. pose proof (leb_val x y Fx Fy) as L.
  destruct (x <=? y)%float; [reflexivity | lra].
Qed.

(** A finite number above -1/2 and below 255.5 rounds to an integer from 0
    to 255 (to which the negative zero is equal). *)
Lemma round_channel (w : float) :
  ffinite w = true -> - (1 # 2) <= val w -> val w < 511 # 2 ->
  exists n, (0 <= n <= 255)%Z /\ (F64.round w =? F64.of_Z n)%float = true.
Proof.
  intros Fw Hlo Hhi.
  assert (F0 : ffinite 0 = true) by reflexivity.
  assert (F5 : ffinite 255.5 = true) by reflexivity.
  assert (Fm : ffinite (-0.5) = true) by reflexivity.
  assert (E5 : (w <? 255.5)%float = true)
    by (apply ltb_of_val; [assumption | assumption | rewrite val_2555; exact Hhi]).
  destruct (Qlt_le_dec 0 (val w)) as [Hpos|Hneg].
  - assert (E0 : (0 <? w)%float = true)
      by (apply ltb_of_val; [assumption | assumption | rewrite val_0; exact Hpos]).
    destruct (round_byte w) as (n & Hn & En).
    + unfold nonneg. rewrite E0. reflexivity.
    + exact E5.
    + exists n. split; [exact Hn|]. rewrite En. apply byte_eqb. exact Hn.
  - assert (E0 : (0 <? w)%float = false)
      by (apply ltb_not_val; [assumption | assumption | rewrite val_0; exact Hneg]).
    assert (Em : (-0.5 <=? w)%float = true)
      by (apply leb_of_val; [assumption | assumption | rewrite val_m05; exact Hlo]).
    rewrite (leb_scaled _ _ Fm Fw) in Em. apply Z.leb_le in Em.
    change (fscaled (-0.5)) with (- 2 ^ 1073)%Z in Em.
    rewrite (ltb_scaled _ _ F0 Fw) in E0. apply Z.ltb_ge in E0.
    change (fscaled 0) with 0%Z in E0.
    exists 0%Z. split; [lia|].
    pose proof (Prim2SF_valid w) as Vw.
    unfold F64.round. unfold ffinite, fscaled in *.
    destruct (Prim2SF w) as [[|]| | |sw mw ew]; try discriminate.
    + reflexivity.
    + reflexivity.
    + pose proof (valid_exponent _ _ _ Vw) as He.
      pose proof (scaled_pos mw ew ltac:(lia)) as Hpos.
      destruct sw; [|unfold scaled, cond_Zopp in E0; lia].
      rewrite SFround_neg_zero; [reflexivity | exact Vw|].
      unfold scaled, cond_Zopp in Em. lia.
Qed.

(** *** Approximations

    [approx x z d]: the finite float [x] is within [d] of the number [z]. *)

Definition approx (x : float) (z d : Q) : Prop :=
  ffinite x = true /\ z - d <= val x <= z + d.

(** The error of one operation on operands of magnitude at most 16. *)
Definition e0 : Q := 1 # 35184372088832.

Lemma huge_large : 1024 <= huge.
Proof.
  unfold huge. change 1024 with (inject_Z (2 ^ 10)).
  rewrite <- Zle_Qle. apply Z.pow_le_mono_r; lia.
Qed.

Lemma approx_self (x : float) : ffinite x = true -> approx x (val x) 0.
Proof. intros F. split; [exact F | lra]. Qed.

Lemma approx_weaken (x : float) (z z' d d' : Q) :
  approx x z d -> z == z' -> d <= d' -> approx x z' d'.
Proof. intros [F H] Ez Hd. split; [exact F | rewrite <- Ez; lra]. Qed.

Lemma approx_add (x y : float) (zx zy dx dy : Q) :
  approx x zx dx -> approx y zy dy ->
  - 15 <= zx + zy <= 15 -> 0 <= dx <= 1 # 2 -> 0 <= dy <= 1 # 2 ->
  approx (x + y) (zx + zy) (dx + dy + e0).
Proof.
  intros [Fx Hx] [Fy Hy] Hz Hdx Hdy.
  pose proof huge_large. pose proof tiny_small. pose proof tiny_pos.
  destruct (add_val x y 16 Fx Fy) as [F H2]; [lra | lra|].
  split; [exact F|]. unfold eps, e0 in *. lra.
Qed.

Lemma approx_sub (x y : float) (zx zy dx dy : Q) :
  approx x zx dx -> approx y zy dy ->
  - 15 <= zx - zy <= 15 -> 0 <= dx <= 1 # 2 -> 0 <= dy <= 1 # 2 ->
  approx (x - y) (zx - zy) (dx + dy + e0).
Proof.
  intros [Fx Hx] [Fy Hy] Hz Hdx Hdy.
  pose proof huge_large. pose proof tiny_small. pose proof tiny_pos.
  destruct (sub_val x y 16 Fx Fy) as [F H2]; [lra | lra|].
  split; [exact F|]. unfold eps, e0 in *. lra.
Qed.

Lemma approx_mul (x y : float) (zx zy dx dy A B : Q) :
  approx x zx dx -> approx y zy dy ->
  - A <= zx <= A -> - B <= zy <= B ->
  0 <= dx <= 1 -> 0 <= dy <= 1 -> (A + 1) * (B + 1) <= 16 ->
  approx (x * y) (zx * zy) ((A + 1) * dy + B * dx + e0).
Proof.
  intros [Fx Hx] [Fy Hy] HA HB Hdx Hdy HAB.
  pose proof tiny_small. pose proof tiny_pos.
  set (ex := val x - zx) in *. set (ey := val y - zy) in *.
  assert (Ex : val x == zx + ex) by (unfold ex; ring).
  assert (Ey : val y == zy + ey) by (unfold ey; ring).
  assert (Hex : - dx <= ex <= dx) by (unfold ex; lra).
  assert (Hey : - dy <= ey <= dy) by (unfold ey; lra).
  assert (HA0 : 0 <= A) by lra. assert (HB0 : 0 <= B) by lra.
  assert (P1 : - (A * dy) <= zx * ey <= A * dy) by nra.
  assert (P2 : - (B * dx) <= zy * ex <= B * dx) by nra.
  assert (P3 : - dy <= ex * ey <= dy) by nra.
  assert (Eprod : val x * val y == zx * zy + (zx * ey + zy * ex + ex * ey))
    by (rewrite Ex, Ey; ring).
  assert (P4 : - (A * B) <= zx * zy <= A * B) by nra.
  assert (Q1 : A * dy <= A) by nra.
  assert (Q2 : B * dx <= B) by nra.
  assert (Q3 : (A + 1) * (B + 1) == A * B + A + B + 1) by ring.
  rewrite Q3 in HAB.
  assert (HK : - 16 <= val x * val y <= 16) by (rewrite Eprod; lra).
  destruct (mul_val x y 16 Fx Fy) as [F H2]; [exact HK | lra|].
  split; [exact F|]. rewrite Eprod in H2. unfold eps, e0 in *. lra.
Qed.

(** *** The two levels *)

Definition level_q (s l : float) : float :=
  if (l <? 0.5)%float then (l * (1 + s))%float else (l + s - l * s)%float.

Definition level_p (s l : float) : float := (2 * l - level_q s l)%float.

Lemma e0_pos : 0 < e0.
Proof. reflexivity. Qed.

Lemma approx_1 : approx 1 1 0.
Proof.
  apply (approx_weaken 1 (val 1) 1 0 0);
    [apply approx_self; reflexivity | exact val_1 | lra].
Qed.

Lemma approx_2 : approx 2 2 0.
Proof.
  apply (approx_weaken 2 (val 2) 2 0 0);
    [apply approx_self; reflexivity | exact val_2 | lra].
Qed.

Lemma approx_6 : approx 6 6 0.
Proof.
  apply (approx_weaken 6 (val 6) 6 0 0);
    [apply approx_self; reflexivity | exact val_6 | lra].
Qed.

(** [q] and [p] approximate two numbers of [0, 1]. *)
Lemma levels_approx (s l : float) :
  ffinite s = true -> ffinite l = true ->
  0 <= val s <= 1 -> 0 <= val l <= 1 ->
  exists P0 Q0,
    approx (level_p s l) P0 (8 * e0) /\ approx (level_q s l) Q0 (4 * e0) /\
    0 <= P0 <= 1 /\ 0 <= Q0 <= 1.
Proof.
  intros Fs Fl Hs Hl.
  pose proof e0_pos as He.
  assert (He' : e0 <= 1 # 1000) by (unfold e0; lra).
  pose proof (approx_self s Fs) as As.
  pose proof (approx_self l Fl) as Al.
  set (vs := val s) in *. set (vl := val l) in *.
  assert (A2l : approx (2 * l) (2 * vl) e0).
  { pose proof (approx_mul 2 l 2 vl 0 0 2 1 approx_2 Al) as H.
    apply (approx_weaken _ _ _ _ _ (H ltac:(lra) ltac:(lra) ltac:(lra)
                                       ltac:(lra) ltac:(lra)));
      [reflexivity | lra]. }
  assert (Hq : exists Q0, approx (level_q s l) Q0 (4 * e0) /\
                          0 <= Q0 <= 1 /\ 0 <= 2 * vl - Q0 <= 1).
  { unfold level_q.
    destruct (ltb_cases l 0.5 Fl eq_refl) as [[E Hc]|[E Hc]];
      rewrite E; rewrite val_half in Hc; fold vl in Hc.
    - exists (vl * (1 + vs)). split; [|split; nra].
      assert (A1s : approx (1 + s) (1 + vs) e0).
      { pose proof (approx_add 1 s 1 vs 0 0 approx_1 As) as H.
        apply (approx_weaken _ _ _ _ _ (H ltac:(lra) ltac:(lra) ltac:(lra)));
          [reflexivity | lra]. }
      pose proof (approx_mul l (1 + s) vl (1 + vs) 0 e0 1 2 Al A1s) as H.
      apply (approx_weaken _ _ _ _ _ (H ltac:(lra) ltac:(lra) ltac:(lra)
                                         ltac:(lra) ltac:(lra)));
        [reflexivity | lra].
    - exists (vl + vs - vl * vs). split; [|split; nra].
      assert (Als : approx (l + s) (vl + vs) e0).
      { pose proof (approx_add l s vl vs 0 0 Al As) as H.
        apply (approx_weaken _ _ _ _ _ (H ltac:(lra) ltac:(lra) ltac:(lra)));
          [reflexivity | lra]. }
      assert (Am : approx (l * s) (vl * vs) e0).
      { pose proof (approx_mul l s vl vs 0 0 1 1 Al As) as H.
        apply (approx_weaken _ _ _ _ _ (H ltac:(lra) ltac:(lra) ltac:(lra)
                                           ltac:(lra) ltac:(lra)));
          [reflexivity | lra]. }
      assert (Hm : 0 <= vl * vs <= 1) by nra.
      pose proof (approx_sub (l + s) (l * s) (vl + vs) (vl * vs) e0 e0 Als Am)
        as H.
      apply (approx_weaken _ _ _ _ _ (H ltac:(lra) ltac:(lra) ltac:(lra)));
        [reflexivity | lra]. }
  destruct Hq as (Q0 & Aq & HQ & HP).
  exists (2 * vl - Q0), Q0.
  split; [|split; [exact Aq|split; assumption]].
  unfold level_p.
  pose proof (approx_sub (2 * l) (level_q s l) (2 * vl) Q0 e0 (4 * e0) A2l Aq)
    as H.
  apply (approx_weaken _ _ _ _ _ (H ltac:(lra) ltac:(lra) ltac:(lra)));
    [reflexivity | lra].
Qed.

(** *** The helper *)

(** The distance from [0, 1] that rounding allows to a value of the
    helper. *)
Definition slack : Q := 1 # 1073741824.

Lemma convex_slack (p q u d : Q) :
  0 <= p <= 1 -> 0 <= q <= 1 -> 0 <= d <= 1 -> - d <= u <= 1 + d ->
  - d <= p + (q - p) * u <= 1 + d.
Proof.
  intros Hp Hq Hd Hu.
  destruct (Qlt_le_dec u 0) as [H0|H0]; [split; nra|].
  destruct (Qlt_le_dec 1 u) as [H1|H1]; split; nra.
Qed.

Lemma hue_approx (p q t : float) (P0 Q0 : Q) :
  approx p P0 (8 * e0) -> approx q Q0 (4 * e0) ->
  0 <= P0 <= 1 -> 0 <= Q0 <= 1 ->
  ffinite t = true -> - 1 - 4 * e0 <= val t -> val t + 2 <= huge ->
  ffinite (hue_f p q t) = true /\ - slack <= val (hue_f p q t) <= 1 + slack.
Proof.
  intros Ap Aq HP HQ Ft Hlo Hhi.
  pose proof e0_pos as He.
  assert (He' : e0 == 1 # 35184372088832) by reflexivity.
  assert (Hsl : slack == 1 # 1073741824) by reflexivity.
  pose proof huge_large as Hhuge.
  pose proof tiny_small as Htiny. pose proof tiny_pos as Htiny'.
  unfold hue_f. cbv zeta.
  set (t1 := if (t <? 0)%float then (t + 1)%float else t).
  assert (H1 : ffinite t1 = true /\ - 8 * e0 <= val t1 /\ val t1 + 1 <= huge).
  { unfold t1.
    destruct (ltb_cases t 0 Ft eq_refl) as [[E Hc]|[E Hc]];
      rewrite E; rewrite val_0 in Hc.
    - destruct (approx_add t 1 (val t) 1 0 0 (approx_self t Ft) approx_1)
        as [F H]; try lra.
      split; [exact F|]. split; lra.
    - split; [exact Ft|]. split; lra. }
  clearbody t1. destruct H1 as (Ft1 & Hlo1 & Hhi1).
  set (t2 := if (1 <? t1)%float then (t1 - 1)%float else t1).
  assert (H2 : ffinite t2 = true /\ - 8 * e0 <= val t2).
  { unfold t2.
    destruct (ltb_cases 1 t1 eq_refl Ft1) as [[E Hc]|[E Hc]];
      rewrite E; rewrite val_1 in Hc.
    - destruct (sub_val t1 1 (val t1 + 1) Ft1 eq_refl) as [F H];
        [rewrite val_1; lra | lra|].
      split; [exact F|]. rewrite val_1 in H. unfold eps in H. nra.
    - split; [exact Ft1 | exact Hlo1]. }
  clearbody t2. destruct H2 as (Ft2 & Hlo2).
  pose proof (approx_self t2 Ft2) as At2.
  assert (Ad : approx (q - p) (Q0 - P0) (13 * e0)).
  { pose proof (approx_sub q p Q0 P0 (4 * e0) (8 * e0) Aq Ap) as H.
    apply (approx_weaken _ _ _ _ _ (H ltac:(lra) ltac:(lra) ltac:(lra)));
      [reflexivity | lra]. }
  assert (Bounds : forall v z d,
            approx v z d -> - (48 * e0) <= z <= 1 + 48 * e0 -> d <= 52 * e0 ->
            ffinite v = true /\ - slack <= val v <= 1 + slack).
  { intros v z d [F H] Hz Hd. split; [exact F | lra]. }
  destruct (ltb_cases t2 c16 Ft2 eq_refl) as [[E Hc]|[E Hc]];
    rewrite E; rewrite val_c16 in Hc.
  { (* the rising part *)
    assert (Ad6 : approx ((q - p) * 6) ((Q0 - P0) * 6) (79 * e0)).
    { pose proof (approx_mul (q - p) 6 (Q0 - P0) 6 (13 * e0) 0 1 6 Ad approx_6)
        as H.
      apply (approx_weaken _ _ _ _ _ (H ltac:(lra) ltac:(lra) ltac:(lra)
                                         ltac:(lra) ltac:(lra)));
        [reflexivity | lra]. }
    assert (Am : approx ((q - p) * 6 * t2) ((Q0 - P0) * 6 * val t2) (21 * e0)).
    { pose proof (approx_mul ((q - p) * 6) t2 ((Q0 - P0) * 6) (val t2)
                    (79 * e0) 0 6 (1 # 4) Ad6 At2) as H.
      apply (approx_weaken _ _ _ _ _ (H ltac:(lra) ltac:(lra) ltac:(lra)
                                         ltac:(lra) ltac:(lra)));
        [reflexivity | lra]. }
    assert (Hex : - (48 * e0) <= P0 + (Q0 - P0) * (6 * val t2) <= 1 + 48 * e0).
    { apply convex_slack; lra. }
    assert (Ev : P0 + (Q0 - P0) * 6 * val t2 == P0 + (Q0 - P0) * (6 * val t2))
      by ring.
    pose proof (approx_add p ((q - p) * 6 * t2) P0 ((Q0 - P0) * 6 * val t2)
                  (8 * e0) (21 * e0) Ap Am) as H.
    rewrite <- Ev in Hex.
    apply (Bounds _ _ _ (H ltac:(lra) ltac:(lra) ltac:(lra))); lra. }
  destruct (ltb_cases t2 c12 Ft2 eq_refl) as [[E2 Hc2]|[E2 Hc2]];
    rewrite E2; rewrite val_c12 in Hc2.
  { apply (Bounds _ _ _ Aq); lra. }
  destruct (ltb_cases t2 c23 Ft2 eq_refl) as [[E3 Hc3]|[E3 Hc3]];
    rewrite E3; rewrite val_c23 in Hc3.
  { (* the falling part *)
    assert (Aw : approx (c23 - t2) (val c23 - val t2) e0).
    { pose proof (approx_sub c23 t2 (val c23) (val t2) 0 0
                    (approx_self c23 eq_refl) At2) as H.
      apply (approx_weaken _ _ _ _ _ (H ltac:(rewrite val_c23; lra)
                                       ltac:(lra) ltac:(lra)));
        [reflexivity | lra]. }
    set (u := val c23 - val t2) in *.
    assert (Hu : 0 <= u <= 1 # 4) by (unfold u; rewrite val_c23; lra).
    assert (Hu' : u * 6 <= 1 + e0) by (unfold u; rewrite val_c23; lra).
    assert (Adw : approx ((q - p) * (c23 - t2)) ((Q0 - P0) * u) (7 * e0)).
    { pose proof (approx_mul (q - p) (c23 - t2) (Q0 - P0) u (13 * e0) e0
                    1 (1 # 4) Ad Aw) as H.
      apply (approx_weaken _ _ _ _ _ (H ltac:(lra) ltac:(lra) ltac:(lra)
                                         ltac:(lra) ltac:(lra)));
        [reflexivity | lra]. }
    assert (Hprod : - (1 # 4) <= (Q0 - P0) * u <= 1 # 4) by nra.
    assert (Adw6 : approx ((q - p) * (c23 - t2) * 6) ((Q0 - P0) * u * 6)
                          (43 * e0)).
    { pose proof (approx_mul ((q - p) * (c23 - t2)) 6 ((Q0 - P0) * u) 6
                    (7 * e0) 0 (1 # 4) 6 Adw approx_6) as H.
      apply (approx_weaken _ _ _ _ _ (H ltac:(lra) ltac:(lra) ltac:(lra)
                                         ltac:(lra) ltac:(lra)));
        [reflexivity | lra]. }
    assert (Hex : - (48 * e0) <= P0 + (Q0 - P0) * (u * 6) <= 1 + 48 * e0).
    { apply convex_slack; lra. }
    assert (Ev : P0 + (Q0 - P0) * u * 6 == P0 + (Q0 - P0) * (u * 6)) by ring.
    pose proof (approx_add p ((q - p) * (c23 - t2) * 6) P0 ((Q0 - P0) * u * 6)
                  (8 * e0) (43 * e0) Ap Adw6) as H.
    rewrite <- Ev in Hex.
    apply (Bounds _ _ _ (H ltac:(lra) ltac:(lra) ltac:(lra))); lra. }
  apply (Bounds _ _ _ Ap); lra.
Qed.

(** *** The arguments of the helper *)

Lemma val_bound (x : float) :
  ffinite x = true -> - (8 * huge) <= val x <= 8 * huge.
Proof.
  intros Fx.
  assert (Hz : (- (2 ^ 1024 * 2 ^ 1074) <= fscaled x <= 2 ^ 1024 * 2 ^ 1074)%Z).
  { pose proof (Prim2SF_valid x) as V. unfold fscaled, ffinite in *.
    assert (0 < 2 ^ 1024 * 2 ^ 1074)%Z by reflexivity.
    destruct (Prim2SF x) as [sx| | |sx mx ex]; try discriminate; [cbn; lia|].
    rewrite (valid_sign sx false) in V.
    pose proof (valid_finite _ _ _ V) as (He & Hm & _).
    assert (Hp : (2 ^ (ex + 1074) <= 2 ^ 2045)%Z)
      by (apply Z.pow_le_mono_r; lia).
    assert (HP : (0 < 2 ^ (ex + 1074))%Z) by (apply pow2_pos; lia).
    assert (Hs : (Zpos mx * 2 ^ (ex + 1074) <= 2 ^ 1024 * 2 ^ 1074)%Z).
    { change (2 ^ 1024 * 2 ^ 1074)%Z with (2 ^ 53 * 2 ^ 2045)%Z.
      apply Z.mul_le_mono_nonneg; lia. }
    unfold scaled. destruct sx; cbn [cond_Zopp]; lia. }
  destruct Hz as [H1 H2].
  rewrite Zle_Qle in H1, H2.
  rewrite inject_Z_opp in H1. rewrite inject_Z_mult in H1, H2.
  fold unit1074 in H1, H2. rewrite val_scaled in H1, H2.
  change (inject_Z (2 ^ 1024)) with (inject_Z (2 ^ 3 * 2 ^ 1021)) in H1, H2.
  rewrite inject_Z_mult in H1, H2. fold huge in H1, H2.
  change (inject_Z (2 ^ 3)) with 8 in H1, H2.
  pose proof unit1074_pos as HU.
  split; apply (Qmult_le_r _ _ _ HU); lra.
Qed.

(** The three arguments the helper receives for a hue of at least -240. *)
Lemma hue_arguments (h : float) :
  ffinite h = true -> - 240 <= val h ->
  let t := (h / 360)%float in
  forall u, u = (t + c13)%float \/ u = t \/ u = (t - c13)%float ->
  ffinite u = true /\ - 1 - 4 * e0 <= val u /\ val u + 2 <= huge.
Proof.
  intros Fh Hh t.
  pose proof e0_pos as He.
  assert (He' : e0 == 1 # 35184372088832) by reflexivity.
  pose proof huge_large as Hhuge.
  pose proof tiny_small as Htiny. pose proof tiny_pos as Htiny'.
  pose proof (val_bound h Fh) as Hb.
  assert (Hq : val h / 360 == val h * (1 # 360)) by reflexivity.
  destruct (div360_val h (val h / 360 + (4 # 3)) Fh) as [Ft Ht];
    [rewrite Hq; lra|].
  fold t in Ft, Ht. rewrite Hq in Ht. unfold eps in Ht.
  assert (Ht0 : - (2 # 3) - e0 <= val t /\ 16 * val t <= huge) by (split; lra).
  clear Ht. destruct Ht0 as [Hlo Hhi].
  intros u [-> | [-> | ->]].
  - destruct (add_val t c13 (val t + 2) Ft eq_refl) as [F H];
      [rewrite val_c13; lra | lra|].
    split; [exact F|]. rewrite val_c13 in H. unfold eps in H. split; lra.
  - split; [exact Ft|]. split; lra.
  - destruct (sub_val t c13 (val t + 2) Ft eq_refl) as [F H];
      [rewrite val_c13; lra | lra|].
    split; [exact F|]. rewrite val_c13 in H. unfold eps in H. split; lra.
Qed.

(** A float that really is an integer from 0 to 255: it is equal, as [===]
    has it, to such an integer (the negative zero is equal to 0). *)
Definition is_byte (x : float) : Prop :=
  exists n, (0 <= n <= 255)%Z /\ (x =? F64.of_Z n)%float = true.

Lemma level_byte (v : float) :
  ffinite v = true -> - slack <= val v <= 1 + slack ->
  is_byte (F64.round (v * 255)).
Proof.
  intros Fv Hv.
  assert (Hsl : slack == 1 # 1073741824) by reflexivity.
  pose proof tiny_small as Htiny. pose proof tiny_pos as Htiny'.
  destruct (mul_val v 255 512 Fv eq_refl) as [F H];
    [rewrite val_255; lra | lra|].
  rewrite val_255 in H. unfold eps in H.
  apply round_channel; [exact F | lra | lra].
Qed.

End Analysis.

(** ** The range of [hslToRgb] on binary64 numbers *)

Lemma leb_true_val (x y : float) :
  ffinite x = true -> ffinite y = true -> (x <=? y) = true ->
  (val x <= val y)%Q.
Proof.
  intros Fx Fy E. pose proof (leb_val x y Fx Fy) as L.
  rewrite E in L. exact L.
Qed.

(** A hue that is not below -240 is a finite number or [+infinity]. *)
Lemma hue_cases (h : float) :
  (-240 <=? h) = true -> ffinite h = true \/ h = infinity.
Proof.
  intros H. rewrite FloatAxioms.leb_spec in H. unfold SFleb in H.
  unfold ffinite.
  destruct (Prim2SF h) as [sx|[|]| |sx mx ex] eqn:E;
    try (left; reflexivity); try discriminate H.
  right. rewrite <- (SF2Prim_Prim2SF h), E. reflexivity.
Qed.

(** The helper on the arguments an infinite hue gives: every comparison but
    [t > 1] fails, and the helper returns [p]. *)
Lemma hue_of_infinity (p q : float) :
  hue_f p q (infinity / 360 + c13) = p /\
  hue_f p q (infinity / 360) = p /\
  hue_f p q (infinity / 360 - c13) = p.
Proof. repeat split; reflexivity. Qed.

Lemma helper_range (h s l : float) :
  (-240 <=? h) = true ->
  (0 <=? s) = true -> (s <=? 1) = true ->
  (0 <=? l) = true -> (l <=? 1) = true ->
  let p := level_p s l in
  let q := level_q s l in
  ffinite l = true /\ (0 <= val l <= 1)%Q /\
  forall t, In t [h / 360 + c13; h / 360; h / 360 - c13] ->
    ffinite (hue_f p q t) = true /\
    (- slack <= val (hue_f p q t) <= 1 + slack)%Q.
Proof.
  intros Hh Hs0 Hs1 Hl0 Hl1 p q.
  assert (F0 : ffinite 0 = true) by reflexivity.
  assert (F1 : ffinite 1 = true) by reflexivity.
  pose proof (bounded_finite 0 1 s F0 F1 Hs0 Hs1) as Fs.
  pose proof (bounded_finite 0 1 l F0 F1 Hl0 Hl1) as Fl.
  pose proof (leb_true_val 0 s F0 Fs Hs0) as Vs0.
  pose proof (leb_true_val s 1 Fs F1 Hs1) as Vs1.
  pose proof (leb_true_val 0 l F0 Fl Hl0) as Vl0.
  pose proof (leb_true_val l 1 Fl F1 Hl1) as Vl1.
  rewrite val_0 in Vs0, Vl0. rewrite val_1 in Vs1, Vl1.
  split; [exact Fl|]. split; [split; assumption|].
  destruct (levels_approx s l Fs Fl (conj Vs0 Vs1) (conj Vl0 Vl1))
    as (P0 & Q0 & Ap & Aq & HP & HQ).
  fold p in Ap. fold q in Aq.
  intros t Ht.
  destruct (hue_cases h Hh) as [Fh| ->].
  - assert (Vh : (- 240 <= val h)%Q).
    { rewrite <- val_m240. apply leb_true_val; [reflexivity | exact Fh | exact Hh]. }
    destruct (hue_arguments h Fh Vh t) as (Ft & Hlo & Hhi).
    { cbn [In] in Ht. destruct Ht as [<-|[<-|[<-|[]]]]; auto. }
    apply (hue_approx p q t P0 Q0); assumption.
  - assert (Et : hue_f p q t = p).
    { destruct (hue_of_infinity p q) as (E1 & E2 & E3).
      cbn [In] in Ht. destruct Ht as [<-|[<-|[<-|[]]]]; assumption. }
    rewrite Et. destruct Ap as [Fp Hp].
    pose proof e0_pos.
    assert (e0 == 1 # 35184372088832)%Q by reflexivity.
    assert (slack == 1 # 1073741824)%Q by reflexivity.
    split; [exact Fp | lra].
Qed.

(** C9, as the program has it.  A hue of -360 degrees (with s = 1 and
    l = 0.5) leaves the helper's argument negative after its single
    wrap-around, and the blue channel comes out as -510; a hue of -241 is
    already too low, the blue channel being -4.  Moreover the two levels are
    not ordered as in real arithmetic: with s = 0.13 and l = 1 the additions
    round [q] below 1 while [p] is 1. *)
Lemma hslToRgb_negative_hue :
  (hslToRgb (-360) 1 0.5).(B) = -510 /\
  (-510 <? 0) = true /\
  (hslToRgb (-241) 1 0.5).(B) = -4 /\
  (let s := 13 / 100 in
   let l := 1 in
   let q := if l <? 0.5 then l * (1 + s) else l + s - l * s in
   let p := 2 * l - q in
   (0 <=? s) && (s <=? 1) && (q <? p) = true).
Proof. repeat split; vm_compute; reflexivity. Qed.

(** C9, amended: for every hue that is not below -240 (a finite number or
    [+infinity]) and every saturation and lightness from 0 to 1, the three
    values of the helper are finite numbers within [2^-30] of the interval
    [0, 1], and [hslToRgb] returns three numbers that are equal ([===]) to
    integers from 0 to 255. *)
Theorem hslToRgb_range (h s l : float) :
  (-240 <=? h) = true ->
  (0 <=? s) = true -> (s <=? 1) = true ->
  (0 <=? l) = true -> (l <=? 1) = true ->
  let q := if l <? 0.5 then l * (1 + s) else l + s - l * s in
  let p := 2 * l - q in
  (forall t, In t [h / 360 + 1 / 3; h / 360; h / 360 - 1 / 3] ->
     ffinite (hueToRgb p q t) = true /\
     (- slack <= val (hueToRgb p q t) <= 1 + slack)%Q) /\
  is_byte (hslToRgb h s l).(R) /\
  is_byte (hslToRgb h s l).(G) /\
  is_byte (hslToRgb h s l).(B).
Proof.
  intros Hh Hs0 Hs1 Hl0 Hl1 q p.
  destruct (helper_range h s l Hh Hs0 Hs1 Hl0 Hl1) as (Fl & Vl & Hv).
  change (level_q s l) with q in Hv. change (level_p s l) with p in Hv.
  cbv zeta in Hv.
  split.
  - intros t Ht. rewrite hueToRgb_f. apply Hv. exact Ht.
  - rewrite hslToRgb_f_eq. unfold hslToRgb_f.
    destruct (s =? 0).
    + assert (Hb : is_byte (F64.round (l * 255))).
      { apply level_byte; [exact Fl|].
        assert (slack == 1 # 1073741824)%Q by reflexivity. lra. }
      cbn [R G B]. repeat split; exact Hb.
    + fold q. fold p. cbn [R G B].
      repeat split; apply level_byte; apply Hv; cbn [In]; tauto.
Qed.

Lemma hslToRgb_range_witness : is_byte (hslToRgb 210 0.5 0.25).(R).
Proof.
  refine (proj1 (proj2 (hslToRgb_range 210 0.5 0.25 _ _ _ _ _))); reflexivity.
Defined.
